(** * opustags: the orchestrator of [src/opustags.cc] and its collaborators

    The development embeds [same_file], [process_tags] and [run] of
    [src/opustags.cc].  The functions of the [ot] namespace that the file
    calls but does not define (the comment codec, the identification
    header check) are modelled from the specification; libogg, an external
    library, is an interface ([Libogg]) with one instance that follows its
    [framing.c]. *)

From Stdlib Require Import ZArith Lia Bool Ascii String.
From Stdlib.Strings Require Import Byte.
From stdpp Require Import base list strings gmap.

Local Open Scope Z_scope.

(** ** Byte strings *)

(** [std::string] values (comments, vendor string, option strings) are
    [string]s: sequences of 8-bit characters.  Packet payloads
    ([unsigned char*] with a length) are lists of bytes. *)

Definition byte_of_Z (z : Z) : byte :=
  match Byte.of_N (Z.to_N (z mod 256)) with
  | Some b => b
  | None => Byte.x00
  end.

Definition Z_of_byte (b : byte) : Z := Z.of_N (Byte.to_N b).

(** A 32-bit unsigned integer in little-endian order. *)
Definition le32 (n : Z) : list byte :=
  [ byte_of_Z (Z.land n 255);
    byte_of_Z (Z.land (Z.shiftr n 8) 255);
    byte_of_Z (Z.land (Z.shiftr n 16) 255);
    byte_of_Z (Z.land (Z.shiftr n 24) 255) ].

Definition read_le32 (data : list byte) : option (Z * list byte) :=
  match data with
  | b0 :: b1 :: b2 :: b3 :: rest =>
      Some (Z.lor (Z_of_byte b0)
             (Z.lor (Z.shiftl (Z_of_byte b1) 8)
               (Z.lor (Z.shiftl (Z_of_byte b2) 16)
                      (Z.shiftl (Z_of_byte b3) 24))), rest)
  | _ => None
  end.

(** [n] bytes from the front of [data], when it holds that many. *)
Definition read_bytes (n : Z) (data : list byte) : option (list byte * list byte) :=
  if Z.of_nat (length data) <? n then None
  else Some (take (Z.to_nat n) data, drop (Z.to_nat n) data).

Definition strlen (s : string) : Z := Z.of_nat (String.length s).

(** ** The comment block *)

Module ot.

(** [ot::status], as far as [opustags.cc] tells its values apart. *)
Inductive status :=
| ok
| exit_now
| end_of_file
| standard_error
| libogg_error
| bad_identification_header
| bad_comment_header.

Definition status_eqb (a b : status) : bool :=
  match a, b with
  | ok, ok | exit_now, exit_now | end_of_file, end_of_file
  | standard_error, standard_error | libogg_error, libogg_error
  | bad_identification_header, bad_identification_header
  | bad_comment_header, bad_comment_header => true
  | _, _ => false
  end.

(** [ot::opus_tags]: the vendor string and the ordered comments. *)
Record opus_tags := {
  vendor : string;
  comments : list string;
}.

Definition set_comments (tags : opus_tags) (cs : list string) : opus_tags :=
  {| vendor := vendor tags; comments := cs |}.

Definition magic_tags : list byte := list_byte_of_string "OpusTags".
Definition magic_head : list byte := list_byte_of_string "OpusHead".

(** Does [data] start with the bytes of [magic]? *)
Fixpoint has_magic (magic data : list byte) : bool :=
  match magic, data with
  | [], _ => true
  | m :: magic', d :: data' => Byte.eqb m d && has_magic magic' data'
  | _ :: _, [] => false
  end.

Fixpoint parse_comments (count : nat) (data : list byte) : option (list string) :=
  match count with
  | O => Some []
  | S count' =>
      match read_le32 data with
      | None => None
      | Some (len, data1) =>
          match read_bytes len data1 with
          | None => None
          | Some (c, data2) =>
              match parse_comments count' data2 with
              | None => None
              | Some cs => Some (string_of_list_byte c :: cs)
              end
          end
      end
  end.

(** Modelled from the spec: [ot::parse_tags] is declared in [opustags.h]
    and defined outside [src/].  Section 4.4: the packet starts with the
    comment-header signature, then a length-prefixed vendor string, a
    32-bit little-endian comment count and that many length-prefixed
    entries; a missing signature or a truncation anywhere fails. *)
Definition parse_tags (data : list byte) : option opus_tags :=
  if has_magic magic_tags data then
    match read_le32 (drop (length magic_tags) data) with
    | None => None
    | Some (vendor_length, data1) =>
        match read_bytes vendor_length data1 with
        | None => None
        | Some (v, data2) =>
            match read_le32 data2 with
            | None => None
            | Some (count, data3) =>
                match parse_comments (Z.to_nat count) data3 with
                | None => None
                | Some cs =>
                    Some {| vendor := string_of_list_byte v; comments := cs |}
                end
            end
        end
    end
  else None.

Definition render_comment (c : string) : list byte :=
  le32 (strlen c) ++ list_byte_of_string c.

(** Modelled from the spec: the payload [ot::render_tags] builds (defined
    outside [src/]).  Section 4.4: the signature, the length-prefixed
    vendor string, the 32-bit little-endian count, then each entry
    length-prefixed, and nothing after. *)
Definition render_tags_bytes (tags : opus_tags) : list byte :=
  magic_tags
  ++ le32 (strlen (vendor tags)) ++ list_byte_of_string (vendor tags)
  ++ le32 (Z.of_nat (length (comments tags)))
  ++ concat (map render_comment (comments tags)).

(** ASCII case folding, as the case-insensitive comparison of keys does. *)
Definition to_lower (c : ascii) : ascii :=
  let n := nat_of_ascii c in
  if (65 <=? n)%nat && (n <=? 90)%nat then ascii_of_nat (n + 32) else c.

Fixpoint lower (s : string) : string :=
  match s with
  | EmptyString => EmptyString
  | String c s' => String (to_lower c) (lower s')
  end.

(** The key of a comment: what stands before its first [=]; a comment
    without [=] has no key. *)
Fixpoint key_of (c : string) : option string :=
  match c with
  | EmptyString => None
  | String a c' =>
      if Ascii.eqb a "="%char then Some EmptyString
      else match key_of c' with
           | Some k => Some (String a k)
           | None => None
           end
  end.

Definition key_matches (name c : string) : bool :=
  match key_of c with
  | Some k => String.eqb (lower k) (lower name)
  | None => false
  end.

(** Modelled from the spec: [ot::delete_tags] (defined outside [src/])
    deletes every entry whose key matches the name case-insensitively
    (section 4.4 (a), section 9 on keys) and keeps the other entries in
    their order. *)
Definition delete_tags (tags : opus_tags) (name : string) : opus_tags :=
  set_comments tags
    (List.filter (fun c => negb (key_matches name c)) (comments tags)).

(** Modelled from the spec: [ot::validate_identification_header] (defined
    outside [src/]).  Section 4.3: the leading bytes are the signature of
    the identification header, nothing else is looked at. *)
Definition validate_identification_header (data : list byte) : status :=
  if has_magic magic_head data then ok else bad_identification_header.

(** Modelled from the spec: [ot::error_message] (defined outside [src/])
    gives the human-readable description of a status (section 7). *)
Definition error_message (rc : status) : string :=
  match rc with
  | ok => "OK"
  | exit_now => "exit now"
  | end_of_file => "end of file"
  | standard_error => "standard error"
  | libogg_error => "libogg error"
  | bad_identification_header => "bad identification header"
  | bad_comment_header => "bad comment header"
  end.

End ot.

(** ** Pages, packets and libogg *)

(** An [ogg_page] by its header fields, its segment table and its body.
    The checksum is no field: a page that [read_page] delivers has a valid
    one and [ogg_stream_flush] computes it from the rest, so two pages with
    equal fields are the same bytes. *)
Record ogg_page := {
  pg_version : Z;
  pg_continued : bool;
  pg_bos : bool;
  pg_eos : bool;
  pg_granulepos : Z;
  pg_serialno : Z;
  pg_pageno : Z;
  pg_lacing : list Z;
  pg_body : list byte;
}.

(** An [ogg_packet]; [op.bytes] is the length of [packet]. *)
Record ogg_packet := {
  packet : list byte;
  b_o_s : bool;
  e_o_s : bool;
  granulepos : Z;
  packetno : Z;
}.

(** What [ogg_stream_packetout] returns: 1 with a packet, 0 when no whole
    packet is buffered, -1 at a gap in the data. *)
Inductive packetout_result :=
| po_packet (op : ogg_packet)
| po_none
| po_hole.

(** The calls of libogg that [opustags.cc] makes, on an abstract
    [ogg_stream_state].  [None] stands for the return value -1,
    [ogg_stream_check] is [true] when the C function returns non-zero.
    Whether [ogg_stream_init] gets its storage may depend on when it is
    called: it takes the number of calls made so far.
    The laws are libogg's contract: the stream keeps the serial number
    it was initialised with, [ogg_stream_pagein] refuses a page of
    another serial number, and every packet handed out leaves less
    buffered data in the stream. *)
Class Libogg (stream : Type) := {
  ogg_stream_init : nat → Z → option stream;
  ogg_stream_check : stream → bool;
  ogg_stream_pagein : stream → ogg_page → option stream;
  ogg_stream_packetout : stream → packetout_result * stream;
  ogg_stream_packetin : stream → ogg_packet → option stream;
  ogg_stream_flush : stream → option ogg_page * stream;
  stream_serialno : stream → Z;
  stream_pending : stream → nat;
  init_serialno : ∀ t n os, ogg_stream_init t n = Some os → stream_serialno os = n;
  pagein_serialno : ∀ os og os',
    ogg_stream_pagein os og = Some os' →
    pg_serialno og = stream_serialno os ∧ stream_serialno os' = stream_serialno os;
  packetout_serialno : ∀ os r os',
    ogg_stream_packetout os = (r, os') → stream_serialno os' = stream_serialno os;
  packetout_pending : ∀ os op os',
    ogg_stream_packetout os = (po_packet op, os') →
    (stream_pending os' < stream_pending os)%nat;
}.

(** Modelled from the spec: [ot::render_tags] (defined outside [src/])
    returns the rendered payload as a packet; a header packet is neither
    the first nor the last of the stream for the encoder's flags and has
    granule position 0. *)
Definition render_tags (tags : ot.opus_tags) : ogg_packet :=
  {| packet := ot.render_tags_bytes tags;
     b_o_s := false; e_o_s := false; granulepos := 0; packetno := 1 |}.

(** ** Options and the environment *)

(** [ot::options], the fields [opustags.cc] reads.  [inplace] is a
    [const char*]: null or the suffix of the temporary file. *)
Record options := {
  path_in : string;
  path_out : string;
  inplace : option string;
  overwrite : bool;
  delete_all : bool;
  to_delete : list string;
  set_all : bool;
  to_add : list string;
}.

Inductive exit_code := EXIT_SUCCESS | EXIT_FAILURE.

Inductive handle := h_stdin | h_stdout | h_file (path : string).

(** How reading ends once the pages of the input are used up:
    [ot::status::end_of_file], [ot::status::standard_error] (with the text
    of [strerror(errno)]), or any other status. *)
Inductive read_end :=
| at_end_of_file
| at_standard_error (strerror : string)
| at_error.

(** The input as [reader.read_page] delivers it. *)
Record input := {
  in_pages : list ogg_page;
  in_end : read_end;
}.

Inductive read_result :=
| page_read (og : ogg_page)
| page_end (e : read_end).

(** The outside world.  What a call answers may depend on when it is
    made: [env_fwrite_ok] and [env_indeterminate] take the number of calls
    made so far. [env_indeterminate] is the content of the local
    [ogg_page page] of [run] before [ogg_stream_flush] fills it. *)
Record env := {
  env_realpath : string → option string;
  env_fs : gset string;
  env_fopen_r : string → option input;
  env_stdin : input;
  env_fopen_w : string → bool;
  env_fwrite_ok : nat → bool;
  env_rename_ok : string → string → bool;
  env_read_comments : list string;
  env_indeterminate : nat → ogg_page;
}.

(** The calls [run] makes to its collaborators, with their results. *)
Inductive call :=
| c_same_file (p_in p_out : string) (same : bool)
| c_fopen (path mode : string) (opened : bool)
| c_access (path : string) (found : bool)
| c_fclose (f : handle)
| c_read_page (r : read_result)
| c_write_page (og : ogg_page) (written : bool)
| c_stream_init (serialno : Z) (done : bool)
| c_stream_pagein (og : ogg_page) (done : bool)
| c_stream_packetout (r : packetout_result)
| c_stream_packetin (op : ogg_packet) (done : bool)
| c_stream_flush (og : option ogg_page)
| c_stream_check (sound : bool)
| c_validate_identification_header (rc : ot.status)
| c_process_tags (rc : ot.status)
| c_print_comments (lines : list string)
| c_stderr (msg : string)
| c_remove (path : string)
| c_rename (p_from p_to : string) (done : bool).

(** The call reported a failure that [run] tests: each of these ends the
    run with [EXIT_FAILURE].  What [run] does not test is no failure here:
    the results of [ogg_stream_flush], [fclose] and [remove], and the -1 of
    [ogg_stream_packetout] (a gap in the pages), which its loop takes as
    no packet. *)
Definition failed (c : call) : bool :=
  match c with
  | c_same_file _ _ same => same
  | c_fopen _ _ opened => negb opened
  | c_access _ found => found
  | c_read_page (page_end (at_standard_error _)) => true
  | c_read_page (page_end at_error) => true
  | c_write_page _ written => negb written
  | c_stream_init _ done => negb done
  | c_stream_pagein _ done => negb done
  | c_stream_packetin _ done => negb done
  | c_stream_check sound => negb sound
  | c_validate_identification_header rc => negb (ot.status_eqb rc ot.ok)
  | c_process_tags rc => negb (ot.status_eqb rc ot.ok)
  | c_rename _ _ done => negb done
  | _ => false
  end.

Definition is_packet (c : call) : bool :=
  match c with c_stream_packetout (po_packet _) => true | _ => false end.

Definition is_write (c : call) : bool :=
  match c with c_write_page _ _ => true | _ => false end.

Definition is_flush (c : call) : bool :=
  match c with c_stream_flush _ => true | _ => false end.

Definition is_pagein (c : call) : bool :=
  match c with c_stream_pagein _ _ => true | _ => false end.

(** Projections of a trace. *)
Definition failures (tr : list call) : list call := List.filter failed tr.
Definition packets_seen (tr : list call) : nat := length (List.filter is_packet tr).
Definition pages_read (tr : list call) : list ogg_page :=
  omap (λ c, match c with c_read_page (page_read og) => Some og | _ => None end) tr.
Definition pages_written (tr : list call) : list ogg_page :=
  omap (λ c, match c with c_write_page og true => Some og | _ => None end) tr.
Definition write_calls (tr : list call) : nat := length (List.filter is_write tr).
Definition flush_calls (tr : list call) : nat := length (List.filter is_flush tr).
Definition header_pages (tr : list call) : nat := length (List.filter is_pagein tr).
Definition printed (tr : list call) : list (list string) :=
  omap (λ c, match c with c_print_comments ls => Some ls | _ => None end) tr.
Definition diagnostics (tr : list call) : list string :=
  omap (λ c, match c with c_stderr m => Some m | _ => None end) tr.
Definition packets_out (tr : list call) : list ogg_packet :=
  omap (λ c, match c with c_stream_packetout (po_packet op) => Some op | _ => None end) tr.
Definition submitted (tr : list call) : list ogg_packet :=
  omap (λ c, match c with c_stream_packetin op _ => Some op | _ => None end) tr.
Definition pages_flushed (tr : list call) : list ogg_page :=
  omap (λ c, match c with c_stream_flush (Some og) => Some og | _ => None end) tr.

(** [same_file] of [opustags.cc]. *)
Definition same_file (realpath : string → option string) (p_in p_out : string) : bool :=
  if String.eqb p_in "-" || String.eqb p_out "-" then false
  else match realpath p_in, realpath p_out with
       | Some canon_in, Some canon_out => String.eqb canon_in canon_out
       | _, _ => false
       end.

(** ** [process_tags] and [run] *)

Section Run.
Context {stream : Type} `{!Libogg stream}.

(** The variables of [run] that change in its loop, and the calls made
    so far.  A stream is [None] until [ogg_stream_init] has set it up. *)
Record state := {
  reader_stream : option stream;
  writer_stream : option stream;
  packet_count : Z;
  error : option string;
  trace : list call;
}.

Definition log (c : call) (st : state) : state :=
  {| reader_stream := reader_stream st; writer_stream := writer_stream st;
     packet_count := packet_count st; error := error st;
     trace := trace st ++ [c] |}.

Definition set_error (msg : string) (st : state) : state :=
  {| reader_stream := reader_stream st; writer_stream := writer_stream st;
     packet_count := packet_count st; error := Some msg;
     trace := trace st |}.

Definition set_packet_count (n : Z) (st : state) : state :=
  {| reader_stream := reader_stream st; writer_stream := writer_stream st;
     packet_count := n; error := error st; trace := trace st |}.

Definition set_reader (os : option stream) (st : state) : state :=
  {| reader_stream := os; writer_stream := writer_stream st;
     packet_count := packet_count st; error := error st;
     trace := trace st |}.

Definition set_writer (os : option stream) (st : state) : state :=
  {| reader_stream := reader_stream st; writer_stream := os;
     packet_count := packet_count st; error := error st;
     trace := trace st |}.

(** [ogg_stream_packetin(&writer.stream, op)]: a stream that was never
    initialised takes no packet. *)
Definition writer_packetin (op : ogg_packet) (st : state) : bool * state :=
  match writer_stream st with
  | Some ws =>
      match ogg_stream_packetin ws op with
      | Some ws' => (true, log (c_stream_packetin op true) (set_writer (Some ws') st))
      | None => (false, log (c_stream_packetin op false) st)
      end
  | None => (false, log (c_stream_packetin op false) st)
  end.

Variable e : env.
Variable opt : options.
(** [writer.file]: [None] in read-only mode. *)
Variable wfile : option handle.

(** The edits of [process_tags], lines 38 to 48, on the parsed tags. *)
Definition edit_tags (tags : ot.opus_tags) : ot.opus_tags :=
  let tags :=
    if delete_all opt then ot.set_comments tags []
    else fold_left ot.delete_tags (to_delete opt) tags in
  let tags :=
    if set_all opt then ot.set_comments tags (env_read_comments e) else tags in
  fold_left (λ t comment, ot.set_comments t (ot.comments t ++ [comment]))
    (to_add opt) tags.

(** [process_tags]: parse, edit, then render into the writer or print. *)
Definition process_tags (op : ogg_packet) (st : state) : ot.status * state :=
  match ot.parse_tags (packet op) with
  | None => (ot.bad_comment_header, st)
  | Some tags =>
      let tags := edit_tags tags in
      match wfile with
      | Some _ =>
          let '(done, st) := writer_packetin (render_tags tags) st in
          if done then (ot.ok, st) else (ot.libogg_error, st)
      | None =>
          (ot.ok, log (c_print_comments (ot.comments tags)) st)
      end
  end.

(** The inner loop of [run], lines 141 to 166.  Each round takes one
    packet out of the reader; [fuel] bounds the rounds, and
    [read_packets_fuel] shows that the bound [run] passes is never
    reached. *)
Fixpoint read_packets (fuel : nat) (st : state) : state :=
  match fuel, reader_stream st with
  | S fuel', Some rs =>
      let '(r, rs') := ogg_stream_packetout rs in
      let st := log (c_stream_packetout r) (set_reader (Some rs') st) in
      match r with
      | po_packet op =>
          let st := set_packet_count (packet_count st + 1) st in
          let copy st :=
            match wfile with
            | Some _ =>
                let '(done, st) := writer_packetin op st in
                if done then read_packets fuel' st
                else set_error "ogg_stream_packetin: internal error" st
            | None => read_packets fuel' st
            end in
          if packet_count st =? 1 then
            let rc := ot.validate_identification_header (packet op) in
            let st := log (c_validate_identification_header rc) st in
            if ot.status_eqb rc ot.ok then copy st
            else set_error (ot.error_message rc) st
          else if packet_count st =? 2 then
            let '(rc, st) := process_tags op st in
            let st := log (c_process_tags rc) st in
            if ot.status_eqb rc ot.ok then
              match wfile with
              | None => st
              | Some _ => read_packets fuel' st
              end
            else set_error (ot.error_message rc) st
          else copy st
      | _ => st
      end
  | _, _ => st
  end.

(** Lines 123 to 135: the streams are set up from the first page. *)
Definition init_streams (og : ogg_page) (st : state) : state :=
  if packet_count st =? -1 then
    match ogg_stream_init (length (trace st)) (pg_serialno og) with
    | None =>
        set_error "ogg_stream_init: couldn't create a decoder"
          (log (c_stream_init (pg_serialno og) false) st)
    | Some rs =>
        let st := set_reader (Some rs) (log (c_stream_init (pg_serialno og) true) st) in
        match wfile with
        | Some _ =>
            match ogg_stream_init (length (trace st)) (pg_serialno og) with
            | None =>
                set_error "ogg_stream_init: couldn't create an encoder"
                  (log (c_stream_init (pg_serialno og) false) st)
            | Some ws =>
                set_packet_count 0
                  (set_writer (Some ws) (log (c_stream_init (pg_serialno og) true) st))
            end
        | None => set_packet_count 0 st
        end
    end
  else st.

(** Lines 136 to 139. *)
Definition feed_page (og : ogg_page) (st : state) : state :=
  match reader_stream st with
  | Some rs =>
      match ogg_stream_pagein rs og with
      | Some rs' => log (c_stream_pagein og true) (set_reader (Some rs') st)
      | None =>
          set_error "ogg_stream_pagein: invalid page" (log (c_stream_pagein og false) st)
      end
  | None =>
      set_error "ogg_stream_pagein: invalid page" (log (c_stream_pagein og false) st)
  end.

Definition stream_check (os : option stream) : bool :=
  match os with
  | Some s => negb (ogg_stream_check s)
  | None => false
  end.

(** Lines 169 and 170. *)
Definition check_reader (st : state) : state :=
  let sound := stream_check (reader_stream st) in
  let st := log (c_stream_check sound) st in
  if sound then st
  else set_error "ogg_stream_check: internal error (decoder)" st.

(** Lines 173 to 178: the page is flushed into the local [page] and
    [page] is written, whatever [ogg_stream_flush] returned. *)
Definition flush_page (st : state) : state :=
  let page := env_indeterminate e (length (trace st)) in
  let '(flushed, ws') :=
    match writer_stream st with
    | Some ws => let '(r, ws') := ogg_stream_flush ws in (r, Some ws')
    | None => (None, None)
    end in
  let st := log (c_stream_flush flushed) (set_writer ws' st) in
  let page := match flushed with Some og => og | None => page end in
  let written := env_fwrite_ok e (length (trace st)) in
  let st := log (c_write_page page written) st in
  if written then
    let sound := stream_check (writer_stream st) in
    let st := log (c_stream_check sound) st in
    if sound then st
    else set_error "ogg_stream_check: internal error (encoder)" st
  else set_error "write_page: fwrite error" st.

Definition fuel_of (st : state) : nat :=
  match reader_stream st with
  | Some rs => S (stream_pending rs)
  | None => 1
  end.

(** The body of the loop of [run] after a page was read, lines 114 to
    181.  The flag tells whether the loop goes on to its next round
    ([true]) or is left by [break] ([false]). *)
Definition page_step (og : ogg_page) (st : state) : state * bool :=
  if (2 <=? packet_count st) && bool_decide (is_Some wfile) then
    let written := env_fwrite_ok e (length (trace st)) in
    let st := log (c_write_page og written) st in
    if written then (st, true)
    else (set_error "write_page: fwrite error" st, false)
  else
    let st := init_streams og st in
    match error st with
    | Some _ => (st, false)
    | None =>
        let st := feed_page og st in
        match error st with
        | Some _ => (st, false)
        | None =>
            let st := read_packets (fuel_of st) st in
            match error st with
            | Some _ => (st, false)
            | None =>
                let st := check_reader st in
                match wfile with
                | Some _ => (flush_page st, true)
                | None => if 2 <=? packet_count st then (st, false) else (st, true)
                end
            end
        end
    end.

(** The loop of [run], lines 102 to 182, over the pages that
    [reader.read_page] delivers, then how reading ends. *)
Fixpoint main_loop (pages : list ogg_page) (ending : read_end) (st : state) : state :=
  match error st with
  | Some _ => st
  | None =>
      match pages with
      | [] =>
          let st := log (c_read_page (page_end ending)) st in
          match ending with
          | at_end_of_file => st
          | at_standard_error msg => set_error msg st
          | at_error => set_error "error reading the next ogg page" st
          end
      | og :: pages' =>
          let '(st, next) := page_step og (log (c_read_page (page_read og)) st) in
          if next then main_loop pages' ending st else st
      end
  end.

End Run.

Arguments state stream : clear implicits.

(** What [run] leaves behind: the exit status, the paths that exist, and
    the calls made, in order. *)
Record result := {
  exit_status : exit_code;
  r_fs : gset string;
  r_trace : list call;
}.

Section Main.
Context {stream : Type} `{!Libogg stream}.

Definition init_state (tr : list call) : state stream :=
  {| reader_stream := None; writer_stream := None;
     packet_count := -1; error := None; trace := tr |}.

Definition is_stdout (f : option handle) : bool :=
  match f with Some h_stdout => true | _ => false end.

(** Lines 183 to 200, after the loop; [p_out] is [opt.path_out] as line
    80 may have set it. *)
Definition finish (e : env) (opt : options) (p_out : string)
    (rfile : handle) (wfile : option handle) (fs : gset string)
    (st : state stream) : result :=
  let tr := trace st ++ [c_fclose rfile] in
  let tr := match wfile with Some f => tr ++ [c_fclose f] | None => tr end in
  let error :=
    match error st with
    | None => if packet_count st <? 2 then Some "opustags: invalid file" else None
    | Some msg => Some msg
    end in
  match error with
  | Some msg =>
      let tr := tr ++ [c_stderr msg] in
      if negb (String.eqb p_out "") && negb (is_stdout wfile) then
        {| exit_status := EXIT_FAILURE; r_fs := fs ∖ {[p_out]};
           r_trace := tr ++ [c_remove p_out] |}
      else {| exit_status := EXIT_FAILURE; r_fs := fs; r_trace := tr |}
  | None =>
      match inplace opt with
      | Some _ =>
          if env_rename_ok e p_out (path_in opt) then
            {| exit_status := EXIT_SUCCESS;
               r_fs := (fs ∖ {[p_out]}) ∪ {[path_in opt]};
               r_trace := tr ++ [c_rename p_out (path_in opt) true] |}
          else
            {| exit_status := EXIT_FAILURE; r_fs := fs;
               r_trace := tr ++ [c_rename p_out (path_in opt) false; c_stderr "rename"] |}
      | None => {| exit_status := EXIT_SUCCESS; r_fs := fs; r_trace := tr |}
      end
  end.

(** Lines 100 to 200: the loop from its initial state, then [finish]. *)
Definition process (e : env) (opt : options) (p_out : string)
    (rfile : handle) (inp : input) (wfile : option handle)
    (fs : gset string) (tr : list call) : result :=
  finish e opt p_out rfile wfile fs
    (main_loop e opt wfile (in_pages inp) (in_end inp) (init_state tr)).

Definition failure (fs : gset string) (tr : list call) : result :=
  {| exit_status := EXIT_FAILURE; r_fs := fs; r_trace := tr |}.

(** [opt.path_out] after lines 79 and 80. *)
Definition output_path (opt : options) : string :=
  match inplace opt with
  | Some suffix => String.append (path_in opt) suffix
  | None => path_out opt
  end.

(** [run] of [opustags.cc]. *)
Definition run (e : env) (opt : options) : result :=
  let fs := env_fs e in
  let requested := negb (String.eqb (path_out opt) "") in
  let same := same_file (env_realpath e) (path_in opt) (path_out opt) in
  let tr := if requested then [c_same_file (path_in opt) (path_out opt) same] else [] in
  if requested && same then
    failure fs (tr ++ [c_stderr "error: the input and output files are the same"])
  else
    let opened :=
      if String.eqb (path_in opt) "-" then Some (h_stdin, env_stdin e, tr)
      else match env_fopen_r e (path_in opt) with
           | Some inp =>
               Some (h_file (path_in opt), inp, tr ++ [c_fopen (path_in opt) "r" true])
           | None => None
           end in
    match opened with
    | None => failure fs (tr ++ [c_fopen (path_in opt) "r" false; c_stderr "fopen"])
    | Some (rfile, inp, tr) =>
        let p_out := output_path opt in
        if String.eqb p_out "" then process e opt p_out rfile inp None fs tr
        else if String.eqb p_out "-" then
          process e opt p_out rfile inp (Some h_stdout) fs tr
        else
          let guarded := negb (overwrite opt) && negb (bool_decide (is_Some (inplace opt))) in
          let found := bool_decide (p_out ∈ fs) in
          let tr := if guarded then tr ++ [c_access p_out found] else tr in
          if guarded && found then
            failure fs
              (tr ++ [c_stderr (String.append "'"
                        (String.append p_out "' already exists (use -y to overwrite)"));
                      c_fclose rfile])
          else if env_fopen_w e p_out then
            process e opt p_out rfile inp (Some (h_file p_out)) (fs ∪ {[p_out]})
              (tr ++ [c_fopen p_out "w" true])
          else
            failure fs (tr ++ [c_fopen p_out "w" false; c_stderr "fopen"; c_fclose rfile])
    end.

End Main.

(** ** libogg's stream functions

    An instance of [Libogg] after [framing.c] of libogg 1.3.  The buffers
    hold what the C arrays hold between the returned mark and the fill
    mark: [body_data] is [body_data[body_returned..body_fill)],
    [lacing_vals] and [granule_vals] start at [lacing_returned], and
    [lacing_packet] counts from there.  A lacing value carries the flags
    [0x100] (first segment of a packet), [0x200] (end of stream) and
    [0x400] (gap). *)
Module framing.

Record ogg_stream_state := {
  body_data : list byte;
  lacing_vals : list Z;
  granule_vals : list Z;
  lacing_packet : nat;
  os_e_o_s : bool;
  os_b_o_s : bool;
  serialno : Z;
  pageno : Z;
  os_packetno : Z;
  os_granulepos : Z;
}.

Definition flag (mask v : Z) : bool := negb (Z.land v mask =? 0).
Definition seg_size (v : Z) : Z := Z.land v 255.
Definition body_size (vals : list Z) : nat :=
  Z.to_nat (fold_right (λ v n, seg_size v + n) 0 vals).

Definition ogg_stream_init (serial : Z) : option ogg_stream_state :=
  Some {| body_data := []; lacing_vals := []; granule_vals := [];
          lacing_packet := 0; os_e_o_s := false; os_b_o_s := false;
          serialno := serial; pageno := 0; os_packetno := 0;
          os_granulepos := 0 |}.

(** Storage never runs out here, so the check always passes. *)
Definition ogg_stream_check (os : ogg_stream_state) : bool := false.

(** The segments of a continued packet whose start was lost: skipped up
    to and with the first one shorter than 255. *)
Fixpoint skip_segments (lacing : list Z) (body : list byte) : list Z * list byte :=
  match lacing with
  | [] => ([], body)
  | val :: lacing' =>
      let body' := drop (Z.to_nat val) body in
      if val <? 255 then (lacing', body') else skip_segments lacing' body'
  end.

(** The loop that stores the lacing values of a page: the first one is
    flagged on a first page, [saved] is the index of the last segment
    that ends a packet. *)
Fixpoint store_segments (lacing : list Z) (bos : bool)
    (vals granules : list Z) (lp : nat) (saved : option nat)
    : list Z * list Z * nat * option nat :=
  match lacing with
  | [] => (vals, granules, lp, saved)
  | val :: lacing' =>
      let v := if bos then Z.lor val 256 else val in
      let saved := if val <? 255 then Some (length vals) else saved in
      let vals := vals ++ [v] in
      let lp := if val <? 255 then length vals else lp in
      store_segments lacing' false vals (granules ++ [-1]) lp saved
  end.

Definition ogg_stream_pagein (os : ogg_stream_state) (og : ogg_page)
    : option ogg_stream_state :=
  if negb (pg_serialno og =? serialno os) then None
  else if 0 <? pg_version og then None
  else
    (* are we in sequence? *)
    let '(vals, granules, body, lp) :=
      if pg_pageno og =? pageno os then
        (lacing_vals os, granule_vals os, body_data os, lacing_packet os)
      else
        let partial := body_size (drop (lacing_packet os) (lacing_vals os)) in
        let vals := take (lacing_packet os) (lacing_vals os) in
        let granules := take (lacing_packet os) (granule_vals os) in
        let body := take (length (body_data os) - partial) (body_data os) in
        if pageno os =? -1 then (vals, granules, body, lacing_packet os)
        else (vals ++ [1024], granules ++ [-1], body, S (lacing_packet os)) in
    (* a continued packet page? *)
    let lost :=
      pg_continued og &&
      match last vals with
      | None => true
      | Some v => (seg_size v <? 255) || (v =? 1024)
      end in
    let '(lacing, page_body) :=
      if lost then skip_segments (pg_lacing og) (pg_body og)
      else (pg_lacing og, pg_body og) in
    let bos := if lost then false else pg_bos og in
    let '(vals, granules, lp, saved) :=
      store_segments lacing bos vals granules lp None in
    let granules :=
      match saved with
      | Some i => <[i := pg_granulepos og]> granules
      | None => granules
      end in
    let vals :=
      if pg_eos og then
        match last vals with
        | Some v => <[pred (length vals) := Z.lor v 512]> vals
        | None => vals
        end
      else vals in
    Some {| body_data := body ++ page_body;
            lacing_vals := vals; granule_vals := granules;
            lacing_packet := lp;
            os_e_o_s := os_e_o_s os || pg_eos og;
            os_b_o_s := os_b_o_s os;
            serialno := serialno os; pageno := pg_pageno og + 1;
            os_packetno := os_packetno os;
            os_granulepos := os_granulepos os |}.

(** The segments of the packet that starts with a segment of size
    [size]: how many more segments, how many more bytes, and whether one
    of them carries the end-of-stream flag. *)
Fixpoint gather (size : Z) (rest : list Z) : nat * Z * bool :=
  if size =? 255 then
    match rest with
    | [] => (O, 0, false)
    | val :: rest' =>
        let '(n, bytes, eos) := gather (seg_size val) rest' in
        (S n, seg_size val + bytes, flag 512 val || eos)
    end
  else (O, 0, false).

Definition ogg_stream_packetout (os : ogg_stream_state)
    : packetout_result * ogg_stream_state :=
  match lacing_packet os, lacing_vals os with
  | S lp, v :: rest =>
      if flag 1024 v then
        (po_hole,
         {| body_data := body_data os;
            lacing_vals := rest; granule_vals := drop 1 (granule_vals os);
            lacing_packet := lp;
            os_e_o_s := os_e_o_s os; os_b_o_s := os_b_o_s os;
            serialno := serialno os; pageno := pageno os;
            os_packetno := os_packetno os + 1;
            os_granulepos := os_granulepos os |})
      else
        let '(n, more, eos) := gather (seg_size v) rest in
        let bytes := Z.to_nat (seg_size v + more) in
        (po_packet
           {| packet := take bytes (body_data os);
              b_o_s := flag 256 v;
              e_o_s := flag 512 v || eos;
              granulepos := default (-1) (granule_vals os !! n);
              packetno := os_packetno os |},
         {| body_data := drop bytes (body_data os);
            lacing_vals := drop n rest;
            granule_vals := drop (S n) (granule_vals os);
            lacing_packet := lp - n;
            os_e_o_s := os_e_o_s os; os_b_o_s := os_b_o_s os;
            serialno := serialno os; pageno := pageno os;
            os_packetno := os_packetno os + 1;
            os_granulepos := os_granulepos os |})
  | _, _ => (po_none, os)
  end.

Definition ogg_stream_packetin (os : ogg_stream_state) (op : ogg_packet)
    : option ogg_stream_state :=
  let bytes := Z.of_nat (length (packet op)) in
  let full := Z.to_nat (bytes / 255) in
  let vals := replicate full 255 ++ [bytes mod 255] in
  let vals :=
    match vals with
    | v :: vals' => Z.lor v 256 :: vals'
    | [] => []
    end in
  Some {| body_data := body_data os ++ packet op;
          lacing_vals := lacing_vals os ++ vals;
          granule_vals :=
            granule_vals os ++ replicate full (os_granulepos os) ++ [granulepos op];
          lacing_packet := lacing_packet os;
          os_e_o_s := os_e_o_s os || e_o_s op;
          os_b_o_s := os_b_o_s os;
          serialno := serialno os; pageno := pageno os;
          os_packetno := os_packetno os + 1;
          os_granulepos := granulepos op |}.

(** How many segments the first page takes: up to and with the first
    one that ends a packet. *)
Fixpoint first_packet_segments (vals : list Z) : nat :=
  match vals with
  | [] => O
  | v :: vals' => if seg_size v <? 255 then 1%nat else S (first_packet_segments vals')
  end.

(** The loop of [ogg_stream_flush_i] for a later page, with [nfill] at
    4096: the number of segments taken and the granule position. *)
Fixpoint later_segments (vals granules : list Z) (acc : Z)
    (packets_done packet_just_done : nat) (granule_pos : Z) : nat * Z :=
  match vals with
  | [] => (O, granule_pos)
  | v :: vals' =>
      if (4096 <? acc) && (4 <=? packet_just_done)%nat then (O, granule_pos)
      else
        let acc := acc + seg_size v in
        let '(n, g) :=
          if seg_size v <? 255 then
            later_segments vals' (drop 1 granules) acc (S packets_done)
              (S packets_done) (default (-1) (head granules))
          else
            later_segments vals' (drop 1 granules) acc packets_done O granule_pos in
        (S n, g)
  end.

(** [ogg_stream_flush]: [ogg_stream_flush_i] with [force] set. *)
Definition ogg_stream_flush (os : ogg_stream_state)
    : option ogg_page * ogg_stream_state :=
  let window := take 255 (lacing_vals os) in
  match window with
  | [] => (None, os)
  | v0 :: _ =>
      let '(vals, granule_pos) :=
        if os_b_o_s os then
          later_segments window (granule_vals os) 0 O O (-1)
        else (first_packet_segments window, 0) in
      let table := seg_size <$> take vals (lacing_vals os) in
      let bytes := body_size table in
      (Some {| pg_version := 0;
               pg_continued := negb (flag 256 v0);
               pg_bos := negb (os_b_o_s os);
               pg_eos := os_e_o_s os && (length (lacing_vals os) =? vals)%nat;
               pg_granulepos := granule_pos;
               pg_serialno := serialno os;
               pg_pageno := if pageno os =? -1 then 0 else pageno os;
               pg_lacing := table;
               pg_body := take bytes (body_data os) |},
       {| body_data := drop bytes (body_data os);
          lacing_vals := drop vals (lacing_vals os);
          granule_vals := drop vals (granule_vals os);
          lacing_packet := lacing_packet os;
          os_e_o_s := os_e_o_s os; os_b_o_s := true;
          serialno := serialno os;
          pageno := (if pageno os =? -1 then 0 else pageno os) + 1;
          os_packetno := os_packetno os;
          os_granulepos := os_granulepos os |})
  end.

End framing.

(** libogg's functions meet the contract of [Libogg]; the buffered data is
    measured by the number of lacing values. *)
#[global, refine] Instance framing_libogg : Libogg framing.ogg_stream_state := {
  ogg_stream_init := λ _, framing.ogg_stream_init;
  ogg_stream_check := framing.ogg_stream_check;
  ogg_stream_pagein := framing.ogg_stream_pagein;
  ogg_stream_packetout := framing.ogg_stream_packetout;
  ogg_stream_packetin := framing.ogg_stream_packetin;
  ogg_stream_flush := framing.ogg_stream_flush;
  stream_serialno := framing.serialno;
  stream_pending := λ os, length (framing.lacing_vals os);
}.
Proof.
  - intros t n os [= <-]. reflexivity.
  - intros os og os'. unfold framing.ogg_stream_pagein.
    destruct (pg_serialno og =? framing.serialno os) eqn:Hs; simpl; [|discriminate].
    destruct (0 <? pg_version og); [discriminate|].
    repeat match goal with
           | |- context [let '(_, _) := ?x in _] => destruct x
           end.
    intros [= <-]. simpl. split; [lia | reflexivity].
  - intros os r os'. unfold framing.ogg_stream_packetout.
    destruct (framing.lacing_packet os); [intros [= <- <-]; reflexivity|].
    destruct (framing.lacing_vals os) as [|v rest]; [intros [= <- <-]; reflexivity|].
    destruct (framing.flag 1024 v); [intros [= <- <-]; reflexivity|].
    destruct (framing.gather _ rest) as [[k more] eos].
    intros [= <- <-]. reflexivity.
  - intros os op os'. unfold framing.ogg_stream_packetout.
    destruct (framing.lacing_packet os); [discriminate|].
    destruct (framing.lacing_vals os) as [|v rest] eqn:Hvals; [discriminate|].
    destruct (framing.flag 1024 v); [discriminate|].
    assert (∀ rest size, (fst (fst (framing.gather size rest)) ≤ length rest)%nat) as Hle.
    { clear. induction rest as [|val rest IH]; intros size; simpl.
      - destruct (size =? 255); simpl; lia.
      - destruct (size =? 255); simpl; [|lia].
        specialize (IH (framing.seg_size val)).
        destruct (framing.gather (framing.seg_size val) rest) as [[n bytes] eos].
        simpl in *. lia. }
    specialize (Hle rest (framing.seg_size v)).
    destruct (framing.gather _ rest) as [[k more] eos].
    intros [= <- <-]. simpl in *. rewrite length_drop. lia.
Defined.

(** ** The vocabulary of the statements *)

(** Every length of the block fits the 32-bit fields of the packet. *)
Definition fits32 (tags : ot.opus_tags) : Prop :=
  strlen (ot.vendor tags) < 2 ^ 32 ∧
  Z.of_nat (length (ot.comments tags)) < 2 ^ 32 ∧
  Forall (λ c, strlen c < 2 ^ 32) (ot.comments tags).

(** The edits as section 4.4 of the specification words them: (a) clear
    the list, or else drop every entry whose key matches one of the names
    to delete; (b) replace the list by the supplied one; (c) append the
    new comments in their order. *)
Definition edits_in_order (e : env) (opt : options) (cs : list string) : list string :=
  let cs :=
    if delete_all opt then []
    else List.filter
           (λ c, negb (existsb (λ name, ot.key_matches name c) (to_delete opt))) cs in
  let cs := if set_all opt then env_read_comments e else cs in
  cs ++ to_add opt.

(** The comment [c] is [k=v] with no [=] in [k], and [k] is [name] up to
    the case of letters. *)
Definition has_key (name c : string) : Prop :=
  ∃ k v, c = String.append k (String "="%char v)
         ∧ ¬ In "="%char (list_ascii_of_string k)
         ∧ ot.lower k = ot.lower name.

Definition no_edits (opt : options) : Prop :=
  delete_all opt = false ∧ to_delete opt = [] ∧ set_all opt = false ∧ to_add opt = [].

(** No call of the trace has failed. *)
Definition clean (tr : list call) : bool := forallb (λ c, negb (failed c)) tr.

(** A file was opened for writing. *)
Definition opens_output (c : call) : bool :=
  match c with
  | c_fopen _ mode true => String.eqb mode "w"
  | _ => false
  end.

Definition unopened (tr : list call) : bool := forallb (λ c, negb (opens_output c)) tr.

(** The calls [run] makes before its loop. *)
Definition setup_call (c : call) : bool :=
  match c with
  | c_same_file _ _ _ | c_fopen _ _ _ | c_access _ _ | c_fclose _ | c_stderr _ => true
  | _ => false
  end.

(** The calls the loop of [run] can make: with a writer ([w]) it writes,
    submits and flushes, without one it prints. *)
Definition loop_call (w : bool) (c : call) : bool :=
  match c with
  | c_read_page _ | c_stream_init _ _ | c_stream_pagein _ _
  | c_stream_packetout _ | c_stream_check _
  | c_validate_identification_header _ | c_process_tags _ => true
  | c_write_page _ _ | c_stream_packetin _ _ | c_stream_flush _ => w
  | c_print_comments _ => negb w
  | _ => false
  end.

(** The calls the inner loop can make. *)
Definition inner_call (w : bool) (c : call) : bool :=
  match c with
  | c_stream_packetout _ | c_validate_identification_header _ | c_process_tags _ => true
  | c_stream_packetin _ _ => w
  | c_print_comments _ => negb w
  | _ => false
  end.

(** The calls [run] makes after its loop. *)
Definition finish_call (c : call) : bool :=
  match c with
  | c_fclose _ | c_stderr _ | c_remove _ | c_rename _ _ _ => true
  | _ => false
  end.

Definition writing (wfile : option handle) : bool :=
  match wfile with Some _ => true | None => false end.

(** Calls that are no page read, write, flush or feed. *)
Definition quiet (c : call) : bool :=
  match c with
  | c_read_page _ | c_write_page _ _ | c_stream_flush _ | c_stream_pagein _ _ => false
  | _ => true
  end.

(** Calls other than a page read. *)
Definition readless (c : call) : bool :=
  match c with c_read_page (page_read _) => false | _ => true end.

(** Calls that neither read a page nor feed one to the decoder. *)
Definition calm (c : call) : bool :=
  match c with
  | c_read_page (page_read _) | c_stream_pagein _ _ => false
  | _ => true
  end.

(** Calls other than a page taken by the decoder. *)
Definition unfed (c : call) : bool :=
  match c with c_stream_pagein _ true => false | _ => true end.

(** Calls that hand no packet out and print nothing. *)
Definition mute (c : call) : bool :=
  match c with
  | c_stream_packetout (po_packet _) | c_print_comments _ => false
  | _ => true
  end.

(** Pages read, [write_page] calls, pages written, flushes, pages fed. *)
Record tally := {
  t_read : nat;
  t_write : nat;
  t_written : nat;
  t_flush : nat;
  t_fed : nat;
}.

Definition tally_of (tr : list call) : tally :=
  {| t_read := length (pages_read tr); t_write := write_calls tr;
     t_written := length (pages_written tr); t_flush := flush_calls tr;
     t_fed := header_pages tr |}.

Definition tally_add (a b : tally) : tally :=
  {| t_read := t_read a + t_read b; t_write := t_write a + t_write b;
     t_written := t_written a + t_written b; t_flush := t_flush a + t_flush b;
     t_fed := t_fed a + t_fed b |}.

(** Every page read was answered by one [write_page] that wrote it, every
    page fed by one flush. *)
Definition even (t : tally) : Prop :=
  t_write t = t_read t ∧ t_written t = t_read t ∧ t_flush t = t_fed t.

Definition bounded (t : tally) : Prop :=
  (t_write t ≤ t_read t ∧ t_written t ≤ t_write t ∧ t_flush t ≤ t_fed t)%nat.

(** Every page read before two packets were seen has the serial number
    [s0]. *)
Definition pure (s0 : Z) (tr : list call) : Prop :=
  ∀ tr1 og tr2,
    tr = tr1 ++ c_read_page (page_read og) :: tr2 →
    (packets_seen tr1 < 2)%nat → pg_serialno og = s0.

(** Every page the decoder took has the serial number [s0]. *)
Definition fed_ok (s0 : Z) (tr : list call) : Prop :=
  ∀ og, In (c_stream_pagein og true) tr → pg_serialno og = s0.

(** What was printed: nothing, or the comments of the second packet
    after the edits. *)
Definition shown (e : env) (opt : options) (tr : list call) : Prop :=
  printed tr = [] ∨
  ∃ op1 op2 tags,
    packets_out tr = [op1; op2]
    ∧ ot.parse_tags (packet op2) = Some tags
    ∧ printed tr = [ot.comments (edit_tags e opt tags)].





(** Only the stream of the first page is taken in, and a page of another
    stream, read before two packets were seen, ends the run. *)
Definition one_stream (r : result) : Prop :=
  ∀ p0 rest,
    pages_read (r_trace r) = p0 :: rest →
    (∀ og, In (c_stream_pagein og true) (r_trace r) → pg_serialno og = pg_serialno p0)
    ∧ ∀ tr1 og tr2,
        r_trace r = tr1 ++ c_read_page (page_read og) :: tr2 →
        (packets_seen tr1 < 2)%nat → pg_serialno og ≠ pg_serialno p0 →
        exit_status r = EXIT_FAILURE
        ∧ hd_error tr2 = Some (c_stream_pagein og false)
        ∧ In (c_stderr "ogg_stream_pagein: invalid page") tr2
        ∧ pages_read tr2 = [] ∧ write_calls tr2 = 0%nat.

Section Vocabulary.
Context {stream : Type} `{!Libogg stream}.

(** The error variable is set exactly when a call has failed. *)
Definition accounted (st : state stream) : Prop :=
  error st = None ↔ clean (trace st) = true.

(** The packet counter counts the packets taken out of the reader. *)
Definition counted (st : state stream) : Prop :=
  packet_count st = Z.of_nat (packets_seen (trace st)).

Definition sound_state (st : state stream) : Prop := accounted st ∧ counted st.

(** Before the first page the counter is -1 and no packet was seen. *)
Definition tallied (st : state stream) : Prop :=
  accounted st ∧
  (counted st ∨ (packet_count st = -1 ∧ packets_seen (trace st) = 0%nat)).

(** The trace of [st'] is the trace of [st] and then calls of kind [P]. *)
Definition grows_by (P : call → bool) (st st' : state stream) : Prop :=
  ∃ tr, trace st' = trace st ++ tr ∧ forallb P tr = true.

(** The data buffered in the reader. *)
Definition pending (st : state stream) : nat :=
  match reader_stream st with
  | Some rs => stream_pending rs
  | None => O
  end.

(** The reader decodes the stream [s0]. *)
Definition tuned (s0 : Z) (st : state stream) : Prop :=
  ∃ rs, reader_stream st = Some rs ∧ stream_serialno rs = s0.

(** What holds between two rounds of the loop. *)
Definition in_stream (s0 : Z) (st : state stream) : Prop :=
  tuned s0 st ∧ sound_state st ∧ pure s0 (trace st) ∧ fed_ok s0 (trace st).

(** What holds when the loop is left: a page of another stream, read
    before two packets were seen, was the last page read, and the decoder
    refused it. *)
Definition refused (s0 : Z) (st : state stream) : Prop :=
  fed_ok s0 (trace st) ∧
  ∀ tr1 og tr2,
    trace st = tr1 ++ c_read_page (page_read og) :: tr2 →
    (packets_seen tr1 < 2)%nat → pg_serialno og ≠ s0 →
    tr2 = [c_stream_pagein og false]
    ∧ error st = Some "ogg_stream_pagein: invalid page".

(** Before the comment header: nothing printed, and the counter counts
    the packets. *)
Definition unshown (st : state stream) : Prop :=
  packet_count st < 2 ∧ printed (trace st) = []
  ∧ length (packets_out (trace st)) = Z.to_nat (packet_count st).

End Vocabulary.

(** ** Streams to run the program on *)

(** An identification header: version 1, two channels, 48 kHz. *)
Definition ex_head : list byte :=
  list_byte_of_string "OpusHead"
  ++ [Byte.x01; Byte.x02; Byte.x00; Byte.x00; Byte.x80; Byte.xbb; Byte.x00; Byte.x00;
      Byte.x00; Byte.x00; Byte.x00].

Definition ex_tags : ot.opus_tags :=
  {| ot.vendor := "libopus"; ot.comments := ["ARTIST=A"; "ARTIST=B"; "TITLE=T"] |}.

(** Tags whose packet is longer than one segment. *)
Definition ex_long_tags : ot.opus_tags :=
  {| ot.vendor := "libopus";
     ot.comments := [string_of_list_byte (list_byte_of_string "TITLE="
                                          ++ replicate 260 Byte.x61)] |}.

Definition ex_page (serial : Z) (continued bos : bool) (pageno : Z)
    (lacing : list Z) (body : list byte) : ogg_page :=
  {| pg_version := 0; pg_continued := continued; pg_bos := bos; pg_eos := false;
     pg_granulepos := 0; pg_serialno := serial; pg_pageno := pageno;
     pg_lacing := lacing; pg_body := body |}.

Definition ex_audio (pageno : Z) : ogg_page :=
  {| pg_version := 0; pg_continued := false; pg_bos := false; pg_eos := false;
     pg_granulepos := 960; pg_serialno := 7; pg_pageno := pageno;
     pg_lacing := [3]; pg_body := [Byte.xfc; Byte.xff; Byte.xfe] |}.

Definition ex_first : ogg_page := ex_page 7 false true 0 [19] ex_head.

Definition ex_comment_page (tags : ot.opus_tags) : ogg_page :=
  ex_page 7 false false 1 [Z.of_nat (length (ot.render_tags_bytes tags))]
    (ot.render_tags_bytes tags).

(** Each header on a page of its own, then audio. *)
Definition ex_stream : list ogg_page := [ex_first; ex_comment_page ex_tags; ex_audio 2].

(** The comment header on two pages: 255 bytes, then the rest. *)
Definition ex_split_stream : list ogg_page :=
  [ex_first;
   ex_page 7 false false 1 [255] (take 255 (ot.render_tags_bytes ex_long_tags));
   ex_page 7 true false 2 [38] (drop 255 (ot.render_tags_bytes ex_long_tags));
   ex_audio 3].

(** A page of another stream after the first page. *)
Definition ex_foreign : ogg_page := ex_page 9 false true 0 [19] ex_head.

Definition ex_mixed_stream : list ogg_page :=
  [ex_first; ex_foreign; ex_comment_page ex_tags; ex_audio 2].

(** A stream that ends after the identification header. *)
Definition ex_short_stream : list ogg_page := [ex_first].


(** A world with the input at [in.opus], to which [link.opus] is a link;
    every write succeeds. *)
Definition ex_env (pages : list ogg_page) (junk : ogg_page) : env :=
  {| env_realpath := λ p, if String.eqb p "link.opus" then Some "in.opus" else Some p;
     env_fs := {["in.opus"]};
     env_fopen_r := λ p,
       if String.eqb p "in.opus"
       then Some {| in_pages := pages; in_end := at_end_of_file |}
       else None;
     env_stdin := {| in_pages := []; in_end := at_end_of_file |};
     env_fopen_w := λ _, true;
     env_fwrite_ok := λ _, true;
     env_rename_ok := λ _ _, true;
     env_read_comments := [];
     env_indeterminate := λ _, junk |}.

Definition ex_opt (out : string) (added : list string) : options :=
  {| path_in := "in.opus"; path_out := out; inplace := None; overwrite := true;
     delete_all := false; to_delete := []; set_all := false; to_add := added |}.

Definition ex_run (pages : list ogg_page) (junk : ogg_page) (out : string)
    (added : list string) : result :=
  run (stream := framing.ogg_stream_state) (ex_env pages junk) (ex_opt out added).

(** ** More vocabulary: the paths through [run] and its loop *)

(** ** The ways through [run], call by call *)

(** The comparison of the paths when it finds them different. *)
Definition compared (opt : options) : list call :=
  if String.eqb (path_out opt) "" then []
  else [c_same_file (path_in opt) (path_out opt) false].

(** [reader.file] and what opening it gives. *)
Definition input_handle (opt : options) : handle :=
  if String.eqb (path_in opt) "-" then h_stdin else h_file (path_in opt).

Definition opened_input (e : env) (opt : options) : option input :=
  if String.eqb (path_in opt) "-" then Some (env_stdin e)
  else env_fopen_r e (path_in opt).

Definition input_opened (opt : options) : list call :=
  if String.eqb (path_in opt) "-" then [] else [c_fopen (path_in opt) "r" true].

(** The output is looked for before it is opened: line 85. *)
Definition guarded (opt : options) : bool :=
  negb (overwrite opt) && negb (bool_decide (is_Some (inplace opt))).

Definition checked (opt : options) : list call :=
  if guarded opt then [c_access (output_path opt) false] else [].

(** The calls up to the loop when the output is a file. *)
Definition prelude (opt : options) : list call :=
  compared opt ++ input_opened opt ++ checked opt.

Definition exists_message (p : string) : string :=
  String.append "'" (String.append p "' already exists (use -y to overwrite)").

(** The files closed after the loop, lines 183 to 185. *)
Definition closes (rfile : handle) (wfile : option handle) : list call :=
  c_fclose rfile :: match wfile with Some f => [c_fclose f] | None => [] end.

Section FinalError.
Context {stream : Type} `{!Libogg stream}.

(** [error] after line 187. *)
Definition final_error (st : state stream) : option string :=
  match error st with
  | None => if packet_count st <? 2 then Some "opustags: invalid file" else None
  | Some msg => Some msg
  end.

End FinalError.

(** Calls that neither remove nor rename a file. *)
Definition lasting (c : call) : bool :=
  match c with c_remove _ | c_rename _ _ _ => false | _ => true end.

(** Calls that write nothing to the standard error. *)
Definition silent (c : call) : bool :=
  match c with c_stderr _ => false | _ => true end.

(** How the loop of [run] is entered: the output file [wfile], the files
    that exist then, and the calls made so far. *)
Definition entered (e : env) (opt : options) (wfile : option handle)
    (fs : gset string) (tr : list call) : Prop :=
  (output_path opt = "" ∧ wfile = None ∧ fs = env_fs e
   ∧ tr = compared opt ++ input_opened opt)
  ∨ (output_path opt = "-" ∧ wfile = Some h_stdout ∧ fs = env_fs e
     ∧ tr = compared opt ++ input_opened opt)
  ∨ (output_path opt ≠ "" ∧ output_path opt ≠ "-"
     ∧ wfile = Some (h_file (output_path opt))
     ∧ fs = env_fs e ∪ {[output_path opt]}
     ∧ tr = prelude opt ++ [c_fopen (output_path opt) "w" true]).

(** The calls on the decoder and its set-up outside the inner loop. *)
Definition header_call (c : call) : bool :=
  match c with
  | c_stream_init _ _ | c_stream_pagein _ _ | c_stream_check _ => true
  | _ => false
  end.

(** The calls of a round of the loop outside its inner loop. *)
Definition outer_call (w : bool) (c : call) : bool :=
  match c with
  | c_stream_init _ _ | c_stream_pagein _ _ | c_stream_check _ => true
  | c_write_page _ _ | c_stream_flush _ => w
  | _ => false
  end.

(** The calls of a round of the loop after its page was read. *)
Definition step_call (w : bool) (c : call) : bool := outer_call w c || inner_call w c.

(** [error] after a read that delivers no page, lines 105 to 113. *)
Definition end_error (en : read_end) : option string :=
  match en with
  | at_end_of_file => None
  | at_standard_error msg => Some msg
  | at_error => Some "error reading the next ogg page"
  end.

(** Once two packets were seen, a page is read only with an output, and
    the next call writes it. *)
Definition orderly (w : bool) (tr : list call) : Prop :=
  ∀ tr1 og tr2,
    tr = tr1 ++ c_read_page (page_read og) :: tr2 → (2 ≤ packets_seen tr1)%nat →
    w = true ∧ ∃ written tr3, tr2 = c_write_page og written :: tr3.

Definition is_validation (c : call) : bool :=
  match c with c_validate_identification_header _ => true | _ => false end.

Definition is_tags_call (c : call) : bool :=
  match c with c_process_tags _ => true | _ => false end.

(** The calls of [ot::validate_identification_header] and of [process_tags]. *)
Definition validations (tr : list call) : list call := List.filter is_validation tr.
Definition tags_calls (tr : list call) : list call := List.filter is_tags_call tr.

(** Calls other than those two. *)
Definition plain (c : call) : bool := negb (is_validation c) && negb (is_tags_call c).

Section Headed.
Context {stream : Type} `{!Libogg stream}.

(** The first packet was validated once it is counted, the second went
    through [process_tags] once it is counted, and neither call was made
    another time. *)
Definition headed (st : state stream) : Prop :=
  length (validations (trace st)) = (if 1 <=? packet_count st then 1%nat else 0%nat)
  ∧ length (tags_calls (trace st)) = (if 2 <=? packet_count st then 1%nat else 0%nat).

End Headed.

(** Calls other than an attempt to read a page. *)
Definition unread (c : call) : bool :=
  match c with c_read_page _ => false | _ => true end.

(** No page is asked for after a call that failed. *)
Definition fail_fast (tr : list call) : Prop :=
  ∀ tr1 c tr2, tr = tr1 ++ c :: tr2 → failed c = true → forallb unread tr2 = true.

(** The local [page] of [run] after [ogg_stream_flush]: the page flushed,
    or what the variable held when nothing was flushed. *)
Definition flushed_page (e : env) (r : option ogg_page) (calls : nat) : ogg_page :=
  match r with Some og => og | None => env_indeterminate e calls end.

(** Every flush is followed by the write of the local [page]. *)
Definition flushes_written (e : env) (tr : list call) : Prop :=
  ∀ tr1 r tr2,
    tr = tr1 ++ c_stream_flush r :: tr2 →
    ∃ written tr3, tr2 = c_write_page (flushed_page e r (length tr1)) written :: tr3.

Definition unflushed (c : call) : bool := negb (is_flush c).

(** The packets the encoder is given for the packets taken out of the
    decoder: each one as it is, but for the second, which is replaced by
    the rendering of its edited tags. *)
Definition relay (e : env) (opt : options) (ops : list ogg_packet) :
    option (list ogg_packet) :=
  match ops with
  | op1 :: op2 :: rest =>
      match ot.parse_tags (packet op2) with
      | Some tags => Some (op1 :: render_tags (edit_tags e opt tags) :: rest)
      | None => None
      end
  | _ => Some ops
  end.

(** As long as no call has failed, the packets submitted are the relay of
    the packets taken out. *)
Definition relayed (e : env) (opt : options) (tr : list call) : Prop :=
  clean tr = true → relay e opt (packets_out tr) = Some (submitted tr).

(** Calls that neither take a packet out nor submit one. *)
Definition unrelayed (c : call) : bool :=
  match c with
  | c_stream_packetout (po_packet _) | c_stream_packetin _ _ => false
  | _ => true
  end.

(** When [process_tags] has returned [ok], something was printed. *)
Definition announced (tr : list call) : Prop :=
  In (c_process_tags ot.ok) tr → printed tr ≠ [].

Definition untagged (c : call) : bool := negb (is_tags_call c).

(** A world with the input at [in.opus] and the files [others]; [writable]
    and [renamable] tell whether a file can be opened for writing and
    renamed; reading ends with [ending]. *)
Definition ex_world (others : gset string) (pages : list ogg_page) (ending : read_end)
    (writable renamable : bool) : env :=
  {| env_realpath := λ p, Some p;
     env_fs := {["in.opus"]} ∪ others;
     env_fopen_r := λ p,
       if String.eqb p "in.opus"
       then Some {| in_pages := pages; in_end := ending |}
       else None;
     env_stdin := {| in_pages := pages; in_end := ending |};
     env_fopen_w := λ _, writable;
     env_fwrite_ok := λ _, true;
     env_rename_ok := λ _ _, renamable;
     env_read_comments := [];
     env_indeterminate := λ _, ex_audio 0 |}.

Definition ex_options (p_in p_out : string) (suffix : option string) (over : bool) :
    options :=
  {| path_in := p_in; path_out := p_out; inplace := suffix; overwrite := over;
     delete_all := false; to_delete := []; set_all := false; to_add := [] |}.

(** * Proofs *)

(** ** The comment codec *)
Lemma Z_of_byte_of_Z z : Z_of_byte (byte_of_Z z) = z mod 256.
Proof.
  unfold Z_of_byte, byte_of_Z.
  assert (0 <= z mod 256 < 256) as Hr by (apply Z.mod_pos_bound; lia).
  destruct (Byte.of_N (Z.to_N (z mod 256))) as [b|] eqn:Hb.
  - apply Byte.to_of_N in Hb. rewrite Hb. lia.
  - apply Byte.of_N_None_iff in Hb. lia.
Qed.

Lemma Z_of_byte_range b : 0 <= Z_of_byte b < 256.
Proof.
  unfold Z_of_byte. pose proof (Byte.to_N_bounded b). lia.
Qed.

Lemma land_255 z : Z.land z 255 = z mod 256.
Proof. change 255 with (Z.ones 8). rewrite Z.land_ones by lia. reflexivity. Qed.

Lemma le32_bytes n :
  0 <= n < 2 ^ 32 →
  Z.lor (n mod 256)
    (Z.lor (Z.shiftl ((Z.shiftr n 8) mod 256) 8)
       (Z.lor (Z.shiftl ((Z.shiftr n 16) mod 256) 16)
              (Z.shiftl ((Z.shiftr n 24) mod 256) 24))) = n.
Proof.
  intros Hn. rewrite <- !land_255. change 255 with (Z.ones 8).
  assert (∀ k i, 0 <= k → 0 <= i →
            Z.testbit (Z.shiftl (Z.land (Z.shiftr n k) (Z.ones 8)) k) i
            = Z.testbit n i && (k <=? i) && (i <? k + 8)) as Hbyte.
  { intros k i Hk Hi. rewrite Z.shiftl_spec by lia.
    destruct (Z_lt_dec i k).
    - rewrite Z.testbit_neg_r by lia.
      replace (k <=? i) with false by (symmetry; apply Z.leb_gt; lia).
      rewrite andb_false_r. reflexivity.
    - rewrite Z.land_spec, Z.shiftr_spec, Z.testbit_ones_nonneg by lia.
      replace (i - k + k) with i by lia.
      replace (k <=? i) with true by (symmetry; apply Z.leb_le; lia).
      rewrite andb_true_r. f_equal.
      destruct (Z.ltb_spec (i - k) 8), (Z.ltb_spec i (k + 8)); lia || reflexivity. }
  apply Z.bits_inj'. intros i Hi.
  rewrite !Z.lor_spec, !Hbyte by lia.
  rewrite Z.land_spec, Z.testbit_ones_nonneg by lia.
  destruct (Z.testbit n i) eqn:Hbit; simpl; [|reflexivity].
  assert (i < 32) as Hlt.
  { destruct (Z_lt_dec i 32) as [|Hge]; [assumption|exfalso].
    assert (n ≠ 0) by (intros ->; rewrite Z.testbit_0_l in Hbit; discriminate).
    rewrite Z.bits_above_log2 in Hbit; [discriminate|lia|].
    assert (Z.log2 n < 32) by (apply Z.log2_lt_pow2; lia). lia. }
  destruct (Z.ltb_spec i 8), (Z.leb_spec 8 i), (Z.ltb_spec i (8 + 8)),
    (Z.leb_spec 16 i), (Z.ltb_spec i (16 + 8)), (Z.leb_spec 24 i),
    (Z.ltb_spec i (24 + 8)); simpl; lia || reflexivity.
Qed.

Lemma read_le32_le32 n rest :
  0 <= n < 2 ^ 32 → read_le32 (le32 n ++ rest) = Some (n, rest).
Proof.
  intros Hn. unfold le32, read_le32. simpl.
  rewrite !Z_of_byte_of_Z, !land_255, !Z.mod_mod by lia.
  rewrite le32_bytes by lia. reflexivity.
Qed.

Lemma read_le32_range data n rest :
  read_le32 data = Some (n, rest) → 0 <= n < 2 ^ 32.
Proof.
  unfold read_le32. destruct data as [|b0 [|b1 [|b2 [|b3 data]]]]; try discriminate.
  intros [= <- <-].
  pose proof (Z_of_byte_range b0). pose proof (Z_of_byte_range b1).
  pose proof (Z_of_byte_range b2). pose proof (Z_of_byte_range b3).
  assert (∀ a b, 0 <= a < 2 ^ 32 → 0 <= b < 2 ^ 32 → 0 <= Z.lor a b < 2 ^ 32) as Hlor.
  { intros a b Ha Hb. split; [apply Z.lor_nonneg; lia|].
    destruct (Z.eq_dec (Z.lor a b) 0) as [->|Hz]; [lia|].
    apply Z.log2_lt_pow2; [pose proof (proj2 (Z.lor_nonneg a b)); lia|].
    rewrite Z.log2_lor by lia.
    destruct (Z.eq_dec a 0) as [->|]; destruct (Z.eq_dec b 0) as [->|];
      try (simpl; lia);
      try (apply Z.max_lub_lt; try (apply Z.log2_lt_pow2; lia); simpl; lia). }
  assert (∀ a k, 0 <= a < 256 → 0 <= k <= 24 → 0 <= Z.shiftl a k < 2 ^ 32) as Hsh.
  { intros a k Ha Hk. rewrite Z.shiftl_mul_pow2 by lia. split; [lia|].
    assert (2 ^ k <= 2 ^ 24) by (apply Z.pow_le_mono_r; lia).
    change (2 ^ 32) with (256 * 2 ^ 24). nia. }
  apply Hlor; [lia|]. apply Hlor; [apply Hsh; lia|]. apply Hlor; apply Hsh; lia.
Qed.

Lemma length_list_byte_of_string s :
  length (list_byte_of_string s) = String.length s.
Proof.
  unfold list_byte_of_string. rewrite length_map.
  induction s as [|a s IH]; simpl; [reflexivity|]. rewrite IH. reflexivity.
Qed.

Lemma length_string_of_list_byte l :
  String.length (string_of_list_byte l) = length l.
Proof.
  rewrite <- (list_byte_of_string_of_list_byte l) at 2.
  symmetry. apply length_list_byte_of_string.
Qed.

Lemma read_bytes_app a rest :
  read_bytes (Z.of_nat (length a)) (a ++ rest) = Some (a, rest).
Proof.
  unfold read_bytes. rewrite length_app.
  destruct (Z.ltb_spec (Z.of_nat (length a + length rest)) (Z.of_nat (length a))); [lia|].
  rewrite Nat2Z.id, take_app_length, drop_app_length. reflexivity.
Qed.

Lemma read_bytes_length n data a rest :
  0 <= n → read_bytes n data = Some (a, rest) → Z.of_nat (length a) = n.
Proof.
  unfold read_bytes. intros Hn.
  destruct (Z.ltb_spec (Z.of_nat (length data)) n); [discriminate|].
  intros [= <- <-]. rewrite length_take. lia.
Qed.

Lemma has_magic_app magic rest : ot.has_magic magic (magic ++ rest) = true.
Proof.
  induction magic as [|m magic IH]; simpl; [reflexivity|].
  rewrite IH, andb_true_r. apply Byte.byte_dec_lb. reflexivity.
Qed.

Lemma parse_comments_render cs rest :
  Forall (λ c, strlen c < 2 ^ 32) cs →
  ot.parse_comments (length cs) (concat (map ot.render_comment cs) ++ rest) = Some cs.
Proof.
  induction 1 as [|c cs Hc _ IH]; [reflexivity|].
  cbn [length map concat ot.parse_comments].
  unfold ot.render_comment at 1. rewrite <- !app_assoc.
  rewrite read_le32_le32 by (unfold strlen in *; lia).
  unfold strlen. rewrite <- length_list_byte_of_string, read_bytes_app.
  rewrite IH, string_of_list_byte_of_string. reflexivity.
Qed.

Lemma parse_render tags :
  fits32 tags → ot.parse_tags (ot.render_tags_bytes tags) = Some tags.
Proof.
  intros (Hv & Hn & Hcs). unfold ot.parse_tags, ot.render_tags_bytes.
  rewrite has_magic_app, drop_app_length.
  rewrite read_le32_le32 by (unfold strlen in *; lia).
  unfold strlen at 1. rewrite <- length_list_byte_of_string, read_bytes_app.
  rewrite read_le32_le32 by lia. rewrite Nat2Z.id.
  rewrite <- (app_nil_r (concat _)), parse_comments_render by assumption.
  rewrite string_of_list_byte_of_string. destruct tags; reflexivity.
Qed.

Lemma parse_vendor_length data tags :
  ot.parse_tags data = Some tags → strlen (ot.vendor tags) < 2 ^ 32.
Proof.
  unfold ot.parse_tags. destruct (ot.has_magic _ _); [|discriminate].
  destruct (read_le32 _) as [[vl data1]|] eqn:Hvl; [|discriminate].
  destruct (read_bytes vl data1) as [[v data2]|] eqn:Hv; [|discriminate].
  destruct (read_le32 data2) as [[count data3]|]; [|discriminate].
  destruct (ot.parse_comments _ _); [|discriminate].
  intros [= <-]. simpl. apply read_le32_range in Hvl.
  apply read_bytes_length in Hv; [|lia].
  unfold strlen. rewrite length_string_of_list_byte. lia.
Qed.

Lemma parse_render_vendor tags tags' :
  strlen (ot.vendor tags) < 2 ^ 32 →
  ot.parse_tags (ot.render_tags_bytes tags) = Some tags' →
  ot.vendor tags' = ot.vendor tags.
Proof.
  intros Hv. unfold ot.parse_tags, ot.render_tags_bytes.
  rewrite has_magic_app, drop_app_length.
  rewrite read_le32_le32 by (unfold strlen in *; lia).
  unfold strlen at 1. rewrite <- length_list_byte_of_string, read_bytes_app.
  destruct (read_le32 _) as [[count data3]|]; [|discriminate].
  destruct (ot.parse_comments _ _); [|discriminate].
  intros [= <-]. simpl. apply string_of_list_byte_of_string.
Qed.

Lemma key_of_append k v :
  ¬ In "="%char (list_ascii_of_string k) →
  ot.key_of (String.append k (String "="%char v)) = Some k.
Proof.
  induction k as [|a k IH]; simpl; intros Hnot; [reflexivity|].
  destruct (Ascii.eqb_spec a "="%char) as [->|Hne]; [tauto|].
  rewrite IH by tauto. reflexivity.
Qed.

Lemma key_of_split c k :
  ot.key_of c = Some k →
  ∃ v, c = String.append k (String "="%char v) ∧ ¬ In "="%char (list_ascii_of_string k).
Proof.
  revert k. induction c as [|a c IH]; intros k; simpl; [discriminate|].
  destruct (Ascii.eqb_spec a "="%char) as [->|Hne].
  - intros [= <-]. exists c. simpl. split; [reflexivity|tauto].
  - destruct (ot.key_of c) as [k'|]; [|discriminate].
    intros [= <-]. destruct (IH k' eq_refl) as (v & -> & Hnot).
    exists v. simpl. split; [reflexivity|]. intros [?|?]; [congruence|tauto].
Qed.

Lemma key_of_spec c k :
  ot.key_of c = Some k ↔
  ∃ v, c = String.append k (String "="%char v) ∧ ¬ In "="%char (list_ascii_of_string k).
Proof.
  split; [apply key_of_split|].
  intros (v & -> & Hnot). apply key_of_append. assumption.
Qed.

Lemma key_matches_spec name c : ot.key_matches name c = true ↔ has_key name c.
Proof.
  unfold ot.key_matches, has_key. destruct (ot.key_of c) as [k|] eqn:Hk.
  - apply key_of_spec in Hk as (v & -> & Hnot). rewrite String.eqb_eq. split.
    + intros Heq. exists k, v. auto.
    + intros (k' & v' & Hc & Hnot' & Heq).
      assert (ot.key_of (String.append k (String "="%char v)) = Some k) as H1
        by (apply key_of_spec; eauto).
      assert (ot.key_of (String.append k (String "="%char v)) = Some k') as H2
        by (rewrite Hc; apply key_of_spec; eauto).
      congruence.
  - split; [discriminate|]. intros (k & v & Hc & Hnot & _).
    assert (ot.key_of c = Some k) by (apply key_of_spec; eauto). congruence.
Qed.

Lemma fold_delete_tags names tags :
  fold_left ot.delete_tags names tags =
  ot.set_comments tags
    (List.filter (λ c, negb (existsb (λ name, ot.key_matches name c) names))
       (ot.comments tags)).
Proof.
  revert tags. induction names as [|name names IH]; intros tags; simpl.
  - unfold ot.set_comments. destruct tags as [v cs]; simpl. f_equal.
    induction cs as [|c cs IHcs]; simpl; [reflexivity|]. f_equal. assumption.
  - rewrite IH. unfold ot.delete_tags, ot.set_comments. simpl. f_equal.
    induction (ot.comments tags) as [|c cs IHcs]; simpl; [reflexivity|].
    destruct (ot.key_matches name c); simpl; [assumption|].
    destruct (existsb _ names); simpl; [assumption|]. f_equal. assumption.
Qed.

Lemma fold_add_comments added tags :
  fold_left (λ t comment, ot.set_comments t (ot.comments t ++ [comment])) added tags =
  ot.set_comments tags (ot.comments tags ++ added).
Proof.
  revert tags. induction added as [|c added IH]; intros tags; simpl.
  - rewrite app_nil_r. destruct tags; reflexivity.
  - rewrite IH. unfold ot.set_comments. simpl. rewrite <- app_assoc. reflexivity.
Qed.

Lemma edit_tags_spec e opt tags :
  edit_tags e opt tags =
  {| ot.vendor := ot.vendor tags;
     ot.comments := edits_in_order e opt (ot.comments tags) |}.
Proof.
  unfold edit_tags, edits_in_order. rewrite fold_add_comments, fold_delete_tags.
  destruct (delete_all opt), (set_all opt); reflexivity.
Qed.

Lemma filter_sublist {A} (f : A → bool) l : sublist (List.filter f l) l.
Proof.
  induction l as [|x l IH]; simpl; [constructor|].
  destruct (f x); [apply sublist_skip|apply sublist_cons]; assumption.
Qed.

Lemma filter_split_length {A} (f : A → bool) l :
  length l = (length (List.filter (λ x, negb (f x)) l) + length (List.filter f l))%nat.
Proof.
  induction l as [|x l IH]; simpl; [reflexivity|].
  destruct (f x); simpl; lia.
Qed.

Lemma filter_all {A} (f : A → bool) l :
  (∀ x, In x l → f x = true) → List.filter f l = l.
Proof.
  induction l as [|x l IH]; simpl; intros Hall; [reflexivity|].
  rewrite (Hall x) by auto. f_equal. apply IH. auto.
Qed.

(** ** Traces *)
Lemma failures_nil_clean tr : failures tr = [] ↔ clean tr = true.
Proof.
  unfold failures, clean. induction tr as [|c tr IH]; simpl; [tauto|].
  destruct (failed c); simpl; [split; discriminate|assumption].
Qed.

Lemma clean_snoc tr c : clean (tr ++ [c]) = clean tr && negb (failed c).
Proof. unfold clean. rewrite forallb_app. simpl. rewrite andb_true_r. reflexivity. Qed.

Lemma clean_app tr1 tr2 : clean (tr1 ++ tr2) = clean tr1 && clean tr2.
Proof. apply forallb_app. Qed.


Lemma packets_seen_app tr1 tr2 :
  packets_seen (tr1 ++ tr2) = (packets_seen tr1 + packets_seen tr2)%nat.
Proof. unfold packets_seen. rewrite List.filter_app, length_app. reflexivity. Qed.

Lemma packets_seen_snoc tr c :
  packets_seen (tr ++ [c]) = (packets_seen tr + (if is_packet c then 1 else 0))%nat.
Proof.
  unfold packets_seen. rewrite List.filter_app, length_app. simpl.
  destruct (is_packet c); reflexivity.
Qed.


Lemma unopened_app tr1 tr2 : unopened (tr1 ++ tr2) = unopened tr1 && unopened tr2.
Proof. apply forallb_app. Qed.

Lemma unopened_not_in tr p : unopened tr = true → ¬ In (c_fopen p "w" true) tr.
Proof.
  unfold unopened. rewrite forallb_forall. intros H Hin.
  specialize (H _ Hin). discriminate.
Qed.

Lemma loop_calls_unopened w tr : forallb (loop_call w) tr = true → unopened tr = true.
Proof.
  unfold unopened. rewrite !forallb_forall. intros H c Hin. specialize (H c Hin).
  destruct c; try discriminate; reflexivity.
Qed.

Lemma inner_loop_call w c : inner_call w c = true → loop_call w c = true.
Proof. destruct c; simpl; auto; discriminate. Qed.

Lemma writing_decide wfile : bool_decide (is_Some wfile) = writing wfile.
Proof. destruct wfile; reflexivity. Qed.

Lemma pages_read_app tr1 tr2 : pages_read (tr1 ++ tr2) = pages_read tr1 ++ pages_read tr2.
Proof. apply omap_app. Qed.

Lemma printed_app tr1 tr2 : printed (tr1 ++ tr2) = printed tr1 ++ printed tr2.
Proof. apply omap_app. Qed.

Lemma packets_out_app tr1 tr2 : packets_out (tr1 ++ tr2) = packets_out tr1 ++ packets_out tr2.
Proof. apply omap_app. Qed.

Lemma submitted_app tr1 tr2 : submitted (tr1 ++ tr2) = submitted tr1 ++ submitted tr2.
Proof. apply omap_app. Qed.

Lemma tally_app tr1 tr2 : tally_of (tr1 ++ tr2) = tally_add (tally_of tr1) (tally_of tr2).
Proof.
  unfold tally_of, tally_add, pages_read, pages_written, write_calls, flush_calls,
    header_pages. simpl.
  rewrite !omap_app, !List.filter_app, !length_app. reflexivity.
Qed.

Lemma quiet_tally tr :
  forallb quiet tr = true →
  tally_of tr = {| t_read := 0; t_write := 0; t_written := 0; t_flush := 0; t_fed := 0 |}.
Proof.
  induction tr as [|c tr IH]; [reflexivity|]. simpl. intros H.
  apply andb_prop in H as [Hc Htr]. specialize (IH Htr).
  change (c :: tr) with ([c] ++ tr). rewrite tally_app, IH.
  destruct c; try discriminate; reflexivity.
Qed.

Lemma inner_quiet c : inner_call true c = true → quiet c = true.
Proof. destruct c; simpl; auto. Qed.

Lemma setup_quiet tr : forallb setup_call tr = true → forallb quiet tr = true.
Proof.
  rewrite !forallb_forall. intros H c Hin. specialize (H c Hin).
  destruct c; try discriminate; reflexivity.
Qed.

Lemma setup_no_packets tr : forallb setup_call tr = true → packets_seen tr = 0%nat.
Proof.
  induction tr as [|c tr IH]; [reflexivity|]. simpl. intros H.
  apply andb_prop in H as [Hc Htr]. change (c :: tr) with ([c] ++ tr).
  rewrite packets_seen_app, (IH Htr). destruct c; try discriminate; reflexivity.
Qed.

Lemma calm_readless tr : forallb calm tr = true → forallb readless tr = true.
Proof.
  rewrite !forallb_forall. intros H c Hin. specialize (H c Hin).
  destruct c as [| | | |[]| | | | | | | | | | | | |]; try discriminate; reflexivity.
Qed.

Lemma calm_not_read ta og :
  forallb readless ta = true → ¬ In (c_read_page (page_read og)) ta.
Proof.
  rewrite forallb_forall. intros H Hin. specialize (H _ Hin). discriminate.
Qed.

Lemma calm_not_fed ta og b : forallb calm ta = true → ¬ In (c_stream_pagein og b) ta.
Proof.
  rewrite forallb_forall. intros H Hin. specialize (H _ Hin). discriminate.
Qed.

Lemma calm_unfed tr : forallb calm tr = true → forallb unfed tr = true.
Proof.
  rewrite !forallb_forall. intros H c Hin. specialize (H c Hin).
  destruct c as [| | | |[]| | | | | | | | | | | | |]; try discriminate; reflexivity.
Qed.

Lemma inner_calm w c : inner_call w c = true → calm c = true.
Proof. destruct c; simpl; auto; discriminate. Qed.

Lemma setup_calm c : setup_call c = true → calm c = true.
Proof. destruct c; simpl; auto; discriminate. Qed.

Lemma quiet_calm tr : forallb quiet tr = true → forallb calm tr = true.
Proof.
  rewrite !forallb_forall. intros H c Hin. specialize (H c Hin).
  destruct c; try discriminate; reflexivity.
Qed.

Lemma quiet_no_reads tr : forallb quiet tr = true → pages_read tr = [].
Proof.
  intros H. apply quiet_tally in H. apply (f_equal t_read) in H. simpl in H.
  destruct (pages_read tr); [reflexivity|discriminate].
Qed.

Lemma quiet_no_writes tr : forallb quiet tr = true → write_calls tr = 0%nat.
Proof. intros H. apply quiet_tally in H. apply (f_equal t_write) in H. exact H. Qed.

Lemma calm_split tr ta tr1 og tr2 :
  forallb readless ta = true →
  tr ++ ta = tr1 ++ c_read_page (page_read og) :: tr2 →
  ∃ m, tr = tr1 ++ c_read_page (page_read og) :: m ∧ tr2 = m ++ ta.
Proof.
  intros Hcalm Heq. apply app_eq_app in Heq as [l [[-> Heq]|[-> Heq]]].
  - destruct l as [|x l]; simpl in Heq.
    + exfalso. apply (calm_not_read ta og Hcalm). rewrite <- Heq. simpl. auto.
    + injection Heq as <- ->. exists l. auto.
  - exfalso. apply (calm_not_read ta og Hcalm). rewrite Heq.
    apply in_or_app. right. simpl. auto.
Qed.

Lemma read_split tr og ta tr1 og' tr2 :
  forallb readless ta = true →
  tr ++ c_read_page (page_read og) :: ta = tr1 ++ c_read_page (page_read og') :: tr2 →
  (∃ m, tr = tr1 ++ c_read_page (page_read og') :: m
        ∧ tr2 = m ++ c_read_page (page_read og) :: ta)
  ∨ (tr1 = tr ∧ og' = og ∧ tr2 = ta).
Proof.
  intros Hcalm Heq. apply app_eq_app in Heq as [l [[-> Heq]|[-> Heq]]].
  - destruct l as [|x l]; simpl in Heq.
    + injection Heq as <- <-. right. rewrite app_nil_r. auto.
    + injection Heq as <- ->. left. exists l. auto.
  - destruct l as [|x l]; simpl in Heq.
    + injection Heq as <- <-. right. rewrite app_nil_r. auto.
    + injection Heq as <- ->. exfalso. apply (calm_not_read _ og' Hcalm).
      apply in_or_app. right. simpl. auto.
Qed.

Lemma mute_silent tr : forallb mute tr = true → printed tr = [] ∧ packets_out tr = [].
Proof.
  induction tr as [|c tr IH]; [auto|]. intros H. simpl in H.
  apply andb_prop in H as [Hc Htr]. destruct (IH Htr) as [Hp Ho].
  change (c :: tr) with ([c] ++ tr). rewrite printed_app, packets_out_app, Hp, Ho.
  destruct c as [| | | | | | | |[]| | | | | | | | |]; try discriminate; auto.
Qed.

Lemma setup_mute tr : forallb setup_call tr = true → forallb mute tr = true.
Proof.
  rewrite !forallb_forall. intros H c Hin. specialize (H c Hin).
  destruct c; try discriminate; reflexivity.
Qed.

Lemma loop_calls_read_only tr :
  forallb (loop_call false) tr = true →
  write_calls tr = 0%nat ∧ flush_calls tr = 0%nat ∧ submitted tr = [].
Proof.
  induction tr as [|c tr IH]; [auto|]. intros H. simpl in H.
  apply andb_prop in H as [Hc Htr]. destruct (IH Htr) as (Hw & Hf & Hs).
  change (c :: tr) with ([c] ++ tr). unfold write_calls, flush_calls in *.
  rewrite !List.filter_app, !length_app, submitted_app, Hw, Hf, Hs.
  destruct c; try discriminate; auto.
Qed.

Lemma finish_mute tr : forallb finish_call tr = true → forallb mute tr = true.
Proof.
  rewrite !forallb_forall. intros H c Hin. specialize (H c Hin).
  destruct c; try discriminate; reflexivity.
Qed.

Lemma finish_quiet tr : forallb finish_call tr = true → forallb quiet tr = true.
Proof.
  rewrite !forallb_forall. intros H c Hin. specialize (H c Hin).
  destruct c; try discriminate; reflexivity.
Qed.

Lemma finish_unopened tr : forallb finish_call tr = true → unopened tr = true.
Proof.
  unfold unopened. rewrite !forallb_forall. intros H c Hin. specialize (H c Hin).
  destruct c; try discriminate; reflexivity.
Qed.

Lemma finish_read_only tr :
  forallb finish_call tr = true → write_calls tr = 0%nat ∧ submitted tr = [].
Proof.
  induction tr as [|c tr IH]; [auto|]. intros H. simpl in H.
  apply andb_prop in H as [Hc Htr]. destruct (IH Htr) as (Hw & Hs).
  change (c :: tr) with ([c] ++ tr). unfold write_calls in *.
  rewrite !List.filter_app, !length_app, submitted_app, Hw, Hs.
  destruct c; try discriminate; auto.
Qed.

Lemma setup_read_only tr :
  forallb setup_call tr = true → write_calls tr = 0%nat ∧ submitted tr = [].
Proof.
  induction tr as [|c tr IH]; [auto|]. intros H. simpl in H.
  apply andb_prop in H as [Hc Htr]. destruct (IH Htr) as (Hw & Hs).
  change (c :: tr) with ([c] ++ tr). unfold write_calls in *.
  rewrite !List.filter_app, !length_app, submitted_app, Hw, Hs.
  destruct c; try discriminate; auto.
Qed.

Ltac tally_norm :=
  rewrite ?tally_app;
  unfold bounded, even, tally_add, tally_of, write_calls, flush_calls, header_pages,
    pages_read, pages_written in *;
  simpl in *.

(** ** The error variable and the packet counter *)

Section Invariants.
Context {stream : Type} `{!Libogg stream}.
Variable e : env.
Variable opt : options.
Variable wfile : option handle.

Local Abbreviation state := (state stream).
Implicit Types st : state.

Lemma accounted_log c st :
  failed c = false → accounted st → accounted (log c st).
Proof.
  unfold accounted. simpl. intros Hc Hst. rewrite clean_snoc, Hc, andb_true_r.
  assumption.
Qed.

Lemma accounted_failed c msg st : failed c = true → accounted (set_error msg (log c st)).
Proof.
  unfold accounted. simpl. intros Hc. rewrite clean_snoc, Hc, andb_false_r.
  split; discriminate.
Qed.

Lemma counted_log c st : is_packet c = false → counted st → counted (log c st).
Proof.
  unfold counted. simpl. intros Hc Hst. rewrite packets_seen_snoc, Hc. lia.
Qed.

Lemma writer_packetin_spec op st :
  ∃ done ws,
    writer_packetin op st
    = (done, log (c_stream_packetin op done) (set_writer ws st)).
Proof.
  unfold writer_packetin. destruct (writer_stream st) as [ws|] eqn:Hws.
  - destruct (ogg_stream_packetin ws op) as [ws'|].
    + exists true, (Some ws'). reflexivity.
    + exists false, (Some ws). destruct st; simpl in *; subst. reflexivity.
  - exists false, None. destruct st; simpl in *; subst. reflexivity.
Qed.

Lemma process_tags_spec op st :
  ∃ rc tr ws,
    process_tags e opt wfile op st
    = (rc, {| reader_stream := reader_stream st; writer_stream := ws;
              packet_count := packet_count st; error := error st;
              trace := trace st ++ tr |})
    ∧ packets_seen tr = 0%nat
    ∧ (ot.status_eqb rc ot.ok = true → clean tr = true).
Proof.
  unfold process_tags. destruct (ot.parse_tags (packet op)) as [tags|].
  - destruct wfile.
    + destruct (writer_packetin_spec (render_tags (edit_tags e opt tags)) st)
        as (done & ws & ->).
      destruct done; eexists _, [_], ws; (split; [reflexivity|]); split;
        reflexivity || discriminate.
    + eexists ot.ok, [_], _. split; [reflexivity|]. split; reflexivity.
  - exists ot.bad_comment_header, [], (writer_stream st).
    rewrite app_nil_r. destruct st; simpl. split; [reflexivity|].
    split; [reflexivity|discriminate].
Qed.

Lemma sound_log c st :
  failed c = false → is_packet c = false → sound_state st → sound_state (log c st).
Proof.
  intros Hf Hp [Ha Hc]. split; [apply accounted_log|apply counted_log]; assumption.
Qed.

Lemma sound_failed c msg st :
  failed c = true → is_packet c = false → sound_state st →
  sound_state (set_error msg (log c st)).
Proof.
  intros Hf Hp [Ha Hc]. split; [apply accounted_failed; assumption|].
  apply (counted_log c st Hp Hc).
Qed.

Lemma read_packets_sound n st :
  sound_state st → sound_state (read_packets e opt wfile n st).
Proof.
  revert st. induction n as [|n IH]; intros st Hst; simpl; [assumption|].
  destruct (reader_stream st) as [rs|]; [|assumption].
  destruct (ogg_stream_packetout rs) as [r rs'].
  destruct r as [op| |];
    [|apply sound_log; auto | apply sound_log; auto].
  set (st1 := set_packet_count _ _).
  assert (sound_state st1) as H1.
  { destruct Hst as [Ha Hc]. split.
    - apply (accounted_log (c_stream_packetout (po_packet op))
               (set_reader (Some rs') st)); auto.
    - unfold counted, st1. simpl. rewrite packets_seen_snoc. simpl.
      unfold counted in Hc. lia. }
  assert (∀ st', sound_state st' →
            sound_state
              match wfile with
              | Some _ =>
                  let '(done, st0) := writer_packetin op st' in
                  if done then read_packets e opt wfile n st0
                  else set_error "ogg_stream_packetin: internal error" st0
              | None => read_packets e opt wfile n st'
              end) as Hcopy.
  { intros st' Hst'. destruct wfile; [|apply IH; assumption].
    destruct (writer_packetin_spec op st') as (done & ws & ->).
    destruct done.
    - apply IH, sound_log; auto.
    - apply (sound_failed (c_stream_packetin op false) _ (set_writer ws st')); auto. }
  destruct (packet_count st + 1 =? 1).
  { destruct (ot.status_eqb _ ot.ok) eqn:Hrc.
    - apply Hcopy, sound_log; simpl; auto. rewrite Hrc. reflexivity.
    - apply sound_failed; simpl; auto. rewrite Hrc. reflexivity. }
  destruct (packet_count st + 1 =? 2); [|apply Hcopy; assumption].
  destruct (process_tags_spec op st1) as (rc & tr & ws & -> & Hseen & Hclean).
  set (st2 := {| reader_stream := _ |}).
  assert (counted st2) as Hc2.
  { destruct H1 as [_ Hc]. unfold counted in *.
    change (packet_count st2) with (packet_count st1).
    change (trace st2) with (trace st1 ++ tr).
    rewrite packets_seen_app, Hseen. lia. }
  destruct (ot.status_eqb rc ot.ok) eqn:Hrc.
  - assert (sound_state (log (c_process_tags rc) st2)) as H2.
    { split; [|apply counted_log; auto].
      unfold accounted.
      change (error (log (c_process_tags rc) st2)) with (error st1).
      change (trace (log (c_process_tags rc) st2))
        with ((trace st1 ++ tr) ++ [c_process_tags rc]).
      rewrite clean_snoc, clean_app, (Hclean eq_refl). simpl. rewrite Hrc.
      simpl. rewrite !andb_true_r. apply H1. }
    destruct wfile; [apply IH|]; exact H2.
  - split; [apply accounted_failed; simpl; rewrite Hrc; reflexivity|].
    apply (counted_log (c_process_tags rc) st2); auto.
Qed.

Lemma sound_tallied st : sound_state st → tallied st.
Proof. intros [Ha Hc]. split; auto. Qed.

Lemma tallied_log c st :
  failed c = false → is_packet c = false → tallied st → tallied (log c st).
Proof.
  intros Hf Hp [Ha Hc]. split; [apply accounted_log; assumption|].
  destruct Hc as [Hc|[Hc Hs]]; [left; apply counted_log; assumption|right].
  simpl. rewrite packets_seen_snoc, Hp. split; [assumption|lia].
Qed.

Lemma tallied_failed c msg st :
  failed c = true → is_packet c = false → tallied st →
  tallied (set_error msg (log c st)).
Proof.
  intros Hf Hp [Ha Hc]. split; [apply accounted_failed; assumption|].
  destruct Hc as [Hc|[Hc Hs]]; [left; apply (counted_log c st Hp Hc)|right].
  simpl. rewrite packets_seen_snoc, Hp. split; [assumption|lia].
Qed.

Lemma init_streams_sound og st :
  tallied st →
  tallied (init_streams wfile og st) ∧
  (error (init_streams wfile og st) = None → sound_state (init_streams wfile og st)).
Proof.
  intros Hst. unfold init_streams.
  destruct (packet_count st =? -1) eqn:Hpc.
  - apply Z.eqb_eq in Hpc.
    assert (packets_seen (trace st) = 0%nat) as Hseen.
    { destruct Hst as [_ [Hc|[_ Hs]]]; [|assumption]. unfold counted in Hc. lia. }
    destruct (ogg_stream_init _ (pg_serialno og)) as [rs|].
    + destruct wfile.
      * destruct (ogg_stream_init _ (pg_serialno og)) as [ws|].
        -- assert (sound_state
                     (set_packet_count 0
                        (set_writer (Some ws)
                           (log (c_stream_init (pg_serialno og) true)
                              (set_reader (Some rs)
                                 (log (c_stream_init (pg_serialno og) true) st))))))
             as Hs.
           { split.
             - apply (accounted_log (c_stream_init (pg_serialno og) true)
                        (log (c_stream_init (pg_serialno og) true) st)); auto.
               apply accounted_log; auto. apply Hst.
             - unfold counted. simpl. rewrite !packets_seen_snoc, Hseen.
               reflexivity. }
           split; [apply sound_tallied|intros _]; exact Hs.
        -- split; [|simpl; discriminate].
           apply (tallied_failed (c_stream_init (pg_serialno og) false) _
                    (set_reader (Some rs)
                       (log (c_stream_init (pg_serialno og) true) st))); auto.
           apply (tallied_log (c_stream_init (pg_serialno og) true) st); auto.
      * assert (sound_state
                  (set_packet_count 0
                     (set_reader (Some rs)
                        (log (c_stream_init (pg_serialno og) true) st)))) as Hs.
        { split.
          - apply (accounted_log (c_stream_init (pg_serialno og) true) st); auto.
            apply Hst.
          - unfold counted. simpl. rewrite packets_seen_snoc, Hseen. reflexivity. }
        split; [apply sound_tallied|intros _]; exact Hs.
    + split; [|simpl; discriminate]. apply tallied_failed; auto.
  - split; [assumption|intros _]. apply Z.eqb_neq in Hpc.
    destruct Hst as [Ha [Hc|[Hc _]]]; [split; assumption|destruct (Hpc Hc)].
Qed.

Lemma feed_page_sound og st : sound_state st → sound_state (feed_page og st).
Proof.
  intros Hst. unfold feed_page. destruct (reader_stream st) as [rs|].
  - destruct (ogg_stream_pagein rs og) as [rs'|].
    + apply (sound_log (c_stream_pagein og true) (set_reader (Some rs') st)); auto.
    + apply sound_failed; auto.
  - apply sound_failed; auto.
Qed.

Lemma check_reader_sound st : sound_state st → sound_state (check_reader st).
Proof.
  intros Hst. unfold check_reader. destruct (stream_check (reader_stream st)).
  - apply sound_log; auto.
  - apply sound_failed; auto.
Qed.

Lemma flush_page_sound st : sound_state st → sound_state (flush_page e st).
Proof.
  intros Hst. unfold flush_page.
  set (page := env_indeterminate e _).
  destruct (match writer_stream st with
            | Some ws => let '(r, ws') := ogg_stream_flush ws in (r, Some ws')
            | None => (None, None)
            end) as [flushed ws'].
  set (st1 := log (c_stream_flush flushed) (set_writer ws' st)).
  assert (sound_state st1) as H1
    by (apply (sound_log (c_stream_flush flushed) (set_writer ws' st)); auto).
  destruct (env_fwrite_ok e (length (trace st1))).
  - set (st2 := log (c_write_page _ true) st1).
    assert (sound_state st2) as H2 by (apply sound_log; auto).
    change (writer_stream st2) with ws'.
    destruct (stream_check ws').
    + apply sound_log; auto.
    + apply sound_failed; auto.
  - apply sound_failed; auto.
Qed.

Lemma page_step_sound og st :
  tallied st → tallied (fst (page_step e opt wfile og st)).
Proof.
  intros Hst. unfold page_step.
  destruct ((2 <=? packet_count st) && bool_decide (is_Some wfile)).
  { destruct (env_fwrite_ok e (length (trace st))); simpl.
    - apply tallied_log; auto.
    - apply tallied_failed; auto. }
  destruct (init_streams_sound og st Hst) as [Ht Hs].
  destruct (error (init_streams wfile og st)); [exact Ht|].
  specialize (Hs eq_refl). apply (feed_page_sound og) in Hs.
  destruct (error (feed_page og (init_streams wfile og st)));
    [apply sound_tallied; exact Hs|].
  apply (read_packets_sound (fuel_of (feed_page og (init_streams wfile og st)))) in Hs.
  destruct (error (read_packets _ _ _ _ _)); [apply sound_tallied; exact Hs|].
  apply check_reader_sound in Hs.
  destruct wfile.
  - apply sound_tallied, flush_page_sound, Hs.
  - destruct (2 <=? _); apply sound_tallied; exact Hs.
Qed.

Lemma main_loop_sound pages ending st :
  tallied st → tallied (main_loop e opt wfile pages ending st).
Proof.
  revert st. induction pages as [|og pages IH]; intros st Hst; simpl.
  - destruct (error st); [assumption|].
    destruct ending; [apply tallied_log|apply tallied_failed|apply tallied_failed];
      auto.
  - destruct (error st); [assumption|].
    pose proof (page_step_sound og (log (c_read_page (page_read og)) st)) as Hstep.
    destruct (page_step e opt wfile og _) as [st' next]. simpl in Hstep.
    assert (tallied st') by (apply Hstep, tallied_log; auto).
    destruct next; [apply IH|]; assumption.
Qed.

End Invariants.

(** ** The calls of the loop *)

Section Shape.
Context {stream : Type} `{!Libogg stream}.
Variable e : env.
Variable opt : options.

Local Abbreviation state := (state stream).
Implicit Types st : state.

Lemma grows_by_refl P st st' : trace st' = trace st → grows_by P st st'.
Proof. intros H. exists []. rewrite app_nil_r. auto. Qed.

Lemma grows_by_trans P st1 st2 st3 :
  grows_by P st1 st2 → grows_by P st2 st3 → grows_by P st1 st3.
Proof.
  intros (tr1 & H1 & F1) (tr2 & H2 & F2). exists (tr1 ++ tr2).
  rewrite H2, H1, app_assoc, forallb_app, F1, F2. auto.
Qed.

Lemma grows_by_log P c st st' :
  P c = true → trace st' = trace st ++ [c] → grows_by P st st'.
Proof. intros Hc H. exists [c]. simpl. rewrite Hc. auto. Qed.

Lemma grows_by_log2 P c1 c2 st st' :
  P c1 = true → P c2 = true →
  trace st' = (trace st ++ [c1]) ++ [c2] → grows_by P st st'.
Proof.
  intros H1 H2 H. exists [c1; c2]. simpl. rewrite H1, H2, H, <- app_assoc. auto.
Qed.

Lemma grows_by_weaken (P Q : call → bool) st st' :
  (∀ c, P c = true → Q c = true) → grows_by P st st' → grows_by Q st st'.
Proof.
  intros HPQ (tr & Htr & HP). exists tr. split; [assumption|].
  rewrite forallb_forall in *. auto.
Qed.

Ltac one_call := eapply grows_by_log; [|reflexivity]; reflexivity.
Ltac two_calls := eapply grows_by_log2; [| |reflexivity]; reflexivity.
Ltac no_call := apply grows_by_refl; reflexivity.

Lemma writer_packetin_grows op st :
  grows_by (inner_call true) st (snd (writer_packetin op st)).
Proof. destruct (writer_packetin_spec op st) as (done & ws & ->). one_call. Qed.

Lemma process_tags_grows wfile op st :
  grows_by (inner_call (writing wfile)) st (snd (process_tags e opt wfile op st)).
Proof.
  unfold process_tags. destruct (ot.parse_tags (packet op)) as [tags|]; [|no_call].
  destruct wfile; [|one_call].
  pose proof (writer_packetin_grows (render_tags (edit_tags e opt tags)) st) as H.
  destruct (writer_packetin _ st) as [[] st']; exact H.
Qed.

Lemma read_packets_grows wfile n st :
  grows_by (inner_call (writing wfile)) st (read_packets e opt wfile n st).
Proof.
  revert st. induction n as [|n IH]; intros st; simpl; [no_call|].
  destruct (reader_stream st) as [rs|]; [|no_call].
  destruct (ogg_stream_packetout rs) as [r rs'].
  destruct r as [op| |]; [|one_call|one_call].
  set (st1 := set_packet_count _ _).
  assert (grows_by (inner_call (writing wfile)) st st1) as H1 by one_call.
  assert (∀ st', grows_by (inner_call (writing wfile)) st st' →
            grows_by (inner_call (writing wfile)) st
              match wfile with
              | Some _ =>
                  let '(done, st0) := writer_packetin op st' in
                  if done then read_packets e opt wfile n st0
                  else set_error "ogg_stream_packetin: internal error" st0
              | None => read_packets e opt wfile n st'
              end) as Hcopy.
  { intros st' Hst'. destruct wfile; [|eapply grows_by_trans; [exact Hst'|apply IH]].
    pose proof (writer_packetin_grows op st') as Hin.
    destruct (writer_packetin op st') as [[] st0]; simpl in Hin.
    - eapply grows_by_trans; [|apply IH]. eapply grows_by_trans; eassumption.
    - eapply grows_by_trans; [exact Hst'|]. eapply grows_by_trans; [exact Hin|].
      no_call. }
  destruct (packet_count st + 1 =? 1).
  { destruct (ot.status_eqb _ ot.ok).
    - apply Hcopy. eapply grows_by_trans; [exact H1|]. one_call.
    - eapply grows_by_trans; [exact H1|]. one_call. }
  destruct (packet_count st + 1 =? 2); [|apply Hcopy; assumption].
  pose proof (process_tags_grows wfile op st1) as Hp.
  destruct (process_tags e opt wfile op st1) as [rc st2]. simpl in Hp.
  assert (grows_by (inner_call (writing wfile)) st (log (c_process_tags rc) st2)) as H2.
  { eapply grows_by_trans; [exact H1|]. eapply grows_by_trans; [exact Hp|]. one_call. }
  destruct (ot.status_eqb rc ot.ok).
  - destruct wfile; [eapply grows_by_trans; [exact H2|apply IH]|exact H2].
  - eapply grows_by_trans; [exact H2|]. no_call.
Qed.

Lemma init_streams_grows wfile og st :
  grows_by (loop_call (writing wfile)) st (init_streams wfile og st).
Proof.
  unfold init_streams. destruct (packet_count st =? -1); [|no_call].
  destruct (ogg_stream_init _ _) as [rs|]; [|one_call].
  destruct wfile; [|one_call].
  destruct (ogg_stream_init _ _) as [ws|]; two_calls.
Qed.

Lemma feed_page_grows w og st : grows_by (loop_call w) st (feed_page og st).
Proof.
  unfold feed_page. destruct (reader_stream st) as [rs|]; [|one_call].
  destruct (ogg_stream_pagein rs og); one_call.
Qed.

Lemma check_reader_grows w st : grows_by (loop_call w) st (check_reader st).
Proof. unfold check_reader. destruct (stream_check (reader_stream st)); one_call. Qed.

Lemma flush_page_grows st : grows_by (loop_call true) st (flush_page e st).
Proof.
  unfold flush_page.
  destruct (match writer_stream st with
            | Some ws => let '(r, ws') := ogg_stream_flush ws in (r, Some ws')
            | None => (None, None)
            end) as [flushed ws'].
  set (st1 := log (c_stream_flush flushed) (set_writer ws' st)).
  assert (grows_by (loop_call true) st st1) as H1 by one_call.
  eapply grows_by_trans; [exact H1|].
  destruct (env_fwrite_ok e (length (trace st1))); [|one_call].
  set (st2 := log (c_write_page _ true) st1).
  change (writer_stream st2) with ws'.
  destruct (stream_check ws'); two_calls.
Qed.

Lemma page_step_grows wfile og st :
  grows_by (loop_call (writing wfile)) st (fst (page_step e opt wfile og st)).
Proof.
  unfold page_step. rewrite writing_decide.
  destruct ((2 <=? packet_count st) && writing wfile) eqn:Hcond.
  { apply andb_prop in Hcond as [_ Hw].
    destruct (env_fwrite_ok e (length (trace st)));
      (eapply grows_by_log; [|reflexivity]; exact Hw). }
  pose proof (init_streams_grows wfile og st) as H1.
  destruct (error (init_streams wfile og st)); [exact H1|].
  pose proof (feed_page_grows (writing wfile) og (init_streams wfile og st)) as H2.
  assert (grows_by (loop_call (writing wfile)) st
            (feed_page og (init_streams wfile og st))) as H12
    by (eapply grows_by_trans; eassumption).
  destruct (error (feed_page og (init_streams wfile og st))); [exact H12|].
  pose proof (grows_by_weaken _ _ _ _ (inner_loop_call (writing wfile))
                (read_packets_grows wfile
                   (fuel_of (feed_page og (init_streams wfile og st)))
                   (feed_page og (init_streams wfile og st)))) as H3.
  set (st3 := read_packets _ _ _ _ _) in *.
  assert (grows_by (loop_call (writing wfile)) st st3) as H13
    by (eapply grows_by_trans; eassumption).
  destruct (error st3); [exact H13|].
  assert (grows_by (loop_call (writing wfile)) st (check_reader st3)) as H14
    by (eapply grows_by_trans; [exact H13|apply check_reader_grows]).
  clearbody st3. clear -H14. destruct wfile.
  - simpl. eapply grows_by_trans; [exact H14|apply flush_page_grows].
  - destruct (2 <=? packet_count (check_reader st3)); exact H14.
Qed.

Lemma main_loop_grows wfile pages ending st :
  grows_by (loop_call (writing wfile)) st (main_loop e opt wfile pages ending st).
Proof.
  revert st. induction pages as [|og pages IH]; intros st; simpl.
  - destruct (error st); [no_call|]. destruct ending; one_call.
  - destruct (error st); [no_call|].
    pose proof (page_step_grows wfile og (log (c_read_page (page_read og)) st)) as Hstep.
    destruct (page_step e opt wfile og _) as [st' next]. simpl in Hstep.
    assert (grows_by (loop_call (writing wfile)) st st') as H1.
    { eapply grows_by_trans; [|exact Hstep]. one_call. }
    destruct next; [eapply grows_by_trans; [exact H1|apply IH]|exact H1].
Qed.

End Shape.

(** ** The inner loop ends *)

Section Fuel.
Context {stream : Type} `{!Libogg stream}.
Variable e : env.
Variable opt : options.
Variable wfile : option handle.

(** Any fuel above the data buffered in the reader gives the same result:
    the inner loop stops by itself before the fuel that [page_step] passes
    ([fuel_of]) is used up. *)
Lemma read_packets_fuel n m st :
  (pending st < n)%nat → (pending st < m)%nat →
  read_packets e opt wfile n st = read_packets e opt wfile m st.
Proof.
  revert m st. induction n as [|n IH]; intros m st Hn Hm; [lia|].
  destruct m as [|m]; [lia|]. simpl.
  unfold pending in Hn, Hm.
  destruct (reader_stream st) as [rs|] eqn:Hrs; [|reflexivity].
  destruct (ogg_stream_packetout rs) as [r rs'] eqn:Hout.
  destruct r as [op| |]; [|reflexivity|reflexivity].
  apply packetout_pending in Hout.
  set (st1 := set_packet_count _ _).
  assert (∀ st', reader_stream st' = Some rs' →
            read_packets e opt wfile n st' = read_packets e opt wfile m st') as Hrec.
  { intros st' H'. apply IH; unfold pending; rewrite H'; lia. }
  assert (∀ st', reader_stream st' = Some rs' →
            match wfile with
            | Some _ =>
                let '(done, st0) := writer_packetin op st' in
                if done then read_packets e opt wfile n st0
                else set_error "ogg_stream_packetin: internal error" st0
            | None => read_packets e opt wfile n st'
            end
            = match wfile with
              | Some _ =>
                  let '(done, st0) := writer_packetin op st' in
                  if done then read_packets e opt wfile m st0
                  else set_error "ogg_stream_packetin: internal error" st0
              | None => read_packets e opt wfile m st'
              end) as Hcopy.
  { intros st' H'. destruct wfile; [|apply Hrec, H'].
    destruct (writer_packetin_spec op st') as (done & ws & ->).
    destruct done; [apply Hrec, H'|reflexivity]. }
  destruct (packet_count st + 1 =? 1).
  { destruct (ot.status_eqb _ ot.ok); [apply Hcopy|]; reflexivity. }
  destruct (packet_count st + 1 =? 2); [|apply Hcopy; reflexivity].
  destruct (process_tags_spec e opt wfile op st1) as (rc & tr & ws & -> & _).
  destruct (ot.status_eqb rc ot.ok); [|reflexivity].
  destruct wfile; [apply Hrec|]; reflexivity.
Qed.

Lemma fuel_of_enough (st : state stream) : (pending st < fuel_of st)%nat.
Proof. unfold pending, fuel_of. destruct (reader_stream st); lia. Qed.

End Fuel.

(** ** The ways through [run] *)

Section Cases.
Context {stream : Type} `{!Libogg stream}.

Lemma finish_calls e opt p_out rfile wfile fs (st : state stream) :
  ∃ tail, r_trace (finish e opt p_out rfile wfile fs st) = trace st ++ tail
          ∧ forallb finish_call tail = true.
Proof.
  unfold finish.
  destruct (match error st with
            | Some msg => Some msg
            | None => if packet_count st <? 2 then Some "opustags: invalid file"
                      else None
            end) as [msg|].
  - destruct (negb _ && negb _), wfile; simpl; rewrite <- !app_assoc; eexists;
      (split; [reflexivity|]); reflexivity.
  - destruct (inplace opt); [destruct (env_rename_ok _ _ _)|]; destruct wfile; simpl;
      rewrite <- ?app_assoc; eexists; (split; [reflexivity|]); reflexivity.
Qed.

Lemma finish_error e opt p_out rfile wfile fs (st : state stream) msg :
  error st = Some msg →
  exit_status (finish e opt p_out rfile wfile fs st) = EXIT_FAILURE
  ∧ ∃ tail, r_trace (finish e opt p_out rfile wfile fs st) = trace st ++ tail
            ∧ forallb quiet tail = true ∧ In (c_stderr msg) tail.
Proof.
  intros Herr. unfold finish. rewrite Herr.
  destruct (negb _ && negb _); simpl; (split; [reflexivity|]);
    destruct wfile; rewrite <- !app_assoc; simpl; eexists;
    (split; [reflexivity|]); (split; [reflexivity|]); simpl; auto.
Qed.

Lemma finish_fs_read_only e opt rfile wfile fs (st : state stream) :
  inplace opt = None → r_fs (finish e opt "" rfile wfile fs st) = fs.
Proof.
  intros Hin. unfold finish. rewrite Hin.
  destruct (match error st with
            | Some msg => Some msg
            | None => if packet_count st <? 2 then Some "opustags: invalid file"
                      else None
            end); reflexivity.
Qed.

(** [run] either fails before its loop, or runs [process] in one of three
    ways: without output, to the standard output, or to a file it has just
    opened. *)
Lemma run_cases e opt (Q : result → Prop) :
  (∀ tr c msg,
     forallb setup_call tr = true → unopened tr = true →
     In c tr → failed c = true → In (c_stderr msg) tr →
     Q (failure (env_fs e) tr)) →
  (∀ rfile inp tr,
     forallb setup_call tr = true → clean tr = true → unopened tr = true →
     output_path opt = "" →
     Q (process (stream := stream) e opt "" rfile inp None (env_fs e) tr)) →
  (∀ rfile inp tr,
     forallb setup_call tr = true → clean tr = true → unopened tr = true →
     output_path opt = "-" →
     Q (process (stream := stream) e opt "-" rfile inp (Some h_stdout) (env_fs e) tr)) →
  (∀ rfile inp tr,
     forallb setup_call tr = true → clean tr = true → unopened tr = true →
     output_path opt ≠ "" → output_path opt ≠ "-" →
     Q (process (stream := stream) e opt (output_path opt) rfile inp
          (Some (h_file (output_path opt))) (env_fs e ∪ {[output_path opt]})
          (tr ++ [c_fopen (output_path opt) "w" true]))) →
  Q (run (stream := stream) e opt).
Proof.
  intros Hfail Hnone Hstdout Hfile. unfold run.
  set (requested := negb (String.eqb (path_out opt) "")).
  set (same := same_file (env_realpath e) (path_in opt) (path_out opt)).
  set (tr := if requested then [c_same_file (path_in opt) (path_out opt) same] else []).
  assert (forallb setup_call tr = true ∧ unopened tr = true) as [Hs Hu]
    by (unfold tr; destruct requested; split; reflexivity).
  destruct (requested && same) eqn:Hsame.
  { apply andb_prop in Hsame as [Hr Hsm].
    apply (Hfail _ (c_same_file (path_in opt) (path_out opt) same)
             "error: the input and output files are the same").
    - rewrite forallb_app, Hs. reflexivity.
    - rewrite unopened_app, Hu. reflexivity.
    - unfold tr. rewrite Hr. simpl. auto.
    - exact Hsm.
    - apply in_or_app. right. simpl. auto. }
  assert (clean tr = true) as Hc.
  { unfold tr. destruct requested; [|reflexivity]. simpl in Hsame.
    rewrite Hsame. reflexivity. }
  set (opened := if String.eqb (path_in opt) "-" then _ else _).
  assert (match opened with
          | Some (_, _, tr') =>
              forallb setup_call tr' = true ∧ clean tr' = true ∧ unopened tr' = true
          | None => True
          end) as Hopened.
  { unfold opened. destruct (String.eqb (path_in opt) "-"); [auto|].
    destruct (env_fopen_r e (path_in opt)); [|exact I].
    rewrite forallb_app, clean_app, unopened_app, Hs, Hc, Hu. auto. }
  destruct opened as [[[rfile inp] tr']|].
  2:{ apply (Hfail _ (c_fopen (path_in opt) "r" false) "fopen").
      - rewrite forallb_app, Hs. reflexivity.
      - rewrite unopened_app, Hu. reflexivity.
      - apply in_or_app. right. simpl. auto.
      - reflexivity.
      - apply in_or_app. right. simpl. auto. }
  destruct Hopened as (Hs' & Hc' & Hu').
  destruct (String.eqb_spec (output_path opt) "") as [He|He].
  { rewrite He. apply Hnone; assumption. }
  destruct (String.eqb_spec (output_path opt) "-") as [Hd|Hd].
  { rewrite Hd. apply Hstdout; assumption. }
  set (guarded := negb (overwrite opt) && _).
  set (found := bool_decide (output_path opt ∈ env_fs e)).
  set (tr'' := if guarded then tr' ++ [c_access (output_path opt) found] else tr').
  assert (forallb setup_call tr'' = true ∧ unopened tr'' = true) as [Hs'' Hu''].
  { unfold tr''. destruct guarded; rewrite ?forallb_app, ?unopened_app, ?Hs', ?Hu';
      split; reflexivity. }
  destruct (guarded && found) eqn:Hguard.
  { apply andb_prop in Hguard as [Hg Hf].
    apply (Hfail _ (c_access (output_path opt) found)
             (String.append "'"
                (String.append (output_path opt)
                   "' already exists (use -y to overwrite)"))).
    - rewrite forallb_app, Hs''. reflexivity.
    - rewrite unopened_app, Hu''. reflexivity.
    - apply in_or_app. left. unfold tr''. rewrite Hg. apply in_or_app.
      right. simpl. auto.
    - exact Hf.
    - apply in_or_app. right. simpl. auto. }
  destruct (env_fopen_w e (output_path opt)).
  - apply Hfile; try assumption.
    unfold tr''. destruct guarded; rewrite ?clean_app, ?Hc'; simpl in *;
      rewrite ?Hguard; reflexivity.
  - apply (Hfail _ (c_fopen (output_path opt) "w" false) "fopen").
    + rewrite forallb_app, Hs''. reflexivity.
    + rewrite unopened_app, Hu''. reflexivity.
    + apply in_or_app. right. simpl. auto.
    + reflexivity.
    + apply in_or_app. right. simpl. auto.
Qed.

End Cases.

(** ** The exit status *)

Section Exit.
Context {stream : Type} `{!Libogg stream}.





End Exit.

(** ** The output file of a failed run *)

Section Removal.
Context {stream : Type} `{!Libogg stream}.

Lemma process_unopened e opt p_out rfile inp wfile fs tr :
  unopened tr = true →
  unopened (r_trace (process (stream := stream) e opt p_out rfile inp wfile fs tr)) = true.
Proof.
  intros Htr. unfold process.
  destruct (finish_calls e opt p_out rfile wfile fs
              (main_loop e opt wfile (in_pages inp) (in_end inp) (init_state tr)))
    as (tr2 & -> & H2%finish_unopened).
  destruct (main_loop_grows e opt wfile (in_pages inp) (in_end inp) (init_state tr))
    as (tr1 & -> & H1).
  simpl. rewrite !unopened_app, Htr, H2, (loop_calls_unopened _ _ H1). reflexivity.
Qed.

Lemma process_removes e opt p_out rfile inp f fs tr :
  let r := process (stream := stream) e opt p_out rfile inp (Some (h_file f)) fs tr in
  String.eqb p_out "" = false →
  clean tr = true → packets_seen tr = 0%nat →
  ((packets_seen (r_trace r) < 2)%nat ∨
   ∃ c, In c (r_trace r) ∧ failed c = true ∧ ∀ a b, c ≠ c_rename a b false) →
  exit_status r = EXIT_FAILURE ∧ (p_out ∉ r_fs r) ∧ last (r_trace r) = Some (c_remove p_out).
Proof.
  intros r Hp Hclean Hseen. unfold r, process.
  set (st := main_loop _ _ _ _ _ _).
  assert (tallied st) as [Ha Hc].
  { apply main_loop_sound. split; [split; auto|right; auto]. }
  unfold finish.
  set (tr1 := (trace st ++ [c_fclose rfile]) ++ [c_fclose (h_file f)]).
  assert (clean tr1 = clean (trace st) ∧ packets_seen tr1 = packets_seen (trace st))
    as [Hcl1 Hs1].
  { unfold tr1. rewrite !clean_snoc, !packets_seen_snoc. cbn [failed is_packet negb].
    rewrite !andb_true_r. split; reflexivity || lia. }
  rewrite Hp. cbn [negb is_stdout andb].
  destruct (error st) as [msg|] eqn:Herr.
  { intros _. simpl. split; [reflexivity|]. split; [|apply last_snoc].
    apply not_elem_of_difference. right. apply elem_of_singleton. reflexivity. }
  destruct (packet_count st <? 2) eqn:Hpc.
  { intros _. simpl. split; [reflexivity|]. split; [|apply last_snoc].
    apply not_elem_of_difference. right. apply elem_of_singleton. reflexivity. }
  apply Z.ltb_ge in Hpc. intros Hbad. exfalso.
  assert (clean tr1 = true) as Hcl by (rewrite Hcl1; apply Ha; assumption).
  assert (2 ≤ packets_seen tr1)%nat as Hmany.
  { rewrite Hs1. unfold counted in Hc. destruct Hc as [Hc|[Hc _]]; lia. }
  assert (∀ c, In c tr1 → failed c = false) as Hok.
  { intros c Hin. unfold clean in Hcl. rewrite forallb_forall in Hcl.
    specialize (Hcl c Hin). destruct (failed c); [discriminate|reflexivity]. }
  assert (∀ tr2, packets_seen tr2 = 0%nat → ¬ (packets_seen (tr1 ++ tr2) < 2)%nat)
    as Hnofew by (intros tr2 H2; rewrite packets_seen_app; lia).
  assert (∀ c tr2, In c (tr1 ++ tr2) → failed c = true → In c tr2) as Hlate.
  { intros c tr2 Hin Hf. apply in_app_iff in Hin as [Hin|Hin]; [|assumption].
    apply Hok in Hin. congruence. }
  destruct (inplace opt); [destruct (env_rename_ok e p_out (path_in opt))|];
    simpl in Hbad; destruct Hbad as [Hfew|(c & Hin & Hf & Hne)].
  - apply (Hnofew [c_rename p_out (path_in opt) true] eq_refl Hfew).
  - apply Hlate in Hin; [|assumption]. destruct Hin as [<-|[]]. discriminate.
  - apply (Hnofew [c_rename p_out (path_in opt) false; c_stderr "rename"] eq_refl Hfew).
  - apply Hlate in Hin; [|assumption]. destruct Hin as [<-|[<-|[]]].
    + destruct (Hne _ _ eq_refl).
    + discriminate.
  - lia.
  - apply Hok in Hin. congruence.
Qed.

(** C6: when [run] has opened a file for its output and then ends with an
    error from its loop (a call other than the final rename has failed) or
    with fewer than two packets seen, it exits with failure, the file no
    longer exists, and removing it was the last thing [run] did. *)
Theorem failed_run_removes_output e opt p :
  In (c_fopen p "w" true) (r_trace (run (stream := stream) e opt)) →
  ((packets_seen (r_trace (run (stream := stream) e opt)) < 2)%nat ∨
   ∃ c, In c (r_trace (run (stream := stream) e opt)) ∧ failed c = true
        ∧ ∀ a b, c ≠ c_rename a b false) →
  exit_status (run (stream := stream) e opt) = EXIT_FAILURE
  ∧ (p ∉ r_fs (run (stream := stream) e opt))
  ∧ last (r_trace (run (stream := stream) e opt)) = Some (c_remove p).
Proof.
  apply (run_cases e opt (λ r,
    In (c_fopen p "w" true) (r_trace r) →
    ((packets_seen (r_trace r) < 2)%nat ∨
     ∃ c, In c (r_trace r) ∧ failed c = true ∧ ∀ a b, c ≠ c_rename a b false) →
    exit_status r = EXIT_FAILURE ∧ (p ∉ r_fs r) ∧ last (r_trace r) = Some (c_remove p))).
  - intros tr c msg _ Hu _ _ _ Hin. destruct (unopened_not_in _ _ Hu Hin).
  - intros rfile inp tr _ _ Hu _ Hin. exfalso. revert Hin.
    apply unopened_not_in, process_unopened, Hu.
  - intros rfile inp tr _ _ Hu _ Hin. exfalso. revert Hin.
    apply unopened_not_in, process_unopened, Hu.
  - intros rfile inp tr Hs Hc Hu Hne _ Hin Hbad.
    assert (p = output_path opt) as ->.
    { unfold process in Hin.
      destruct (finish_calls e opt (output_path opt) rfile
                  (Some (h_file (output_path opt))) (env_fs e ∪ {[output_path opt]})
                  (main_loop e opt (Some (h_file (output_path opt))) (in_pages inp)
                     (in_end inp)
                     (init_state (tr ++ [c_fopen (output_path opt) "w" true]))))
        as (tr2 & Heq & H2).
      rewrite Heq in Hin.
      destruct (main_loop_grows e opt (Some (h_file (output_path opt))) (in_pages inp)
                  (in_end inp)
                  (init_state (tr ++ [c_fopen (output_path opt) "w" true])))
        as (tr1 & Heq1 & H1).
      rewrite Heq1 in Hin. simpl in Hin. rewrite !in_app_iff in Hin. simpl in Hin.
      destruct Hin as [[[Hin|[Hin|[]]]|Hin]|Hin].
      - destruct (unopened_not_in _ _ Hu Hin).
      - congruence.
      - destruct (unopened_not_in _ _ (loop_calls_unopened _ _ H1) Hin).
      - destruct (unopened_not_in _ _ (finish_unopened _ H2) Hin). }
    apply (process_removes e opt (output_path opt) rfile inp (output_path opt));
      [apply String.eqb_neq, Hne| | |exact Hbad].
    + rewrite clean_app, Hc. reflexivity.
    + rewrite packets_seen_app, (setup_no_packets _ Hs). reflexivity.
Qed.

(** C10: when output is requested, neither path is [-] and both have the
    same canonical path, [run] fails at once: its only calls are the
    comparison and the message, so no file is opened and no page is read
    or written; and a path [-] is never the same file as any other. *)
Theorem same_file_refused e opt canon :
  path_in opt ≠ "-" → path_out opt ≠ "-" → path_out opt ≠ "" →
  env_realpath e (path_in opt) = Some canon →
  env_realpath e (path_out opt) = Some canon →
  run (stream := stream) e opt
  = failure (env_fs e)
      [c_same_file (path_in opt) (path_out opt) true;
       c_stderr "error: the input and output files are the same"]
  ∧ ∀ realpath p,
      same_file realpath "-" p = false ∧ same_file realpath p "-" = false.
Proof.
  intros Hin Hout Hreq Hcin Hcout. split.
  - unfold run.
    assert (same_file (env_realpath e) (path_in opt) (path_out opt) = true) as ->.
    { unfold same_file. rewrite Hcin, Hcout, String.eqb_refl.
      apply String.eqb_neq in Hin, Hout. rewrite Hin, Hout. reflexivity. }
    apply String.eqb_neq in Hreq. rewrite Hreq. reflexivity.
  - intros realpath p. unfold same_file. split; [reflexivity|].
    destruct (String.eqb p "-"); reflexivity.
Qed.

End Removal.

(** ** One page out for each page in *)

Section Balance.
Context {stream : Type} `{!Libogg stream}.
Variable e : env.
Variable opt : options.
Variable h : handle.

Local Abbreviation state := (state stream).
Implicit Types st : state.

Lemma quiet_step (st st' : state) :
  grows_by quiet st st' → tally_of (trace st') = tally_of (trace st).
Proof.
  intros (tr & -> & Hq). rewrite tally_app, (quiet_tally _ Hq).
  tally_norm. f_equal; lia.
Qed.

Lemma init_streams_quiet og st : grows_by quiet st (init_streams (Some h) og st).
Proof.
  unfold init_streams.
  destruct (packet_count st =? -1); [|apply grows_by_refl; reflexivity].
  destruct (ogg_stream_init _ _) as [rs|];
    [|eapply grows_by_log; [|reflexivity]; reflexivity].
  destruct (ogg_stream_init _ _) as [ws|];
    (eapply grows_by_log2; [| |reflexivity]; reflexivity).
Qed.

Lemma feed_page_tally og (st : state) :
  tally_of (trace (feed_page og st))
  = tally_add (tally_of (trace st))
      {| t_read := 0; t_write := 0; t_written := 0; t_flush := 0; t_fed := 1 |}.
Proof.
  unfold feed_page. destruct (reader_stream st) as [rs|];
    [destruct (ogg_stream_pagein rs og)|]; simpl; tally_norm; f_equal; lia.
Qed.

Lemma flush_page_tally (st : state) :
  ∃ k, tally_of (trace (flush_page e st))
       = tally_add (tally_of (trace st))
           {| t_read := 0; t_write := 1; t_written := k; t_flush := 1; t_fed := 0 |}
       ∧ (k ≤ 1)%nat ∧ (error (flush_page e st) = None → k = 1%nat).
Proof.
  unfold flush_page.
  destruct (match writer_stream st with
            | Some ws => let '(r, ws') := ogg_stream_flush ws in (r, Some ws')
            | None => (None, None)
            end) as [flushed ws'].
  set (st1 := log (c_stream_flush flushed) (set_writer ws' st)).
  destruct (env_fwrite_ok e (length (trace st1))).
  - exists 1%nat. set (st2 := log (c_write_page _ true) st1).
    change (writer_stream st2) with ws'.
    split; [|split; [lia|reflexivity]].
    destruct (stream_check ws'); simpl; tally_norm; f_equal; lia.
  - exists 0%nat. split; [|split; [lia|simpl; discriminate]].
    simpl. tally_norm. f_equal; lia.
Qed.

Lemma page_step_balance og st :
  error st = None →
  even (tally_of (trace st)) →
  let st' := fst (page_step e opt (Some h) og (log (c_read_page (page_read og)) st)) in
  bounded (tally_of (trace st')) ∧ (error st' = None → even (tally_of (trace st'))).
Proof.
  intros Herr (Hw & Hwn & Hf). unfold page_step.
  set (st0 := log (c_read_page (page_read og)) st).
  assert (tally_of (trace st0)
          = tally_add (tally_of (trace st))
              {| t_read := 1; t_write := 0; t_written := 0; t_flush := 0; t_fed := 0 |})
    as H0 by (simpl; tally_norm; f_equal; lia).
  destruct ((2 <=? packet_count st0) && bool_decide (is_Some (Some h))).
  { clear H0. destruct (env_fwrite_ok e (length (trace st0))); simpl;
      tally_norm; (split; [lia|]); intros; try discriminate; lia. }
  pose proof (quiet_step _ _ (init_streams_quiet og st0)) as H1.
  set (st1 := init_streams (Some h) og st0) in *.
  destruct (error st1) eqn:Est1.
  { simpl. rewrite H1, H0. clear H0 H1. tally_norm. split; [lia|intros; congruence]. }
  pose proof (feed_page_tally og st1) as H2.
  set (st2 := feed_page og st1) in *.
  destruct (error st2) eqn:Est2.
  { simpl. rewrite H2, H1, H0. clear H0 H1 H2. tally_norm.
    split; [lia|intros; congruence]. }
  pose proof (quiet_step _ _
                (grows_by_weaken _ _ _ _ inner_quiet
                   (read_packets_grows e opt (Some h) (fuel_of st2) st2))) as H3.
  set (st3 := read_packets _ _ _ _ _) in *.
  destruct (error st3) eqn:Est3.
  { simpl. rewrite H3, H2, H1, H0. clear H0 H1 H2 H3. tally_norm.
    split; [lia|intros; congruence]. }
  assert (tally_of (trace (check_reader st3)) = tally_of (trace st3)) as H4.
  { apply quiet_step. unfold check_reader.
    destruct (stream_check (reader_stream st3));
      (eapply grows_by_log; [|reflexivity]; reflexivity). }
  destruct (flush_page_tally (check_reader st3)) as (k & H5 & Hk & Hk1).
  simpl. rewrite H5, H4, H3, H2, H1, H0. clear H0 H1 H2 H3 H4 H5. tally_norm.
  split; [lia|]. intros Hnone. specialize (Hk1 Hnone). lia.
Qed.

Lemma main_loop_balance pages ending st :
  bounded (tally_of (trace st)) →
  (error st = None → even (tally_of (trace st))) →
  let st' := main_loop e opt (Some h) pages ending st in
  bounded (tally_of (trace st')) ∧ (error st' = None → even (tally_of (trace st'))).
Proof.
  revert st. induction pages as [|og pages IH]; intros st Hb He; simpl.
  - destruct (error st) eqn:Herr; [split; [assumption|intros; congruence]|].
    specialize (He eq_refl).
    assert (tally_of (trace st ++ [c_read_page (page_end ending)]) = tally_of (trace st))
      as Heq.
    { destruct ending; tally_norm; f_equal; lia. }
    destruct ending; simpl; rewrite Heq; (split; [assumption|]); auto; discriminate.
  - destruct (error st) eqn:Herr; [split; [assumption|intros; congruence]|].
    pose proof (page_step_balance og st Herr (He eq_refl)) as Hstep.
    destruct (page_step e opt (Some h) og _) as [st' next]. simpl in Hstep.
    destruct Hstep as [Hb' He']. destruct next; [apply IH|split]; assumption.
Qed.

End Balance.

Section Pagination.
Context {stream : Type} `{!Libogg stream}.

Lemma process_balance e opt p_out rfile inp h fs tr0 :
  forallb setup_call tr0 = true → clean tr0 = true →
  let tr := r_trace (process (stream := stream) e opt p_out rfile inp (Some h) fs tr0) in
  bounded (tally_of tr) ∧ (failures tr = [] → even (tally_of tr)).
Proof.
  intros Hs Hc tr. unfold tr, process.
  set (st := main_loop _ _ _ _ _ _).
  destruct (finish_calls e opt p_out rfile (Some h) fs st) as (tr2 & -> & Hq%finish_quiet).
  assert (tally_of tr0 = {| t_read := 0; t_write := 0; t_written := 0;
                            t_flush := 0; t_fed := 0 |}) as H0
    by (apply quiet_tally, setup_quiet, Hs).
  destruct (main_loop_balance e opt h (in_pages inp) (in_end inp) (init_state tr0))
    as [Hb He].
  { simpl. rewrite H0. unfold bounded. simpl. lia. }
  { intros _. simpl. rewrite H0. unfold even. simpl. auto. }
  fold st in Hb, He.
  assert (tally_of (trace st ++ tr2) = tally_of (trace st)) as Heq.
  { rewrite tally_app, (quiet_tally _ Hq). clear. tally_norm. f_equal; lia. }
  rewrite Heq. split; [exact Hb|]. intros Hf. apply He.
  assert (tallied st) as [Ha _].
  { apply main_loop_sound. split; [split; auto|right; split; [reflexivity|]].
    apply setup_no_packets, Hs. }
  apply Ha. apply failures_nil_clean in Hf. rewrite clean_app in Hf.
  apply andb_prop in Hf as [Hf _]. exact Hf.
Qed.

(** X23: in write mode every page read is answered by at most one call of
    [write_page] and every page fed to the decoder, that is every page of
    the header phase, by at most one call of [ogg_stream_flush]; in a run
    where no call of [failed] fails the numbers are equal: one [write_page]
    call, which succeeds, for each page read, and one flush call for each
    page of the header phase.  These are calls: a flush that gives no page
    counts as well. *)
Theorem page_in_page_out e opt :
  output_path opt ≠ "" →
  let tr := r_trace (run (stream := stream) e opt) in
  ((write_calls tr ≤ length (pages_read tr))%nat
   ∧ (flush_calls tr ≤ header_pages tr)%nat)
  ∧ (failures tr = [] →
     write_calls tr = length (pages_read tr)
     ∧ length (pages_written tr) = length (pages_read tr)
     ∧ flush_calls tr = header_pages tr).
Proof.
  intros Hout tr. unfold tr.
  assert (∀ r, (bounded (tally_of (r_trace r))
                ∧ (failures (r_trace r) = [] → even (tally_of (r_trace r)))) →
            ((write_calls (r_trace r) ≤ length (pages_read (r_trace r)))%nat
             ∧ (flush_calls (r_trace r) ≤ header_pages (r_trace r))%nat)
            ∧ (failures (r_trace r) = [] →
               write_calls (r_trace r) = length (pages_read (r_trace r))
               ∧ length (pages_written (r_trace r)) = length (pages_read (r_trace r))
               ∧ flush_calls (r_trace r) = header_pages (r_trace r))) as Hconv.
  { intros r [(Hw & _ & Hf) He]. split; [split; assumption|exact He]. }
  apply Hconv. apply run_cases.
  - intros tr0 c msg Hs _ Hin Hc _. simpl.
    rewrite (quiet_tally _ (setup_quiet _ Hs)). split.
    + unfold bounded. simpl. lia.
    + intros _. unfold even. simpl. auto.
  - intros rfile inp tr0 _ _ _ He. congruence.
  - intros rfile inp tr0 Hs Hc _ _. apply process_balance; assumption.
  - intros rfile inp tr0 Hs Hc _ _ _. apply process_balance.
    + rewrite forallb_app, Hs. reflexivity.
    + rewrite clean_app, Hc. reflexivity.
Qed.

End Pagination.

(** ** One stream *)

Section Serial.
Context {stream : Type} `{!Libogg stream}.
Variable e : env.
Variable opt : options.
Variable wfile : option handle.
(** The serial number of the first page. *)
Variable s0 : Z.

Local Abbreviation state := (state stream).
Implicit Types st : state.

Lemma fed_ok_unfed tr ta : forallb unfed ta = true → fed_ok s0 tr → fed_ok s0 (tr ++ ta).
Proof.
  intros Hun Hf og Hin. apply in_app_iff in Hin as [Hin|Hin]; [auto|].
  rewrite forallb_forall in Hun. specialize (Hun _ Hin). discriminate.
Qed.

Lemma fed_ok_calm tr ta : forallb calm ta = true → fed_ok s0 tr → fed_ok s0 (tr ++ ta).
Proof. intros Hcalm. apply fed_ok_unfed, calm_unfed, Hcalm. Qed.

Lemma read_packets_tuned n st : tuned s0 st → tuned s0 (read_packets e opt wfile n st).
Proof.
  revert st. induction n as [|n IH]; intros st Hst; simpl; [assumption|].
  destruct Hst as (rs & Hrs & Hser). rewrite Hrs.
  destruct (ogg_stream_packetout rs) as [r rs'] eqn:Hout.
  apply packetout_serialno in Hout.
  assert (∀ st', reader_stream st' = Some rs' → tuned s0 st') as Hnew.
  { intros st' H'. exists rs'. split; [assumption|congruence]. }
  destruct r as [op| |]; [|apply Hnew; reflexivity|apply Hnew; reflexivity].
  set (st1 := set_packet_count _ _).
  assert (∀ st', reader_stream st' = Some rs' →
            tuned s0
              match wfile with
              | Some _ =>
                  let '(done, st0) := writer_packetin op st' in
                  if done then read_packets e opt wfile n st0
                  else set_error "ogg_stream_packetin: internal error" st0
              | None => read_packets e opt wfile n st'
              end) as Hcopy.
  { intros st' H'. destruct wfile; [|apply IH, Hnew, H'].
    destruct (writer_packetin_spec op st') as (done & ws & ->).
    destruct done; [apply IH|]; apply Hnew; exact H'. }
  destruct (packet_count st + 1 =? 1).
  { destruct (ot.status_eqb _ ot.ok); [apply Hcopy|apply Hnew]; reflexivity. }
  destruct (packet_count st + 1 =? 2); [|apply Hcopy; reflexivity].
  destruct (process_tags_spec e opt wfile op st1) as (rc & tr & ws & -> & _).
  destruct (ot.status_eqb rc ot.ok); [destruct wfile; [apply IH|]|];
    apply Hnew; reflexivity.
Qed.

Lemma flush_page_reader st : reader_stream (flush_page e st) = reader_stream st.
Proof.
  unfold flush_page.
  destruct (match writer_stream st with
            | Some ws => let '(r, ws') := ogg_stream_flush ws in (r, Some ws')
            | None => (None, None)
            end) as [flushed ws'].
  set (st1 := log (c_stream_flush flushed) (set_writer ws' st)).
  destruct (env_fwrite_ok e (length (trace st1))); [|reflexivity].
  set (st2 := log (c_write_page _ true) st1).
  change (writer_stream st2) with ws'. destruct (stream_check ws'); reflexivity.
Qed.

Lemma flush_page_calm st : grows_by calm st (flush_page e st).
Proof.
  unfold flush_page.
  destruct (match writer_stream st with
            | Some ws => let '(r, ws') := ogg_stream_flush ws in (r, Some ws')
            | None => (None, None)
            end) as [flushed ws'].
  set (st1 := log (c_stream_flush flushed) (set_writer ws' st)).
  assert (grows_by calm st st1) as H1
    by (eapply grows_by_log; [|reflexivity]; reflexivity).
  eapply grows_by_trans; [exact H1|].
  destruct (env_fwrite_ok e (length (trace st1)));
    [|eapply grows_by_log; [|reflexivity]; reflexivity].
  set (st2 := log (c_write_page _ true) st1).
  change (writer_stream st2) with ws'.
  destruct (stream_check ws');
    (eapply grows_by_log2; [| |reflexivity]; reflexivity).
Qed.

Lemma check_reader_calm (st : state) : grows_by calm st (check_reader st).
Proof.
  unfold check_reader. destruct (stream_check (reader_stream st));
    (eapply grows_by_log; [|reflexivity]; reflexivity).
Qed.

Lemma pure_refused st : pure s0 (trace st) → fed_ok s0 (trace st) → refused s0 st.
Proof.
  intros Hp Hf. split; [assumption|]. intros tr1 og tr2 Heq Hseen Hne.
  destruct (Hne (Hp _ _ _ Heq Hseen)).
Qed.

(** A round of the loop from the point where the streams are set up:
    [st1] is the state after [init_streams], its trace ends with the read
    of [og] and the calls [ti] of the set-up. *)
Lemma header_step og st0 st1 tr ti :
  init_streams wfile og st0 = st1 →
  (2 <=? packet_count st0) && bool_decide (is_Some wfile) = false →
  error st1 = None → tuned s0 st1 → sound_state st1 →
  trace st1 = tr ++ c_read_page (page_read og) :: ti →
  forallb calm ti = true → (ti = [] ∨ pg_serialno og = s0) →
  pure s0 tr → fed_ok s0 tr →
  let st' := fst (page_step e opt wfile og st0) in
  refused s0 st' ∧ (error st' = None → in_stream s0 st').
Proof.
  intros Hinit Hpass Herr (rs & Hrs & Hser) Hs1 Htr Hti Hfirst Hpure Hfed.
  assert (∀ ta, forallb readless ta = true → pg_serialno og = s0 →
            pure s0 (tr ++ c_read_page (page_read og) :: ta)) as Hgood.
  { intros ta Hcalm Hok tr1 og' tr2 Heq Hseen.
    destruct (read_split _ _ _ _ _ _ Hcalm Heq) as [(m & Hm & _)|(-> & -> & _)].
    - eapply Hpure; eauto.
    - assumption. }
  assert (fed_ok s0 (trace st1)) as Hf1.
  { rewrite Htr. apply fed_ok_unfed; [|assumption].
    change (c_read_page (page_read og) :: ti) with ([c_read_page (page_read og)] ++ ti).
    rewrite forallb_app, (calm_unfed _ Hti). reflexivity. }
  unfold page_step. rewrite Hpass, Hinit, Herr.
  unfold feed_page. rewrite Hrs.
  destruct (ogg_stream_pagein rs og) as [rs'|] eqn:Hin.
  2:{ simpl. split; [|discriminate]. split.
      - apply (fed_ok_unfed (trace st1) [c_stream_pagein og false]); auto.
      - intros tr1 og' tr2 Heq Hs Hne. simpl in Heq.
        rewrite Htr, <- app_assoc in Heq. simpl in Heq.
        assert (forallb readless (ti ++ [c_stream_pagein og false]) = true) as Hrl
          by (rewrite forallb_app, (calm_readless _ Hti); reflexivity).
        destruct (read_split _ _ _ _ _ _ Hrl Heq) as [(m & Hm & _)|(-> & -> & ->)].
        + destruct (Hne (Hpure _ _ _ Hm Hs)).
        + destruct Hfirst as [->|Hog]; [auto|destruct (Hne Hog)]. }
  apply pagein_serialno in Hin as [Hog Hrs'].
  set (st2 := log (c_stream_pagein og true) (set_reader (Some rs') st1)).
  change (error st2) with (error st1). rewrite Herr.
  assert (tuned s0 st2) as Ht2 by (exists rs'; split; [reflexivity|congruence]).
  assert (sound_state st2) as Hs2
    by (apply (sound_log _ (set_reader (Some rs') st1)); auto).
  pose proof (read_packets_tuned (fuel_of st2) st2 Ht2) as Ht3.
  pose proof (read_packets_grows e opt wfile (fuel_of st2) st2) as (ta & Hta & Hcalm).
  assert (forallb calm ta = true) as Hcalm'.
  { rewrite forallb_forall in *. intros c Hc. eapply inner_calm. eauto. }
  pose proof (read_packets_sound e opt wfile (fuel_of st2) st2 Hs2) as Hs3.
  set (st3 := read_packets _ _ _ _ _) in *.
  assert (∀ st' tb, tuned s0 st' → sound_state st' → forallb calm tb = true →
            trace st' = trace st3 ++ tb → in_stream s0 st') as Hfinal.
  { intros st' tb Ht' Hc' Hcb Htb. split; [assumption|]. split; [assumption|]. split.
    - rewrite Htb, Hta. simpl. rewrite Htr, <- !app_assoc. simpl.
      apply Hgood; [|congruence].
      rewrite forallb_app, (calm_readless _ Hti). simpl.
      rewrite forallb_app, (calm_readless _ Hcalm'), (calm_readless _ Hcb).
      reflexivity.
    - rewrite Htb, Hta. apply fed_ok_calm; [assumption|].
      apply fed_ok_calm; [assumption|].
      simpl. intros og' Hin'. apply in_app_iff in Hin' as [Hin'|[Heq|[]]]; [auto|].
      injection Heq as <-. congruence. }
  assert (∀ st', in_stream s0 st' → refused s0 st' ∧ (error st' = None → in_stream s0 st'))
    as Hwrap.
  { intros st' Hst'. split; [|auto]. apply pure_refused; apply Hst'. }
  assert (in_stream s0 st3) as H3.
  { apply (Hfinal st3 []); auto. rewrite app_nil_r. reflexivity. }
  destruct (error st3) eqn:E3; [apply Hwrap; exact H3|].
  destruct (check_reader_calm st3) as (tb & Htb & Hcb).
  assert (tuned s0 (check_reader st3)) as Ht4.
  { destruct Ht3 as (rs3 & Hr3 & Hser3). exists rs3. split; [|assumption].
    unfold check_reader. destruct (stream_check (reader_stream st3)); exact Hr3. }
  assert (sound_state (check_reader st3)) as Hs4 by (apply check_reader_sound; auto).
  destruct wfile.
  - simpl. apply Hwrap.
    destruct (flush_page_calm (check_reader st3)) as (tc & Htc & Hcc).
    apply (Hfinal _ (tb ++ tc)).
    + destruct Ht4 as (rs4 & Hr4 & Hser4). exists rs4.
      rewrite flush_page_reader. auto.
    + apply flush_page_sound, Hs4.
    + rewrite forallb_app, Hcb, Hcc. reflexivity.
    + rewrite Htc, Htb, app_assoc. reflexivity.
  - destruct (2 <=? packet_count (check_reader st3)); simpl; apply Hwrap;
      apply (Hfinal _ tb); auto.
Qed.

Lemma page_step_serial og st :
  in_stream s0 st → error st = None →
  let st' := fst (page_step e opt wfile og (log (c_read_page (page_read og)) st)) in
  refused s0 st' ∧ (error st' = None → in_stream s0 st').
Proof.
  intros ((rs & Hrs & Hser) & Hsound & Hpure & Hfed) Herr.
  pose proof (proj2 Hsound) as Hcount.
  set (st0 := log (c_read_page (page_read og)) st).
  assert (sound_state st0) as Hs0 by (apply sound_log; auto).
  destruct ((2 <=? packet_count st0) && bool_decide (is_Some wfile)) eqn:Hpass.
  { unfold page_step. rewrite Hpass.
    apply andb_prop in Hpass as [Hpc _]. apply Z.leb_le in Hpc.
    assert (2 ≤ packets_seen (trace st))%nat as Hseen.
    { unfold counted in Hcount. simpl in Hpc. lia. }
    assert (∀ b, pure s0 (trace (log (c_write_page og b) st0))
                 ∧ fed_ok s0 (trace (log (c_write_page og b) st0))) as Hw.
    { intros b. split.
      - simpl. rewrite <- app_assoc. simpl. intros tr1 og' tr2 Heq Hs.
        destruct (read_split _ _ [c_write_page og b] _ _ _ eq_refl Heq)
          as [(m & Hm & _)|(-> & -> & _)]; [eapply Hpure; eauto|lia].
      - apply (fed_ok_unfed (trace st0) [c_write_page og b]); auto.
        apply (fed_ok_unfed (trace st) [c_read_page (page_read og)]); auto. }
    destruct (env_fwrite_ok e (length (trace st0))); simpl.
    - destruct (Hw true) as [Hp Hf]. split; [apply pure_refused; assumption|].
      intros _. split; [exists rs; auto|]. split; [apply sound_log; auto|]. auto.
    - destruct (Hw false) as [Hp Hf]. split; [|simpl; discriminate].
      split; [exact Hf|]. intros tr1 og' tr2 Heq Hs Hne.
      destruct (Hne (Hp _ _ _ Heq Hs)). }
  apply (header_step og st0 st0 (trace st) []); auto.
  - unfold init_streams. destruct (Z.eqb_spec (packet_count st0) (-1)) as [Hm|];
      [|reflexivity].
    destruct Hs0 as [_ Hc0]. unfold counted in Hc0. lia.
  - exists rs. auto.
Qed.

(** The first round: the streams are set up with the serial number of the
    page. *)
Lemma first_step og tr0 :
  forallb setup_call tr0 = true → clean tr0 = true → pg_serialno og = s0 →
  let st' := fst (page_step e opt wfile og
                    (log (c_read_page (page_read og)) (init_state tr0))) in
  refused s0 st' ∧ (error st' = None → in_stream s0 st').
Proof.
  intros Hsetup Hclean Hog.
  set (st0 := log (c_read_page (page_read og)) (init_state tr0)).
  assert (forallb calm tr0 = true) as Hcalm0.
  { rewrite forallb_forall in *. intros c Hc. apply setup_calm. auto. }
  assert (pure s0 tr0) as Hp0.
  { intros tr1 og' tr2 Heq _. exfalso.
    apply (calm_not_read tr0 og' (calm_readless _ Hcalm0)). rewrite Heq.
    apply in_or_app. right. simpl. auto. }
  assert (fed_ok s0 tr0) as Hf0.
  { intros og' Hin. destruct (calm_not_fed _ _ _ Hcalm0 Hin). }
  assert (packets_seen tr0 = 0%nat) as Hseen0 by (apply setup_no_packets, Hsetup).
  (* a round that stops while the streams are set up *)
  assert (∀ st1 ti, trace st1 = tr0 ++ c_read_page (page_read og) :: ti →
            forallb calm ti = true → error st1 ≠ None →
            refused s0 st1 ∧ (error st1 = None → in_stream s0 st1)) as Hstop.
  { intros st1 ti Htr Hti Herr. split; [|intros H; destruct (Herr H)].
    apply pure_refused; rewrite Htr.
    - intros tr1 og' tr2 Heq Hs.
      destruct (read_split _ _ _ _ _ _ (calm_readless _ Hti) Heq)
        as [(m & Hm & _)|(-> & -> & _)]; [eapply Hp0; eauto|assumption].
    - apply fed_ok_unfed; [|assumption].
      change (c_read_page (page_read og) :: ti)
        with ([c_read_page (page_read og)] ++ ti).
      rewrite forallb_app, (calm_unfed _ Hti). reflexivity. }
  assert ((2 <=? packet_count st0) && bool_decide (is_Some wfile) = false) as Hpass
    by reflexivity.
  destruct (error (init_streams wfile og st0)) as [msg|] eqn:Herr.
  - unfold page_step. rewrite Hpass, Herr. simpl.
    revert Herr. unfold init_streams. simpl.
    destruct (ogg_stream_init _ _) as [rs|].
    + destruct wfile; [|discriminate].
      destruct (ogg_stream_init _ _) as [ws|]; [discriminate|].
      intros _. apply (Hstop _ [c_stream_init (pg_serialno og) true;
                                c_stream_init (pg_serialno og) false]);
        [simpl; rewrite <- !app_assoc; reflexivity|reflexivity|simpl; discriminate].
    + intros _. apply (Hstop _ [c_stream_init (pg_serialno og) false]);
        [simpl; rewrite <- !app_assoc; reflexivity|reflexivity|simpl; discriminate].
  - assert (∃ ti rs, trace (init_streams wfile og st0)
                     = tr0 ++ c_read_page (page_read og) :: ti
                     ∧ forallb calm ti = true
                     ∧ reader_stream (init_streams wfile og st0) = Some rs
                     ∧ stream_serialno rs = s0
                     ∧ packet_count (init_streams wfile og st0) = 0
                     ∧ clean ti = true ∧ packets_seen ti = 0%nat)
      as (ti & rs & Htr & Hti & Hrs & Hser & Hpc & Hcl & Hps).
    { revert Herr. unfold init_streams. simpl.
      destruct (ogg_stream_init _ _) as [rs|] eqn:Hinit; [|discriminate].
      apply init_serialno in Hinit.
      destruct wfile.
      - destruct (ogg_stream_init _ _) as [ws|]; [|discriminate].
        intros _. exists [c_stream_init (pg_serialno og) true;
                          c_stream_init (pg_serialno og) true], rs.
        simpl. rewrite <- !app_assoc. repeat split; auto. congruence.
      - intros _. exists [c_stream_init (pg_serialno og) true], rs.
        simpl. rewrite <- !app_assoc. repeat split; auto. congruence. }
    apply (header_step og st0 _ tr0 ti eq_refl); auto.
    + exists rs. auto.
    + split.
      * unfold accounted. rewrite Herr, Htr.
        change (c_read_page (page_read og) :: ti)
          with ([c_read_page (page_read og)] ++ ti).
        rewrite !clean_app, Hclean, Hcl. tauto.
      * unfold counted. rewrite Hpc, Htr.
        change (c_read_page (page_read og) :: ti)
          with ([c_read_page (page_read og)] ++ ti).
        rewrite !packets_seen_app, Hseen0, Hps. reflexivity.
Qed.

Lemma main_loop_serial pages ending st :
  (error st = None → in_stream s0 st) → refused s0 st →
  refused s0 (main_loop e opt wfile pages ending st).
Proof.
  revert st. induction pages as [|og pages IH]; intros st Hin Href; simpl.
  - destruct (error st) eqn:Herr; [assumption|].
    destruct (Hin eq_refl) as (_ & _ & Hp & Hf).
    assert (∀ st', trace st' = trace st ++ [c_read_page (page_end ending)] →
              refused s0 st') as Hend.
    { intros st' Htr. apply pure_refused; rewrite Htr.
      - intros tr1 og tr2 Heq Hs.
        destruct (calm_split _ [c_read_page (page_end ending)] _ _ _ eq_refl Heq)
          as (m & Hm & _).
        eapply Hp; eauto.
      - apply fed_ok_unfed; auto. }
    destruct ending; apply Hend; reflexivity.
  - destruct (error st) eqn:Herr; [assumption|].
    pose proof (page_step_serial og st (Hin eq_refl) Herr) as [Hr Hi].
    destruct (page_step e opt wfile og _) as [st' next]. simpl in Hr, Hi.
    destruct next; [apply IH|]; assumption.
Qed.

End Serial.

Section OneStream.
Context {stream : Type} `{!Libogg stream}.

Lemma process_one_stream e opt p_out rfile inp wfile fs tr0 :
  forallb setup_call tr0 = true → clean tr0 = true →
  one_stream (process (stream := stream) e opt p_out rfile inp wfile fs tr0).
Proof.
  intros Hsetup Hclean p0 rest. unfold process.
  set (st := main_loop _ _ _ _ _ _).
  destruct (finish_calls e opt p_out rfile wfile fs st) as (tail & Htail & Hq%finish_quiet).
  rewrite Htail, pages_read_app, (quiet_no_reads _ Hq), app_nil_r.
  assert (pages_read tr0 = []) as Hr0
    by (apply quiet_no_reads, setup_quiet, Hsetup).
  intros Hreads.
  assert (refused (pg_serialno p0) st) as [Hfed Href].
  { unfold st in *. clear st Htail. destruct (in_pages inp) as [|og pages].
    { exfalso. simpl in Hreads.
      destruct (in_end inp); simpl in Hreads;
        rewrite pages_read_app, Hr0 in Hreads; discriminate. }
    cbn [main_loop init_state error] in Hreads |- *.
    - pose proof (page_step_grows e opt wfile og
                    (log (c_read_page (page_read og)) (init_state tr0)))
        as (ta & Hta & _).
      assert (og = p0) as ->.
      { destruct (page_step e opt wfile og _) as [st' next]. simpl in Hta.
        assert (∃ tb, trace (if next then main_loop e opt wfile pages (in_end inp) st'
                             else st') = trace st' ++ tb) as (tb & Htb).
        { destruct next; [|exists []; rewrite app_nil_r; reflexivity].
          destruct (main_loop_grows e opt wfile pages (in_end inp) st')
            as (tb & Htb & _). eauto. }
        rewrite Htb, Hta in Hreads. simpl in Hreads.
        rewrite !pages_read_app, Hr0 in Hreads. simpl in Hreads. congruence. }
      pose proof (first_step e opt wfile (pg_serialno p0) p0 tr0 Hsetup Hclean eq_refl)
        as [Hr Hi].
      destruct (page_step e opt wfile p0 _) as [st' next]. simpl in Hr, Hi.
      destruct next; [apply main_loop_serial|]; assumption. }
  split.
  - intros og Hin. apply in_app_iff in Hin as [Hin|Hin]; [auto|].
    destruct (calm_not_fed _ _ _ (quiet_calm _ Hq) Hin).
  - intros tr1 og tr2 Heq Hs Hne.
    destruct (calm_split _ _ _ _ _ (calm_readless _ (quiet_calm _ Hq)) Heq)
      as (m & Hm & ->).
    destruct (Href _ _ _ Hm Hs Hne) as [-> Herr].
    destruct (finish_error e opt p_out rfile wfile fs st _ Herr)
      as (Hexit & tail' & Htail' & Hq' & Hmsg).
    rewrite Htail in Htail'. apply app_inv_head in Htail'. subst tail'.
    split; [exact Hexit|]. split; [reflexivity|]. split; [simpl; auto|].
    split.
    + simpl. apply quiet_no_reads, Hq.
    + change (write_calls ([c_stream_pagein og false] ++ tail) = 0%nat).
      unfold write_calls. rewrite List.filter_app, length_app. simpl.
      apply (quiet_no_writes _ Hq).
Qed.

(** C8: only pages with the serial number of the first page are taken
    into the decoder; and when a page with another serial number is read
    before two packets were seen, [ogg_stream_pagein] refuses it, which is
    the next call, no page is read or written after it, the message
    [ogg_stream_pagein: invalid page] goes to the standard error and [run]
    exits with failure. *)
Theorem foreign_page_refused e opt p0 rest :
  pages_read (r_trace (run (stream := stream) e opt)) = p0 :: rest →
  (∀ og, In (c_stream_pagein og true) (r_trace (run (stream := stream) e opt)) →
         pg_serialno og = pg_serialno p0)
  ∧ ∀ tr1 og tr2,
      r_trace (run (stream := stream) e opt)
      = tr1 ++ c_read_page (page_read og) :: tr2 →
      (packets_seen tr1 < 2)%nat → pg_serialno og ≠ pg_serialno p0 →
      exit_status (run (stream := stream) e opt) = EXIT_FAILURE
      ∧ hd_error tr2 = Some (c_stream_pagein og false)
      ∧ In (c_stderr "ogg_stream_pagein: invalid page") tr2
      ∧ pages_read tr2 = [] ∧ write_calls tr2 = 0%nat.
Proof.
  revert p0 rest. change (one_stream (run (stream := stream) e opt)).
  apply run_cases.
  - intros tr c msg Hs _ _ _ _ p0 rest Hreads. simpl in Hreads.
    rewrite (quiet_no_reads _ (setup_quiet _ Hs)) in Hreads. discriminate.
  - intros. apply process_one_stream; assumption.
  - intros. apply process_one_stream; assumption.
  - intros rfile inp tr Hs Hc _ _ _. apply process_one_stream.
    + rewrite forallb_app, Hs. reflexivity.
    + rewrite clean_app, Hc. reflexivity.
Qed.

End OneStream.

(** ** Read-only mode *)

Section ReadOnly.
Context {stream : Type} `{!Libogg stream}.
Variable e : env.
Variable opt : options.

Local Abbreviation state := (state stream).
Implicit Types st : state.

Lemma unshown_mute c st st' :
  mute c = true → packet_count st' = packet_count st →
  trace st' = trace st ++ [c] → unshown st → unshown st'.
Proof.
  intros Hc Hpc Htr (Hlt & Hp & Hlen). unfold unshown.
  destruct (mute_silent [c]) as [Hp' Ho']; [simpl; rewrite Hc; reflexivity|].
  rewrite Hpc, Htr, printed_app, packets_out_app, Hp, Hp', Ho', !app_nil_r. auto.
Qed.

Lemma shown_mute tr ta : forallb mute ta = true → shown e opt tr → shown e opt (tr ++ ta).
Proof.
  intros Hm Hs. destruct (mute_silent _ Hm) as [Hp Ho]. unfold shown.
  rewrite printed_app, packets_out_app, Hp, Ho, !app_nil_r. exact Hs.
Qed.

Lemma unshown_shown st : unshown st → shown e opt (trace st).
Proof. intros (_ & Hp & _). left. exact Hp. Qed.

Lemma read_packets_read_only n st :
  0 <= packet_count st → unshown st →
  let st' := read_packets e opt None n st in
  0 <= packet_count st'
  ∧ (unshown st' ∨ (packet_count st' = 2 ∧ shown e opt (trace st'))).
Proof.
  revert st. induction n as [|n IH]; intros st Hpc Hst; simpl; [auto|].
  destruct (reader_stream st) as [rs|]; [|auto].
  destruct (ogg_stream_packetout rs) as [r rs'].
  destruct r as [op| |].
  2,3: split; [exact Hpc|left];
    (eapply unshown_mute; [| | |exact Hst]; [| |reflexivity]; reflexivity).
  destruct Hst as (Hlt & Hp & Hlen).
  set (st1 := set_packet_count _ _).
  assert (printed (trace st1) = []
          ∧ packets_out (trace st1) = packets_out (trace st) ++ [op]) as [Hp1 Ho1].
  { simpl. rewrite printed_app, packets_out_app, Hp. auto. }
  destruct (Z.eqb_spec (packet_count st + 1) 1) as [H1|H1].
  { assert (∀ st', packet_count st' = 1 →
              trace st' = trace st1
                          ++ [c_validate_identification_header
                                (ot.validate_identification_header (packet op))] →
              unshown st') as Hun.
    { intros st' Hpc' Htr'. unfold unshown.
      rewrite Hpc', Htr', printed_app, packets_out_app, Hp1, Ho1, !app_nil_r, !length_app.
      simpl. split; [lia|]. split; [reflexivity|]. lia. }
    destruct (ot.status_eqb _ ot.ok).
    - apply IH; [simpl; lia|]. apply Hun; [simpl; lia|reflexivity].
    - simpl. split; [lia|left]. apply Hun; [simpl; lia|reflexivity]. }
  destruct (Z.eqb_spec (packet_count st + 1) 2) as [H2|H2]; [|lia].
  assert (∃ op1, packets_out (trace st) = [op1]) as (op1 & Hop1).
  { destruct (packets_out (trace st)) as [|op1 [|op2 l]]; simpl in Hlen;
      [lia|eauto|lia]. }
  unfold process_tags.
  destruct (ot.parse_tags (packet op)) as [tags|] eqn:Hparse; simpl.
  - split; [lia|right]. split; [lia|]. right. exists op1, op, tags.
    rewrite !printed_app, !packets_out_app, Hp, Hop1. simpl. auto.
  - split; [lia|right]. split; [lia|]. left.
    rewrite !printed_app, Hp. reflexivity.
Qed.

Lemma page_step_read_only og st :
  unshown st → (packet_count st = -1 ∨ 0 <= packet_count st) →
  let '(st', next) := page_step e opt None og st in
  shown e opt (trace st')
  ∧ (next = true → unshown st' ∧ (packet_count st' = -1 ∨ 0 <= packet_count st')).
Proof.
  intros Hst Hpc. unfold page_step. rewrite andb_false_r.
  assert (unshown (init_streams None og st)
          ∧ (error (init_streams None og st) = None →
             0 <= packet_count (init_streams None og st))) as [H1 H1'].
  { unfold init_streams. destruct (Z.eqb_spec (packet_count st) (-1)) as [Hm|Hm].
    - destruct Hst as (_ & Hp & Hlen). rewrite Hm in Hlen. simpl in Hlen.
      destruct (ogg_stream_init _ _) as [rs|]; unfold unshown; simpl;
        rewrite printed_app, packets_out_app, Hp, !length_app, Hlen; simpl;
        (split; [split; [lia|split; [reflexivity|]]|]); intros;
        try discriminate; lia.
    - split; [assumption|]. intros _. lia. }
  destruct (error (init_streams None og st)); [split; [apply unshown_shown, H1|discriminate]|].
  specialize (H1' eq_refl).
  set (st1 := init_streams None og st) in *.
  assert (unshown (feed_page og st1) ∧ packet_count (feed_page og st1) = packet_count st1)
    as [H2 H2'].
  { unfold feed_page. destruct (reader_stream st1) as [rs|];
      [destruct (ogg_stream_pagein rs og)|];
      (split; [|reflexivity]);
      (eapply unshown_mute; [| | |exact H1]; [| |reflexivity]; reflexivity). }
  destruct (error (feed_page og st1)); [split; [apply unshown_shown, H2|discriminate]|].
  set (st2 := feed_page og st1) in *.
  destruct (read_packets_read_only (fuel_of st2) st2) as [H3 H3']; [lia|assumption|].
  set (st3 := read_packets _ _ _ _ _) in *.
  assert (shown e opt (trace st3)) as Hs3
    by (destruct H3' as [H3'|[_ H3']]; [apply unshown_shown|]; assumption).
  destruct (error st3); [split; [exact Hs3|discriminate]|].
  assert (∃ c, trace (check_reader st3) = trace st3 ++ [c] ∧ mute c = true
               ∧ packet_count (check_reader st3) = packet_count st3) as (c & Hc & Hm & Hpc4).
  { unfold check_reader. destruct (stream_check (reader_stream st3)); eexists;
      (split; [reflexivity|]); split; reflexivity. }
  destruct (Z.leb_spec 2 (packet_count (check_reader st3))) as [Hge|Hlt].
  - split; [|discriminate]. rewrite Hc. apply shown_mute; [|exact Hs3].
    simpl. rewrite Hm. reflexivity.
  - destruct H3' as [H3'|[H3' _]]; [|lia].
    assert (unshown (check_reader st3)) as H4
      by (apply (unshown_mute c st3); auto).
    split; [apply unshown_shown, H4|]. intros _. split; [exact H4|lia].
Qed.

Lemma main_loop_read_only pages ending st :
  unshown st → (packet_count st = -1 ∨ 0 <= packet_count st) →
  shown e opt (trace (main_loop e opt None pages ending st)).
Proof.
  revert st. induction pages as [|og pages IH]; intros st Hst Hpc; simpl.
  - destruct (error st); [apply unshown_shown, Hst|].
    destruct ending; simpl; apply (shown_mute _ [_]); auto using unshown_shown.
  - destruct (error st); [apply unshown_shown, Hst|].
    pose proof (page_step_read_only og (log (c_read_page (page_read og)) st)) as Hstep.
    destruct (page_step e opt None og _) as [st' next].
    destruct Hstep as [Hs Hn].
    + eapply unshown_mute; [| | |exact Hst]; [| |reflexivity]; reflexivity.
    + exact Hpc.
    + destruct next; [|exact Hs]. destruct (Hn eq_refl). apply IH; assumption.
Qed.

End ReadOnly.

Section PrintMode.
Context {stream : Type} `{!Libogg stream}.

(** C9, as amended: without an output path and without in-place editing,
    [run] prints at most once, and what it prints is the comment list
    parsed from the second packet after the requested edits were applied
    to it, which is the parsed list itself when no edit is requested; no
    page is written, no packet is submitted to an encoder, no file is
    opened for writing and the files that exist are the same as before. *)
Theorem print_mode_shows_edited e opt :
  path_out opt = "" → inplace opt = None →
  let r := run (stream := stream) e opt in
  (printed (r_trace r) = [] ∨
   ∃ op1 op2 tags,
     packets_out (r_trace r) = [op1; op2]
     ∧ ot.parse_tags (packet op2) = Some tags
     ∧ printed (r_trace r) = [ot.comments (edit_tags e opt tags)])
  ∧ (no_edits opt → ∀ tags, edit_tags e opt tags = tags)
  ∧ write_calls (r_trace r) = 0%nat
  ∧ submitted (r_trace r) = []
  ∧ unopened (r_trace r) = true
  ∧ r_fs r = env_fs e.
Proof.
  intros Hout Hin r.
  assert (output_path opt = "") as Hpath by (unfold output_path; rewrite Hin; exact Hout).
  assert (no_edits opt → ∀ tags, edit_tags e opt tags = tags) as Hid.
  { intros (Hd & Hdel & Hs & Ha) tags. unfold edit_tags.
    rewrite Hd, Hdel, Hs, Ha. reflexivity. }
  enough (shown e opt (r_trace r) ∧ write_calls (r_trace r) = 0%nat
          ∧ submitted (r_trace r) = [] ∧ unopened (r_trace r) = true
          ∧ r_fs r = env_fs e) as (H1 & H2 & H3 & H4 & H5) by auto 10.
  unfold r. apply run_cases.
  - intros tr c msg Hs Hu _ _ _. simpl.
    destruct (mute_silent _ (setup_mute _ Hs)) as [Hp _].
    destruct (setup_read_only _ Hs) as [Hw Hsub].
    split; [left; exact Hp|]. auto.
  - intros rfile inp tr Hs Hc Hu _. unfold process.
    set (st := main_loop _ _ _ _ _ _).
    destruct (finish_calls e opt "" rfile None (env_fs e) st) as (tail & -> & Ht).
    destruct (main_loop_grows e opt None (in_pages inp) (in_end inp) (init_state tr))
      as (ta & Hta & Hloop). fold st in Hta. simpl in Hta.
    destruct (loop_calls_read_only _ Hloop) as (Hw & _ & Hsub).
    destruct (setup_read_only _ Hs) as [Hw0 Hsub0].
    destruct (finish_read_only _ Ht) as [Hw1 Hsub1].
    split.
    { apply shown_mute; [apply finish_mute, Ht|]. unfold st.
      apply main_loop_read_only; [|left; reflexivity].
      destruct (mute_silent _ (setup_mute _ Hs)) as [Hp Ho].
      unfold unshown. simpl. rewrite Hp, Ho. split; [lia|]. split; reflexivity. }
    rewrite Hta. unfold write_calls in *.
    rewrite !List.filter_app, !length_app, !submitted_app, !unopened_app.
    rewrite Hw, Hw0, Hw1, Hsub, Hsub0, Hsub1, Hu, (finish_unopened _ Ht),
      (loop_calls_unopened _ _ Hloop).
    repeat split. apply finish_fs_read_only, Hin.
  - intros rfile inp tr _ _ _ Hp. rewrite Hpath in Hp. discriminate.
  - intros rfile inp tr _ _ _ Hp. destruct (Hp Hpath).
Qed.

End PrintMode.

(** ** The edits *)

(** C2: the edited block keeps the vendor string, and its comments are
    those the three steps give in their order: the list cleared, or else
    without the entries whose key matches a name to delete; then replaced
    by the supplied list when all tags are set; then the new comments at
    the end in their order. *)
Theorem edits_applied_in_order e opt tags :
  edit_tags e opt tags
  = {| ot.vendor := ot.vendor tags;
       ot.comments := edits_in_order e opt (ot.comments tags) |}.
Proof. apply edit_tags_spec. Qed.

(** C4: deleting one name keeps exactly the entries whose key does not
    match it, in their order; an entry matches when it is [k=v] with [k]
    equal to the name up to the case of letters; when no entry matches the
    list is unchanged, and with K matching entries the list is K shorter. *)
Theorem delete_key_exactly tags name :
  let cs := ot.comments tags in
  let cs' := ot.comments (fold_left ot.delete_tags [name] tags) in
  (∀ c, ot.key_matches name c = true ↔ has_key name c)
  ∧ ((∀ c, In c cs → ¬ has_key name c) → cs' = cs)
  ∧ cs' = List.filter (λ c, negb (ot.key_matches name c)) cs
  ∧ sublist cs' cs
  ∧ length cs = (length cs' + length (List.filter (ot.key_matches name) cs))%nat
  ∧ (∀ c, In c cs' ↔ In c cs ∧ ¬ has_key name c).
Proof.
  intros cs cs'.
  assert (cs' = List.filter (λ c, negb (ot.key_matches name c)) cs) as Hcs' by reflexivity.
  split; [apply key_matches_spec|].
  split.
  { intros Hnone. rewrite Hcs'. apply filter_all. intros c Hin.
    destruct (ot.key_matches name c) eqn:Hm; [|reflexivity].
    apply key_matches_spec in Hm. destruct (Hnone c Hin Hm). }
  split; [exact Hcs'|].
  split; [rewrite Hcs'; apply filter_sublist|].
  split; [rewrite Hcs'; apply filter_split_length|].
  intros c. rewrite Hcs', List.filter_In, <- key_matches_spec.
  destruct (ot.key_matches name c); simpl; intuition congruence.
Qed.

Section Vendor.
Context {stream : Type} `{!Libogg stream}.

(** C5: whatever the edits, the edited block has the vendor string of the
    parsed one; in write mode the packet submitted to the encoder is the
    rendering of the edited block; whenever that packet parses, its vendor
    string is the one of the input packet, and it parses back to the
    edited block when the lengths fit in 32 bits. *)
Theorem vendor_untouched e opt h op (st : state stream) tags :
  ot.parse_tags (packet op) = Some tags →
  let tags' := edit_tags e opt tags in
  let st' := snd (process_tags e opt (Some h) op st) in
  ot.vendor tags' = ot.vendor tags
  ∧ submitted (trace st') = submitted (trace st) ++ [render_tags tags']
  ∧ (∀ t, ot.parse_tags (packet (render_tags tags')) = Some t →
          ot.vendor t = ot.vendor tags)
  ∧ (fits32 tags' → ot.parse_tags (packet (render_tags tags')) = Some tags').
Proof.
  intros Hparse tags' st'.
  assert (ot.vendor tags' = ot.vendor tags) as Hv
    by (unfold tags'; rewrite edit_tags_spec; reflexivity).
  split; [exact Hv|]. split.
  { unfold st', process_tags. rewrite Hparse. fold tags'.
    destruct (writer_packetin_spec (render_tags tags') st) as (done & ws & ->).
    destruct done; simpl; rewrite submitted_app; reflexivity. }
  split.
  - intros t Ht. rewrite <- Hv. apply parse_render_vendor; [|exact Ht].
    rewrite Hv. eapply parse_vendor_length, Hparse.
  - apply parse_render.
Qed.

End Vendor.

(** ** Runs on the example streams *)

(** With each header on a page of its own the output is the input. *)
Example ex_round_trip :
  pages_written (r_trace (ex_run ex_stream (ex_audio 0) "out.opus" [])) = ex_stream.
Proof. vm_compute. reflexivity. Qed.

(** C1: with the comment header split over two pages the run succeeds but
    the pages written are not the pages read. After the first of the two
    pages [ogg_stream_flush] has nothing to flush and [run] writes its
    local [page] as it is ([junk]); after the second the whole comment
    header comes out as one page that does not continue a packet. *)
Theorem split_comment_header_not_identical junk :
  exit_status (ex_run ex_split_stream junk "out.opus" []) = EXIT_SUCCESS
  ∧ pages_written (r_trace (ex_run ex_split_stream junk "out.opus" []))
    = [ex_first; junk;
       ex_page 7 false false 1 [255; 38] (ot.render_tags_bytes ex_long_tags);
       ex_audio 3]
  ∧ pages_written (r_trace (ex_run ex_split_stream junk "out.opus" []))
    ≠ ex_split_stream.
Proof.
  split; [vm_compute; reflexivity|].
  assert (pages_written (r_trace (ex_run ex_split_stream junk "out.opus" []))
          = [ex_first; junk;
             ex_page 7 false false 1 [255; 38] (ot.render_tags_bytes ex_long_tags);
             ex_audio 3]) as Heq by (vm_compute; reflexivity).
  split; [exact Heq|]. rewrite Heq. unfold ex_split_stream.
  intros H. injection H as _ H. discriminate H.
Qed.

(** C7: on the stream whose comment header is split over two pages the
    header phase feeds three pages to the decoder and calls
    [ogg_stream_flush] three times, but only two pages are flushed: the
    identification header, and the whole comment header as one page of
    two segments.  Three pages in, two pages out, and the segment tables of
    the pages flushed are not those of the pages read. *)
Theorem split_header_two_pages_flushed junk :
  exit_status (ex_run ex_split_stream junk "out.opus" []) = EXIT_SUCCESS
  ∧ header_pages (r_trace (ex_run ex_split_stream junk "out.opus" [])) = 3%nat
  ∧ flush_calls (r_trace (ex_run ex_split_stream junk "out.opus" [])) = 3%nat
  ∧ pages_flushed (r_trace (ex_run ex_split_stream junk "out.opus" []))
    = [ex_first;
       ex_page 7 false false 1 [255; 38] (ot.render_tags_bytes ex_long_tags)]
  ∧ map pg_lacing (take 3 (pages_read (r_trace (ex_run ex_split_stream junk "out.opus" []))))
    = [[19]; [255]; [38]]
  ∧ length (pages_flushed (r_trace (ex_run ex_split_stream junk "out.opus" [])))
    ≠ header_pages (r_trace (ex_run ex_split_stream junk "out.opus" [])).
Proof.
  assert (header_pages (r_trace (ex_run ex_split_stream junk "out.opus" [])) = 3%nat)
    as Hfed by (vm_compute; reflexivity).
  assert (pages_flushed (r_trace (ex_run ex_split_stream junk "out.opus" []))
          = [ex_first;
             ex_page 7 false false 1 [255; 38] (ot.render_tags_bytes ex_long_tags)])
    as Hout by (vm_compute; reflexivity).
  split; [vm_compute; reflexivity|]. split; [exact Hfed|].
  split; [vm_compute; reflexivity|]. split; [exact Hout|].
  split; [vm_compute; reflexivity|]. rewrite Hout, Hfed. simpl. lia.
Qed.


(** C9 as stated fails: in read-only mode with a comment to add, what is
    printed is not the parsed list. *)
Lemma print_mode_counterexample :
  ot.parse_tags (pg_body (ex_comment_page ex_tags)) = Some ex_tags
  ∧ printed (r_trace (ex_run ex_stream (ex_audio 0) "" ["GENRE=G"]))
    = [["ARTIST=A"; "ARTIST=B"; "TITLE=T"; "GENRE=G"]]
  ∧ printed (r_trace (ex_run ex_stream (ex_audio 0) "" ["GENRE=G"]))
    ≠ [ot.comments ex_tags].
Proof.
  split; [vm_compute; reflexivity|].
  assert (printed (r_trace (ex_run ex_stream (ex_audio 0) "" ["GENRE=G"]))
          = [["ARTIST=A"; "ARTIST=B"; "TITLE=T"; "GENRE=G"]]) as Heq
    by (vm_compute; reflexivity).
  split; [exact Heq|]. rewrite Heq. discriminate.
Qed.

(** ** The theorems at work on the example streams *)


Lemma delete_key_exactly_witness :
  ot.comments (fold_left ot.delete_tags ["artist"] ex_tags) = ["TITLE=T"]
  ∧ ot.comments (fold_left ot.delete_tags ["album"] ex_tags) = ot.comments ex_tags.
Proof.
  split.
  - destruct (delete_key_exactly ex_tags "artist") as (_ & _ & H & _).
    rewrite H. vm_compute. reflexivity.
  - destruct (delete_key_exactly ex_tags "album") as (Hkey & H & _).
    apply H. intros c Hin Hc. apply Hkey in Hc.
    simpl in Hin. destruct Hin as [<-|[<-|[<-|[]]]]; vm_compute in Hc; discriminate.
Defined.

Lemma vendor_untouched_witness :
  ot.parse_tags (ot.render_tags_bytes ex_tags) = Some ex_tags
  ∧ ot.vendor (edit_tags (ex_env [] (ex_audio 0)) (ex_opt "out.opus" ["GENRE=G"]) ex_tags)
    = "libopus".
Proof.
  assert (ot.parse_tags (ot.render_tags_bytes ex_tags) = Some ex_tags) as Hparse
    by (vm_compute; reflexivity).
  split; [exact Hparse|].
  destruct (vendor_untouched (stream := framing.ogg_stream_state)
              (ex_env [] (ex_audio 0)) (ex_opt "out.opus" ["GENRE=G"]) h_stdout
              {| packet := ot.render_tags_bytes ex_tags; b_o_s := false; e_o_s := false;
                 granulepos := 0; packetno := 1 |}
              (init_state []) ex_tags Hparse) as (Hv & _).
  exact Hv.
Defined.

Lemma failed_run_removes_output_witness :
  In (c_fopen "out.opus" "w" true)
    (r_trace (ex_run ex_short_stream (ex_audio 0) "out.opus" []))
  ∧ (packets_seen (r_trace (ex_run ex_short_stream (ex_audio 0) "out.opus" [])) < 2)%nat
  ∧ exit_status (ex_run ex_short_stream (ex_audio 0) "out.opus" []) = EXIT_FAILURE
  ∧ ("out.opus" ∉ r_fs (ex_run ex_short_stream (ex_audio 0) "out.opus" []))
  ∧ last (r_trace (ex_run ex_short_stream (ex_audio 0) "out.opus" []))
    = Some (c_remove "out.opus").
Proof.
  unfold ex_run.
  assert (In (c_fopen "out.opus" "w" true)
            (r_trace (run (stream := framing.ogg_stream_state)
                       (ex_env ex_short_stream (ex_audio 0)) (ex_opt "out.opus" [])))) as Hopen
    by (vm_compute; auto 10).
  assert (packets_seen
            (r_trace (run (stream := framing.ogg_stream_state)
                       (ex_env ex_short_stream (ex_audio 0)) (ex_opt "out.opus" [])))
          < 2)%nat as Hfew by (vm_compute; lia).
  split; [exact Hopen|]. split; [exact Hfew|].
  exact (failed_run_removes_output (stream := framing.ogg_stream_state)
           (ex_env ex_short_stream (ex_audio 0)) (ex_opt "out.opus" []) "out.opus"
           Hopen (or_introl Hfew)).
Defined.

Lemma page_in_page_out_witness :
  output_path (ex_opt "out.opus" []) ≠ ""
  ∧ write_calls (r_trace (ex_run ex_stream (ex_audio 0) "out.opus" []))
    = length (pages_read (r_trace (ex_run ex_stream (ex_audio 0) "out.opus" [])))
  ∧ flush_calls (r_trace (ex_run ex_stream (ex_audio 0) "out.opus" []))
    = header_pages (r_trace (ex_run ex_stream (ex_audio 0) "out.opus" [])).
Proof.
  unfold ex_run.
  assert (output_path (ex_opt "out.opus" []) ≠ "") as Hout by (vm_compute; discriminate).
  assert (failures
            (r_trace (run (stream := framing.ogg_stream_state)
                       (ex_env ex_stream (ex_audio 0)) (ex_opt "out.opus" [])))
          = []) as Hclean by (vm_compute; reflexivity).
  split; [exact Hout|].
  destruct (page_in_page_out (stream := framing.ogg_stream_state)
              (ex_env ex_stream (ex_audio 0)) (ex_opt "out.opus" []) Hout) as [_ Heven].
  destruct (Heven Hclean) as (Hw & _ & Hf). split; [exact Hw|exact Hf].
Defined.

Lemma foreign_page_refused_witness :
  pages_read (r_trace (ex_run ex_mixed_stream (ex_audio 0) "out.opus" []))
  = [ex_first; ex_foreign]
  ∧ exit_status (ex_run ex_mixed_stream (ex_audio 0) "out.opus" []) = EXIT_FAILURE.
Proof.
  unfold ex_run.
  assert (pages_read
            (r_trace (run (stream := framing.ogg_stream_state)
                       (ex_env ex_mixed_stream (ex_audio 0)) (ex_opt "out.opus" [])))
          = [ex_first; ex_foreign]) as Hreads by (vm_compute; reflexivity).
  split; [exact Hreads|].
  destruct (foreign_page_refused (stream := framing.ogg_stream_state)
              (ex_env ex_mixed_stream (ex_audio 0)) (ex_opt "out.opus" [])
              ex_first [ex_foreign] Hreads) as [_ Href].
  assert (∃ tr1 tr2,
            r_trace (run (stream := framing.ogg_stream_state)
                      (ex_env ex_mixed_stream (ex_audio 0)) (ex_opt "out.opus" []))
            = tr1 ++ c_read_page (page_read ex_foreign) :: tr2
            ∧ (packets_seen tr1 < 2)%nat) as (tr1 & tr2 & Hsplit & Hseen).
  { exists
      (take 15
         (r_trace (run (stream := framing.ogg_stream_state)
                    (ex_env ex_mixed_stream (ex_audio 0)) (ex_opt "out.opus" [])))),
      (drop 16
         (r_trace (run (stream := framing.ogg_stream_state)
                    (ex_env ex_mixed_stream (ex_audio 0)) (ex_opt "out.opus" [])))).
    split; [vm_compute; reflexivity|vm_compute; lia]. }
  destruct (Href tr1 ex_foreign tr2 Hsplit Hseen) as [Hexit _];
    [vm_compute; discriminate|exact Hexit].
Defined.

Lemma print_mode_shows_edited_witness :
  path_out (ex_opt "" ["GENRE=G"]) = "" ∧ inplace (ex_opt "" ["GENRE=G"]) = None
  ∧ write_calls (r_trace (ex_run ex_stream (ex_audio 0) "" ["GENRE=G"])) = 0%nat
  ∧ r_fs (ex_run ex_stream (ex_audio 0) "" ["GENRE=G"]) = {["in.opus"]}.
Proof.
  unfold ex_run. split; [reflexivity|]. split; [reflexivity|].
  destruct (print_mode_shows_edited (stream := framing.ogg_stream_state)
              (ex_env ex_stream (ex_audio 0)) (ex_opt "" ["GENRE=G"]) eq_refl eq_refl)
    as (_ & _ & Hw & _ & _ & Hfs).
  split; [exact Hw|exact Hfs].
Defined.

Lemma same_file_refused_witness :
  path_in (ex_opt "link.opus" []) ≠ "-" ∧ path_out (ex_opt "link.opus" []) ≠ "-"
  ∧ path_out (ex_opt "link.opus" []) ≠ ""
  ∧ env_realpath (ex_env ex_stream (ex_audio 0)) "in.opus" = Some "in.opus"
  ∧ env_realpath (ex_env ex_stream (ex_audio 0)) "link.opus" = Some "in.opus"
  ∧ exit_status (ex_run ex_stream (ex_audio 0) "link.opus" []) = EXIT_FAILURE.
Proof.
  unfold ex_run.
  assert (path_in (ex_opt "link.opus" []) ≠ "-") as H1 by (simpl; discriminate).
  assert (path_out (ex_opt "link.opus" []) ≠ "-") as H2 by (simpl; discriminate).
  assert (path_out (ex_opt "link.opus" []) ≠ "") as H3 by (simpl; discriminate).
  repeat (split; [assumption || reflexivity|]).
  destruct (same_file_refused (stream := framing.ogg_stream_state)
              (ex_env ex_stream (ex_audio 0)) (ex_opt "link.opus" []) "in.opus"
              H1 H2 H3 eq_refl eq_refl) as [Hrun _].
  rewrite Hrun. reflexivity.
Defined.

(** * More of [run]: its failures, its files and its loop *)

Section Paths.
Context {stream : Type} `{!Libogg stream}.

(** [run] call by call: the four failures before the loop, and the three
    ways into it. *)
Lemma run_paths e opt (Q : result → Prop) :
  (path_out opt ≠ "" →
   same_file (env_realpath e) (path_in opt) (path_out opt) = true →
   Q (failure (env_fs e)
        [c_same_file (path_in opt) (path_out opt) true;
         c_stderr "error: the input and output files are the same"])) →
  (path_in opt ≠ "-" → env_fopen_r e (path_in opt) = None →
   Q (failure (env_fs e)
        (compared opt ++ [c_fopen (path_in opt) "r" false; c_stderr "fopen"]))) →
  (∀ inp, opened_input e opt = Some inp →
     output_path opt ≠ "" → output_path opt ≠ "-" →
     guarded opt = true → output_path opt ∈ env_fs e →
     Q (failure (env_fs e)
          (compared opt ++ input_opened opt
           ++ [c_access (output_path opt) true;
               c_stderr (exists_message (output_path opt));
               c_fclose (input_handle opt)]))) →
  (∀ inp, opened_input e opt = Some inp →
     output_path opt ≠ "" → output_path opt ≠ "-" →
     (guarded opt = true → output_path opt ∉ env_fs e) →
     env_fopen_w e (output_path opt) = false →
     Q (failure (env_fs e)
          (prelude opt
           ++ [c_fopen (output_path opt) "w" false; c_stderr "fopen";
               c_fclose (input_handle opt)]))) →
  (∀ inp, opened_input e opt = Some inp → output_path opt = "" →
     Q (process (stream := stream) e opt "" (input_handle opt) inp None (env_fs e)
          (compared opt ++ input_opened opt))) →
  (∀ inp, opened_input e opt = Some inp → output_path opt = "-" →
     Q (process (stream := stream) e opt "-" (input_handle opt) inp (Some h_stdout)
          (env_fs e) (compared opt ++ input_opened opt))) →
  (∀ inp, opened_input e opt = Some inp →
     output_path opt ≠ "" → output_path opt ≠ "-" →
     (guarded opt = true → output_path opt ∉ env_fs e) →
     env_fopen_w e (output_path opt) = true →
     Q (process (stream := stream) e opt (output_path opt) (input_handle opt) inp
          (Some (h_file (output_path opt))) (env_fs e ∪ {[output_path opt]})
          (prelude opt ++ [c_fopen (output_path opt) "w" true]))) →
  Q (run (stream := stream) e opt).
Proof.
  intros Hsame Hin Hexists Hout Hnone Hstdout Hfile. unfold run.
  set (same := same_file (env_realpath e) (path_in opt) (path_out opt)) in *.
  destruct (negb (String.eqb (path_out opt) "") && same) eqn:Hrs.
  { apply andb_prop in Hrs as [Hr Hs]. rewrite Hr. simpl. rewrite Hs. apply Hsame; [|exact Hs].
    intros Heq. rewrite Heq in Hr. discriminate. }
  assert ((if negb (String.eqb (path_out opt) "")
           then [c_same_file (path_in opt) (path_out opt) same] else [])
          = compared opt) as ->.
  { unfold compared. destruct (String.eqb (path_out opt) ""); [reflexivity|].
    simpl in Hrs. rewrite Hrs. reflexivity. }
  clear Hsame Hrs. revert Hin Hexists Hout Hnone Hstdout Hfile.
  unfold prelude, opened_input, input_opened, input_handle.
  destruct (String.eqb_spec (path_in opt) "-") as [Hdash|Hdash].
  2: destruct (env_fopen_r e (path_in opt)) as [inp0|];
       [|intros Hin _ _ _ _ _; apply Hin; [exact Hdash|reflexivity]].
  all: intros _ Hexists Hout Hnone Hstdout Hfile.
  all: destruct (String.eqb_spec (output_path opt) "") as [He|He];
    [rewrite He; rewrite ?app_nil_r in *; eapply Hnone; [reflexivity|exact He]|].
  all: destruct (String.eqb_spec (output_path opt) "-") as [Hd|Hd];
    [rewrite Hd; rewrite ?app_nil_r in *; eapply Hstdout; [reflexivity|exact Hd]|].
  all: unfold checked in *; fold (guarded opt) in *.
  all: destruct (guarded opt) eqn:Hg; cbn [andb].
  all: try (destruct (bool_decide (output_path opt ∈ env_fs e)) eqn:Hfound;
            [apply bool_decide_eq_true in Hfound; rewrite <- ?app_assoc;
             eapply Hexists; [reflexivity|exact He|exact Hd|reflexivity|exact Hfound]|
             apply bool_decide_eq_false in Hfound]).
  all: destruct (env_fopen_w e (output_path opt)) eqn:Hw; rewrite <- ?app_assoc in *;
    rewrite ?app_nil_r in *; simpl app in *.
  all: try (eapply Hfile; [reflexivity|exact He|exact Hd| |reflexivity]; intros;
            assumption || discriminate).
  all: try (eapply Hout; [reflexivity|exact He|exact Hd| |reflexivity]; intros;
            assumption || discriminate).
Qed.

End Paths.

Section Finish.
Context {stream : Type} `{!Libogg stream}.

(** The five ways through the end of [run], lines 183 to 200. *)
Lemma finish_cases e opt p_out rfile wfile fs (st : state stream) (Q : result → Prop) :
  (∀ msg, final_error st = Some msg →
     negb (String.eqb p_out "") && negb (is_stdout wfile) = true →
     Q {| exit_status := EXIT_FAILURE; r_fs := fs ∖ {[p_out]};
          r_trace := trace st ++ closes rfile wfile ++ [c_stderr msg; c_remove p_out] |}) →
  (∀ msg, final_error st = Some msg →
     negb (String.eqb p_out "") && negb (is_stdout wfile) = false →
     Q {| exit_status := EXIT_FAILURE; r_fs := fs;
          r_trace := trace st ++ closes rfile wfile ++ [c_stderr msg] |}) →
  (∀ sfx, final_error st = None → inplace opt = Some sfx →
     env_rename_ok e p_out (path_in opt) = true →
     Q {| exit_status := EXIT_SUCCESS; r_fs := (fs ∖ {[p_out]}) ∪ {[path_in opt]};
          r_trace := trace st ++ closes rfile wfile
                     ++ [c_rename p_out (path_in opt) true] |}) →
  (∀ sfx, final_error st = None → inplace opt = Some sfx →
     env_rename_ok e p_out (path_in opt) = false →
     Q {| exit_status := EXIT_FAILURE; r_fs := fs;
          r_trace := trace st ++ closes rfile wfile
                     ++ [c_rename p_out (path_in opt) false; c_stderr "rename"] |}) →
  (final_error st = None → inplace opt = None →
     Q {| exit_status := EXIT_SUCCESS; r_fs := fs;
          r_trace := trace st ++ closes rfile wfile |}) →
  Q (finish e opt p_out rfile wfile fs st).
Proof.
  intros Hrm Herr Hmv Hnomv Hok. unfold finish. fold (final_error st).
  assert (match wfile with
          | Some f => (trace st ++ [c_fclose rfile]) ++ [c_fclose f]
          | None => trace st ++ [c_fclose rfile]
          end = trace st ++ closes rfile wfile) as ->.
  { unfold closes. destruct wfile; [rewrite <- app_assoc|]; reflexivity. }
  destruct (final_error st) as [msg|].
  - destruct (negb (String.eqb p_out "") && negb (is_stdout wfile)) eqn:Hremove.
    + rewrite <- !app_assoc. apply Hrm; auto.
    + rewrite <- !app_assoc. apply Herr; auto.
  - destruct (inplace opt) as [sfx|].
    + destruct (env_rename_ok e p_out (path_in opt)) eqn:Hren; rewrite <- !app_assoc.
      * eapply Hmv; eauto.
      * eapply Hnomv; eauto.
    + apply Hok; reflexivity.
Qed.

End Finish.

(** X1: [same_file] gives the same answer when its two paths are
    exchanged. *)
Theorem same_file_sym realpath p q : same_file realpath p q = same_file realpath q p.
Proof.
  unfold same_file. rewrite (orb_comm (String.eqb p "-")).
  destruct (String.eqb q "-" || String.eqb p "-"); [reflexivity|].
  destruct (realpath p) as [cp|], (realpath q) as [cq|]; try reflexivity.
  apply String.eqb_sym.
Qed.

Section Setup.
Context {stream : Type} `{!Libogg stream}.

Lemma opened_input_missing e opt :
  path_in opt ≠ "-" → env_fopen_r e (path_in opt) = None → opened_input e opt = None.
Proof.
  intros Hdash Hnone. unfold opened_input.
  destruct (String.eqb_spec (path_in opt) "-"); [contradiction|exact Hnone].
Qed.

(** X2: when the input is not [-] and cannot be opened, and the paths
    were not found to be the same file, [run] ends with failure after the
    failed [fopen] and one [perror] line: no file is created, removed or
    opened for writing, and nothing is read. *)
Theorem missing_input_fails e opt :
  path_in opt ≠ "-" → env_fopen_r e (path_in opt) = None →
  (path_out opt ≠ "" →
   same_file (env_realpath e) (path_in opt) (path_out opt) = false) →
  run (stream := stream) e opt
  = failure (env_fs e)
      (compared opt ++ [c_fopen (path_in opt) "r" false; c_stderr "fopen"]).
Proof.
  intros Hdash Hnone Hdiff.
  pose proof (opened_input_missing e opt Hdash Hnone) as Hno.
  apply run_paths; try (intros inp Hinp; rewrite Hno in Hinp; discriminate).
  - intros Hreq Hsame. rewrite (Hdiff Hreq) in Hsame. discriminate.
  - reflexivity.
Qed.

(** X3: without [overwrite] and without in-place editing, an output
    file that exists ends the run with failure, once the input was opened:
    [access] finds the file, the message says that it already exists, the
    input is closed, and the run stops: the file is neither opened nor
    removed, and the files that exist are the same as before. *)
Theorem existing_output_kept e opt inp :
  overwrite opt = false → inplace opt = None →
  path_out opt ≠ "" → path_out opt ≠ "-" → path_out opt ∈ env_fs e →
  same_file (env_realpath e) (path_in opt) (path_out opt) = false →
  opened_input e opt = Some inp →
  run (stream := stream) e opt
  = failure (env_fs e)
      ([c_same_file (path_in opt) (path_out opt) false] ++ input_opened opt
       ++ [c_access (path_out opt) true;
           c_stderr (exists_message (path_out opt));
           c_fclose (input_handle opt)]).
Proof.
  intros Hover Hin Hreq Hdash Hfound Hdiff Hinp.
  assert (output_path opt = path_out opt) as Hout by (unfold output_path; rewrite Hin; reflexivity).
  assert (guarded opt = true) as Hg by (unfold guarded; rewrite Hover, Hin; reflexivity).
  assert (compared opt = [c_same_file (path_in opt) (path_out opt) false]) as Hcmp.
  { unfold compared. destruct (String.eqb_spec (path_out opt) ""); [contradiction|reflexivity]. }
  apply run_paths; rewrite ?Hout, ?Hcmp.
  - intros _ Hsame. rewrite Hdiff in Hsame. discriminate.
  - intros Hd Hnone. rewrite (opened_input_missing e opt Hd Hnone) in Hinp. discriminate.
  - reflexivity.
  - intros inp' _ _ _ Hnot _. destruct (Hnot Hg Hfound).
  - intros inp' _ He. contradiction.
  - intros inp' _ He. contradiction.
  - intros inp' _ _ _ Hnot _. destruct (Hnot Hg Hfound).
Qed.

End Setup.

Lemma diagnostics_app tr1 tr2 : diagnostics (tr1 ++ tr2) = diagnostics tr1 ++ diagnostics tr2.
Proof. apply omap_app. Qed.

Lemma silent_diagnostics tr : forallb silent tr = true → diagnostics tr = [].
Proof.
  induction tr as [|c tr IH]; [reflexivity|]. intros H. simpl in H.
  apply andb_prop in H as [Hc Htr]. change (c :: tr) with ([c] ++ tr).
  rewrite diagnostics_app, (IH Htr). destruct c; try discriminate; reflexivity.
Qed.

Lemma loop_calls_silent w tr : forallb (loop_call w) tr = true → forallb silent tr = true.
Proof.
  rewrite !forallb_forall. intros H c Hin. specialize (H c Hin).
  destruct c; try discriminate; reflexivity.
Qed.

Lemma loop_calls_lasting w tr : forallb (loop_call w) tr = true → forallb lasting tr = true.
Proof.
  rewrite !forallb_forall. intros H c Hin. specialize (H c Hin).
  destruct c; try discriminate; reflexivity.
Qed.

Lemma setup_lasting tr : forallb setup_call tr = true → forallb lasting tr = true.
Proof.
  rewrite !forallb_forall. intros H c Hin. specialize (H c Hin).
  destruct c; try discriminate; reflexivity.
Qed.

Lemma lasting_no_remove tr p : forallb lasting tr = true → ¬ In (c_remove p) tr.
Proof. rewrite forallb_forall. intros H Hin. specialize (H _ Hin). discriminate. Qed.

Lemma lasting_no_rename tr a b d : forallb lasting tr = true → ¬ In (c_rename a b d) tr.
Proof. rewrite forallb_forall. intros H Hin. specialize (H _ Hin). discriminate. Qed.

Lemma compared_setup opt :
  forallb setup_call (compared opt) = true ∧ forallb silent (compared opt) = true
  ∧ clean (compared opt) = true ∧ unopened (compared opt) = true.
Proof. unfold compared. destruct (String.eqb (path_out opt) ""); auto. Qed.

Lemma input_opened_setup opt :
  forallb setup_call (input_opened opt) = true ∧ forallb silent (input_opened opt) = true
  ∧ clean (input_opened opt) = true ∧ unopened (input_opened opt) = true.
Proof. unfold input_opened. destruct (String.eqb (path_in opt) "-"); auto. Qed.

Lemma checked_setup opt :
  forallb setup_call (checked opt) = true ∧ forallb silent (checked opt) = true
  ∧ clean (checked opt) = true ∧ unopened (checked opt) = true.
Proof. unfold checked. destruct (guarded opt); auto. Qed.

Lemma prelude_setup opt :
  forallb setup_call (prelude opt) = true ∧ forallb silent (prelude opt) = true
  ∧ clean (prelude opt) = true ∧ unopened (prelude opt) = true.
Proof.
  unfold prelude.
  destruct (compared_setup opt) as (H1 & H2 & H3 & H4).
  destruct (input_opened_setup opt) as (H5 & H6 & H7 & H8).
  destruct (checked_setup opt) as (H9 & H10 & H11 & H12).
  rewrite !forallb_app, !clean_app, !unopened_app.
  rewrite H1, H2, H3, H4, H5, H6, H7, H8, H9, H10, H11, H12. auto.
Qed.

Lemma entry_setup opt :
  forallb setup_call (compared opt ++ input_opened opt) = true
  ∧ forallb silent (compared opt ++ input_opened opt) = true
  ∧ clean (compared opt ++ input_opened opt) = true
  ∧ unopened (compared opt ++ input_opened opt) = true.
Proof.
  destruct (compared_setup opt) as (H1 & H2 & H3 & H4).
  destruct (input_opened_setup opt) as (H5 & H6 & H7 & H8).
  rewrite !forallb_app, !clean_app, !unopened_app.
  rewrite H1, H2, H3, H4, H5, H6, H7, H8. auto.
Qed.

Section Ends.
Context {stream : Type} `{!Libogg stream}.

(** The state the loop ends in. *)
Lemma process_loop e opt p_out rfile inp wfile fs tr (Q : result → Prop) :
  clean tr = true → packets_seen tr = 0%nat →
  (∀ (st : state stream) tl,
     st = main_loop e opt wfile (in_pages inp) (in_end inp) (init_state tr) →
     tallied st → trace st = tr ++ tl →
     forallb (loop_call (writing wfile)) tl = true →
     Q (finish e opt p_out rfile wfile fs st)) →
  Q (process (stream := stream) e opt p_out rfile inp wfile fs tr).
Proof.
  intros Hc Hs HQ. unfold process.
  destruct (main_loop_grows e opt wfile (in_pages inp) (in_end inp) (init_state tr))
    as (tl & Htl & Hl).
  apply (HQ _ tl); [reflexivity| |exact Htl|exact Hl].
  apply main_loop_sound. split; [split; auto|right; auto].
Qed.

Lemma final_error_none (st : state stream) :
  tallied st → final_error st = None →
  clean (trace st) = true ∧ (2 ≤ packets_seen (trace st))%nat.
Proof.
  intros [Ha Hc]. unfold final_error. destruct (error st) eqn:He; [discriminate|].
  destruct (packet_count st <? 2) eqn:Hpc; [discriminate|]. intros _.
  apply Z.ltb_ge in Hpc. split; [apply Ha; exact He|].
  unfold counted in Hc. destruct Hc as [Hc|[Hc _]]; lia.
Qed.

Lemma final_error_few (st : state stream) :
  tallied st → clean (trace st) = true → (packets_seen (trace st) < 2)%nat →
  final_error st = Some "opustags: invalid file".
Proof.
  intros [Ha Hc] Hcl Hfew. unfold final_error. apply Ha in Hcl. rewrite Hcl.
  assert (packet_count st < 2) as Hpc by (unfold counted in Hc; destruct Hc as [Hc|[Hc _]]; lia).
  apply Z.ltb_lt in Hpc. rewrite Hpc. reflexivity.
Qed.

End Ends.

Lemma entered_setup e opt wfile fs tr :
  entered e opt wfile fs tr →
  forallb setup_call tr = true ∧ forallb silent tr = true ∧ clean tr = true
  ∧ packets_seen tr = 0%nat.
Proof.
  intros Hent.
  assert (forallb setup_call tr = true ∧ forallb silent tr = true ∧ clean tr = true)
    as (Hs & Hq & Hc).
  { destruct Hent as [(_ & _ & _ & ->)|[(_ & _ & _ & ->)|(_ & _ & _ & _ & ->)]].
    - destruct (entry_setup opt) as (H1 & H2 & H3 & _). auto.
    - destruct (entry_setup opt) as (H1 & H2 & H3 & _). auto.
    - destruct (prelude_setup opt) as (H1 & H2 & H3 & _).
      rewrite !forallb_app, clean_app, H1, H2, H3. auto. }
  repeat split; try assumption. apply setup_no_packets, Hs.
Qed.

Lemma entered_writing e opt wfile fs tr :
  entered e opt wfile fs tr →
  writing wfile = negb (String.eqb (output_path opt) "").
Proof.
  intros [(Hp & -> & _)|[(Hp & -> & _)|(Hp & _ & -> & _)]].
  - rewrite Hp. reflexivity.
  - rewrite Hp. reflexivity.
  - apply String.eqb_neq in Hp. rewrite Hp. reflexivity.
Qed.

Section Entries.
Context {stream : Type} `{!Libogg stream}.

(** [run] fails before its loop in one of four ways, or enters it. *)
Lemma run_entries e opt (Q : result → Prop) :
  (path_out opt ≠ "" →
   same_file (env_realpath e) (path_in opt) (path_out opt) = true →
   Q (failure (env_fs e)
        [c_same_file (path_in opt) (path_out opt) true;
         c_stderr "error: the input and output files are the same"])) →
  (path_in opt ≠ "-" → env_fopen_r e (path_in opt) = None →
   Q (failure (env_fs e)
        (compared opt ++ [c_fopen (path_in opt) "r" false; c_stderr "fopen"]))) →
  (output_path opt ≠ "" → output_path opt ≠ "-" →
   guarded opt = true → output_path opt ∈ env_fs e →
   Q (failure (env_fs e)
        (compared opt ++ input_opened opt
         ++ [c_access (output_path opt) true;
             c_stderr (exists_message (output_path opt));
             c_fclose (input_handle opt)]))) →
  (output_path opt ≠ "" → output_path opt ≠ "-" →
   env_fopen_w e (output_path opt) = false →
   Q (failure (env_fs e)
        (prelude opt
         ++ [c_fopen (output_path opt) "w" false; c_stderr "fopen";
             c_fclose (input_handle opt)]))) →
  (∀ inp wfile fs tr (st : state stream) tl,
     entered e opt wfile fs tr →
     st = main_loop e opt wfile (in_pages inp) (in_end inp) (init_state tr) →
     tallied st → trace st = tr ++ tl →
     forallb (loop_call (writing wfile)) tl = true →
     Q (finish e opt (output_path opt) (input_handle opt) wfile fs st)) →
  Q (run (stream := stream) e opt).
Proof.
  intros Hsame Hin Hexists Hout Hloop.
  apply run_paths; auto.
  - intros inp _ He. rewrite <- He at 1.
    assert (entered e opt None (env_fs e) (compared opt ++ input_opened opt)) as Hent
      by (left; auto).
    destruct (entered_setup _ _ _ _ _ Hent) as (_ & _ & Hc & Hs).
    apply process_loop; [assumption..|]. intros st tl. apply (Hloop inp), Hent.
  - intros inp _ He. rewrite <- He at 1.
    assert (entered e opt (Some h_stdout) (env_fs e) (compared opt ++ input_opened opt))
      as Hent by (right; left; auto).
    destruct (entered_setup _ _ _ _ _ Hent) as (_ & _ & Hc & Hs).
    apply process_loop; [assumption..|]. intros st tl. apply (Hloop inp), Hent.
  - intros inp _ He Hd _ _.
    assert (entered e opt (Some (h_file (output_path opt)))
              (env_fs e ∪ {[output_path opt]})
              (prelude opt ++ [c_fopen (output_path opt) "w" true])) as Hent
      by (right; right; auto 10).
    destruct (entered_setup _ _ _ _ _ Hent) as (_ & _ & Hc & Hs).
    apply process_loop; [assumption..|]. intros st tl. apply (Hloop inp), Hent.
Qed.

End Entries.

Section Files.
Context {stream : Type} `{!Libogg stream}.

(** X4: when the output file cannot be opened for writing, the run ends
    with failure after the failed [fopen], a [perror] line and the closing
    of the input; the files that exist are the same as before. *)
Theorem unwritable_output_fails e opt inp :
  opened_input e opt = Some inp →
  output_path opt ≠ "" → output_path opt ≠ "-" →
  (path_out opt ≠ "" →
   same_file (env_realpath e) (path_in opt) (path_out opt) = false) →
  (guarded opt = true → output_path opt ∉ env_fs e) →
  env_fopen_w e (output_path opt) = false →
  run (stream := stream) e opt
  = failure (env_fs e)
      (prelude opt
       ++ [c_fopen (output_path opt) "w" false; c_stderr "fopen";
           c_fclose (input_handle opt)]).
Proof.
  intros Hinp He Hd Hdiff Hfree Hw. apply run_paths.
  - intros Hreq Hsame. rewrite (Hdiff Hreq) in Hsame. discriminate.
  - intros Hdash Hnone. rewrite (opened_input_missing e opt Hdash Hnone) in Hinp.
    discriminate.
  - intros inp' _ _ _ Hg Hfound. destruct (Hfree Hg Hfound).
  - reflexivity.
  - intros inp' _ He'. contradiction.
  - intros inp' _ Hd'. contradiction.
  - intros inp' _ _ _ _ Hw'. rewrite Hw in Hw'. discriminate.
Qed.

(** X5: a file other than the output path exists after the run exactly
    when it existed before, but for the input path of an in-place run that
    succeeded (the rename creates it). *)
Theorem other_files_untouched e opt p :
  p ≠ output_path opt →
  (inplace opt = None ∨ p ≠ path_in opt
   ∨ exit_status (run (stream := stream) e opt) = EXIT_FAILURE) →
  p ∈ r_fs (run (stream := stream) e opt) ↔ p ∈ env_fs e.
Proof.
  intros Hp.
  apply (run_paths e opt (λ r,
    (inplace opt = None ∨ p ≠ path_in opt ∨ exit_status r = EXIT_FAILURE) →
    p ∈ r_fs r ↔ p ∈ env_fs e)); try (intros; reflexivity).
  all: intros inp _; intros; unfold process in *;
    match goal with H : _ ∨ _ |- _ => revert H end;
    apply finish_cases; intros; simpl in *; try reflexivity.
  all: try match goal with H : _ ∨ _ ∨ _ |- _ =>
         destruct H as [H|[H|H]]; [congruence| |discriminate] end.
  all: repeat (rewrite elem_of_union || rewrite elem_of_difference
               || rewrite elem_of_singleton).
  all: intuition congruence.
Qed.

End Files.

Lemma closes_lasting rfile wfile : forallb lasting (closes rfile wfile) = true.
Proof. destruct wfile; reflexivity. Qed.

Lemma closes_silent rfile wfile : forallb silent (closes rfile wfile) = true.
Proof. destruct wfile; reflexivity. Qed.

Lemma entered_lasting e opt wfile fs tr tl :
  entered e opt wfile fs tr → forallb (loop_call (writing wfile)) tl = true →
  forallb lasting (tr ++ tl) = true.
Proof.
  intros Hent Hl. destruct (entered_setup _ _ _ _ _ Hent) as (Hs & _).
  rewrite forallb_app, (setup_lasting _ Hs), (loop_calls_lasting _ _ Hl). reflexivity.
Qed.

Lemma entered_silent e opt wfile fs tr tl :
  entered e opt wfile fs tr → forallb (loop_call (writing wfile)) tl = true →
  diagnostics (tr ++ tl) = [].
Proof.
  intros Hent Hl. destruct (entered_setup _ _ _ _ _ Hent) as (_ & Hs & _).
  apply silent_diagnostics. rewrite forallb_app, Hs, (loop_calls_silent _ _ Hl).
  reflexivity.
Qed.

Section Outcomes.
Context {stream : Type} `{!Libogg stream}.

(** X6: when a run that is not in-place, with an output path other than
    [-], succeeds, the output file was opened for writing, it exists at the
    end beside the files that existed before, and nothing was removed. *)
Theorem success_keeps_output e opt :
  inplace opt = None → path_out opt ≠ "" → path_out opt ≠ "-" →
  exit_status (run (stream := stream) e opt) = EXIT_SUCCESS →
  r_fs (run (stream := stream) e opt) = env_fs e ∪ {[path_out opt]}
  ∧ In (c_fopen (path_out opt) "w" true) (r_trace (run (stream := stream) e opt))
  ∧ ∀ p, ¬ In (c_remove p) (r_trace (run (stream := stream) e opt)).
Proof.
  intros Hin Hreq Hdash.
  assert (output_path opt = path_out opt) as Hout
    by (unfold output_path; rewrite Hin; reflexivity).
  apply (run_entries e opt (λ r,
    exit_status r = EXIT_SUCCESS →
    r_fs r = env_fs e ∪ {[path_out opt]}
    ∧ In (c_fopen (path_out opt) "w" true) (r_trace r)
    ∧ ∀ p, ¬ In (c_remove p) (r_trace r))); try (intros; discriminate).
  intros inp wfile fs tr st tl Hent _ Hst Htr Hl.
  pose proof (entered_lasting _ _ _ _ _ _ Hent Hl) as Hlast.
  destruct Hent as [(Hp & _)|[(Hp & _)|(_ & _ & -> & -> & ->)]]; [congruence..|].
  apply finish_cases; try (intros; discriminate); [intros; congruence|].
  intros _ _ _. cbn [r_trace exit_status r_fs]. rewrite Htr, Hout in *.
  split; [reflexivity|]. split.
  - rewrite !in_app_iff. simpl. auto.
  - intros p. apply lasting_no_remove.
    rewrite forallb_app, Hlast, closes_lasting. reflexivity.
Qed.

(** X7: when an in-place run succeeds, its last call is the rename of
    the temporary file (the input path with the suffix) to the input path;
    a file exists at the end exactly when it is the input path, or it
    existed before and is not the temporary file; nothing was removed. *)
Theorem inplace_success_renames e opt sfx :
  inplace opt = Some sfx →
  String.append (path_in opt) sfx ≠ "" → String.append (path_in opt) sfx ≠ "-" →
  exit_status (run (stream := stream) e opt) = EXIT_SUCCESS →
  last (r_trace (run (stream := stream) e opt))
  = Some (c_rename (String.append (path_in opt) sfx) (path_in opt) true)
  ∧ (∀ p, p ∈ r_fs (run (stream := stream) e opt)
          ↔ p = path_in opt ∨ (p ∈ env_fs e ∧ p ≠ String.append (path_in opt) sfx))
  ∧ (∀ p, ¬ In (c_remove p) (r_trace (run (stream := stream) e opt))).
Proof.
  intros Hin Hreq Hdash.
  assert (output_path opt = String.append (path_in opt) sfx) as Hout
    by (unfold output_path; rewrite Hin; reflexivity).
  apply (run_entries e opt (λ r,
    exit_status r = EXIT_SUCCESS →
    last (r_trace r) = Some (c_rename (String.append (path_in opt) sfx) (path_in opt) true)
    ∧ (∀ p, p ∈ r_fs r
            ↔ p = path_in opt ∨ (p ∈ env_fs e ∧ p ≠ String.append (path_in opt) sfx))
    ∧ (∀ p, ¬ In (c_remove p) (r_trace r)))); try (intros; discriminate).
  intros inp wfile fs tr st tl Hent _ Hst Htr Hl.
  pose proof (entered_lasting _ _ _ _ _ _ Hent Hl) as Hlast.
  destruct Hent as [(Hp & _)|[(Hp & _)|(_ & _ & -> & -> & ->)]]; [congruence..|].
  apply finish_cases; try (intros; discriminate); [|intros; congruence].
  intros sfx' _ _ _ _. cbn [r_trace exit_status r_fs]. rewrite Htr, Hout in *.
  split; [rewrite !app_assoc; apply last_snoc|]. split.
  - intros p. repeat (rewrite elem_of_union || rewrite elem_of_difference
                      || rewrite elem_of_singleton).
    intuition congruence.
  - intros p Hrm. rewrite (app_assoc (_ ++ tl)) in Hrm.
    apply in_app_iff in Hrm as [Hrm|[Hrm|[]]]; [|discriminate].
    revert Hrm. apply lasting_no_remove.
    rewrite forallb_app, Hlast, closes_lasting. reflexivity.
Qed.

End Outcomes.

(** Membership in the calls made before the loop, case by case. *)
Ltac in_setup H :=
  unfold prelude, checked, compared, input_opened, closes in H;
  repeat match type of H with
         | context [if ?b then _ else _] => destruct b
         | context [match ?w with Some _ => _ | None => _ end] => destruct w
         end;
  rewrite ?in_app_iff in H; simpl in H;
  repeat (destruct H as [H|H]); try discriminate; try contradiction.

Lemma in_loop_call w tl c :
  forallb (loop_call w) tl = true → In c tl → loop_call w c = true.
Proof. rewrite forallb_forall. auto. Qed.

Section Diagnostics.
Context {stream : Type} `{!Libogg stream}.

(** X10: with [overwrite] set or in an in-place run, [access] is never
    called: the output is opened without looking whether it exists. *)
Theorem overwrite_skips_access e opt :
  overwrite opt = true ∨ inplace opt ≠ None →
  ∀ p found, ¬ In (c_access p found) (r_trace (run (stream := stream) e opt)).
Proof.
  intros Hover p found.
  assert (guarded opt = false) as Hg.
  { unfold guarded. destruct Hover as [->|Hin]; [reflexivity|].
    destruct (inplace opt); [|contradiction]. apply andb_false_r. }
  apply run_entries.
  - intros _ _ Hacc. in_setup Hacc.
  - intros _ _ Hacc. in_setup Hacc.
  - intros _ _ Hg'. congruence.
  - intros _ _ _ Hacc. unfold prelude, checked in Hacc. rewrite Hg in Hacc. in_setup Hacc.
  - intros inp wfile fs tr st tl Hent _ _ Htr Hl.
    apply finish_cases; intros; cbn [r_trace]; rewrite Htr, !in_app_iff;
      intros [[Hacc|Hacc]|[Hacc|Hacc]];
      try (apply (in_loop_call _ _ _ Hl) in Hacc; discriminate);
      try (in_setup Hacc; fail).
    all: destruct Hent as [(_ & _ & _ & ->)|[(_ & _ & _ & ->)|(_ & _ & _ & _ & ->)]];
      unfold prelude, checked in Hacc; rewrite ?Hg in Hacc; in_setup Hacc.
Qed.

(** X8: a rename that fails is the rename of the output path to the
    input path of an in-place run; the run then ends with failure, its last
    call is the [perror] line, nothing is removed, and the temporary file
    stays beside the files that existed before. *)
Theorem failed_rename_keeps_temporary e opt a b :
  In (c_rename a b false) (r_trace (run (stream := stream) e opt)) →
  a = output_path opt ∧ b = path_in opt ∧ inplace opt ≠ None
  ∧ exit_status (run (stream := stream) e opt) = EXIT_FAILURE
  ∧ last (r_trace (run (stream := stream) e opt)) = Some (c_stderr "rename")
  ∧ (∀ p, ¬ In (c_remove p) (r_trace (run (stream := stream) e opt)))
  ∧ (output_path opt ≠ "" → output_path opt ≠ "-" →
     r_fs (run (stream := stream) e opt) = env_fs e ∪ {[output_path opt]}).
Proof.
  apply (run_entries e opt (λ r,
    In (c_rename a b false) (r_trace r) →
    a = output_path opt ∧ b = path_in opt ∧ inplace opt ≠ None
    ∧ exit_status r = EXIT_FAILURE
    ∧ last (r_trace r) = Some (c_stderr "rename")
    ∧ (∀ p, ¬ In (c_remove p) (r_trace r))
    ∧ (output_path opt ≠ "" → output_path opt ≠ "-" →
       r_fs r = env_fs e ∪ {[output_path opt]}))).
  1-4: intros; match goal with H : In _ _ |- _ => simpl in H; in_setup H end.
  intros inp wfile fs tr st tl Hent _ _ Htr Hl.
  pose proof (entered_lasting _ _ _ _ _ _ Hent Hl) as Hlast.
  assert (∀ tail,
            In (c_rename a b false) ((tr ++ tl) ++ closes (input_handle opt) wfile ++ tail) →
            In (c_rename a b false) tail) as Htail.
  { intros tail Hin. rewrite app_assoc in Hin.
    apply in_app_iff in Hin as [Hin|Hin]; [|exact Hin].
    exfalso. revert Hin. apply lasting_no_rename.
    rewrite forallb_app, Hlast, closes_lasting. reflexivity. }
  apply finish_cases; intros; cbn [r_trace exit_status r_fs] in *;
    match goal with H : In _ _ |- _ =>
      rewrite Htr in H;
      first [apply Htail in H
            |rewrite <- (app_nil_r (closes _ _)) in H; apply Htail in H];
      simpl in H;
      repeat (destruct H as [H|H]); try discriminate; try contradiction end.
  match goal with H : c_rename _ _ _ = _ |- _ => injection H as <- <- end.
  split; [reflexivity|]. split; [reflexivity|]. split; [congruence|].
  split; [reflexivity|]. rewrite Htr. split; [|split].
  - rewrite !app_assoc.
    change ([c_rename (output_path opt) (path_in opt) false; c_stderr "rename"])
      with ([c_rename (output_path opt) (path_in opt) false] ++ [c_stderr "rename"]).
    rewrite app_assoc. apply last_snoc.
  - intros p Hrm. rewrite app_assoc in Hrm.
    apply in_app_iff in Hrm as [Hrm|Hrm]; [|simpl in Hrm; intuition discriminate].
    revert Hrm. apply lasting_no_remove.
    rewrite forallb_app, Hlast, closes_lasting. reflexivity.
  - intros He Hd.
    destruct Hent as [(Hp & _)|[(Hp & _)|(_ & _ & _ & -> & _)]]; [contradiction..|].
    reflexivity.
Qed.

(** X9: when the output is the standard output, the run, whether it
    succeeds or fails, opens no file for writing, removes no file and
    leaves the files that exist as they were. *)
Theorem stdout_output_keeps_files e opt :
  path_out opt = "-" → inplace opt = None →
  r_fs (run (stream := stream) e opt) = env_fs e
  ∧ unopened (r_trace (run (stream := stream) e opt)) = true
  ∧ (∀ p, ¬ In (c_remove p) (r_trace (run (stream := stream) e opt))).
Proof.
  intros Hout Hin.
  assert (output_path opt = "-") as Hp by (unfold output_path; rewrite Hin; exact Hout).
  apply (run_entries e opt (λ r,
    r_fs r = env_fs e ∧ unopened (r_trace r) = true ∧ ∀ p, ¬ In (c_remove p) (r_trace r))).
  - intros _ _. split; [reflexivity|]. split; [reflexivity|].
    intros p Hrm. simpl in Hrm. in_setup Hrm.
  - intros _ _. split; [reflexivity|]. simpl.
    destruct (compared_setup opt) as (_ & _ & _ & Hu).
    split; [rewrite unopened_app, Hu; reflexivity|]. intros p Hrm. in_setup Hrm.
  - intros _ Hd. contradiction.
  - intros _ Hd. contradiction.
  - intros inp wfile fs tr st tl Hent _ _ Htr Hl.
    pose proof (entered_lasting _ _ _ _ _ _ Hent Hl) as Hlast.
    destruct Hent as [(He & _)|[(_ & -> & -> & ->)|(_ & Hd & _)]];
      [congruence| |contradiction].
    destruct (entry_setup opt) as (_ & _ & _ & Hu).
    assert (unopened (trace st ++ closes (input_handle opt) (Some h_stdout)) = true)
      as Hun.
    { rewrite Htr, (unopened_app (_ ++ tl)), (unopened_app _ tl), Hu,
        (loop_calls_unopened _ _ Hl). reflexivity. }
    assert (forallb lasting (trace st ++ closes (input_handle opt) (Some h_stdout)) = true)
      as Hl2 by (rewrite Htr, forallb_app, Hlast; reflexivity).
    rewrite Hp.
    apply finish_cases; intros; cbn [r_trace exit_status r_fs] in *;
      try discriminate; try congruence.
    + split; [reflexivity|]. rewrite app_assoc, unopened_app, Hun.
      split; [reflexivity|]. intros p. apply lasting_no_remove.
      rewrite forallb_app, Hl2. reflexivity.
    + split; [reflexivity|]. split; [exact Hun|]. intros p.
      apply lasting_no_remove, Hl2.
Qed.

(** X11: a run that succeeds writes nothing to the standard error, and
    a run that fails writes exactly one line to it. *)
Theorem one_diagnostic e opt :
  (exit_status (run (stream := stream) e opt) = EXIT_SUCCESS →
   diagnostics (r_trace (run (stream := stream) e opt)) = [])
  ∧ (exit_status (run (stream := stream) e opt) = EXIT_FAILURE →
     ∃ msg, diagnostics (r_trace (run (stream := stream) e opt)) = [msg]).
Proof.
  apply (run_entries e opt (λ r,
    (exit_status r = EXIT_SUCCESS → diagnostics (r_trace r) = [])
    ∧ (exit_status r = EXIT_FAILURE → ∃ msg, diagnostics (r_trace r) = [msg]))).
  1-4: intros; (split; [discriminate|]); intros _; cbn [r_trace failure];
    unfold prelude; rewrite ?diagnostics_app;
    destruct (compared_setup opt) as (_ & Hc & _);
    destruct (input_opened_setup opt) as (_ & Hi & _);
    destruct (checked_setup opt) as (_ & Hk & _);
    rewrite ?(silent_diagnostics _ Hc), ?(silent_diagnostics _ Hi),
      ?(silent_diagnostics _ Hk); simpl; eauto.
  intros inp wfile fs tr st tl Hent _ _ Htr Hl.
  pose proof (entered_silent _ _ _ _ _ _ Hent Hl) as Hquiet.
  apply finish_cases; intros; cbn [r_trace exit_status r_fs];
    (split; [try discriminate|try discriminate]); intros _;
    rewrite Htr, (diagnostics_app (tr ++ tl)), Hquiet, ?diagnostics_app,
      (silent_diagnostics _ (closes_silent (input_handle opt) wfile)); simpl; eauto.
Qed.

(** X12: when no call has failed and fewer than two packets were taken
    out of the decoder (an empty or truncated stream), the run ends with
    failure and its one diagnostic is [opustags: invalid file]. *)
Theorem too_few_packets_invalid_file e opt :
  failures (r_trace (run (stream := stream) e opt)) = [] →
  (packets_seen (r_trace (run (stream := stream) e opt)) < 2)%nat →
  exit_status (run (stream := stream) e opt) = EXIT_FAILURE
  ∧ diagnostics (r_trace (run (stream := stream) e opt)) = ["opustags: invalid file"].
Proof.
  apply (run_entries e opt (λ r,
    failures (r_trace r) = [] → (packets_seen (r_trace r) < 2)%nat →
    exit_status r = EXIT_FAILURE
    ∧ diagnostics (r_trace r) = ["opustags: invalid file"])).
  1-4: intros; exfalso;
    match goal with H : failures _ = [] |- _ =>
      cbn [r_trace failure] in H; unfold failures in H;
      rewrite ?List.filter_app in H; simpl in H;
      repeat (apply app_eq_nil in H; destruct H as [? H]); discriminate end.
  intros inp wfile fs tr st tl Hent _ Hst Htr Hl.
  pose proof (entered_silent _ _ _ _ _ _ Hent Hl) as Hquiet.
  assert (∀ tail, failures (trace st ++ tail) = [] →
                  (packets_seen (trace st ++ tail) < 2)%nat →
                  final_error st = Some "opustags: invalid file") as Hfew.
  { intros tail Hf Hp. apply failures_nil_clean in Hf. rewrite clean_app in Hf.
    apply andb_prop in Hf as [Hf _]. rewrite packets_seen_app in Hp.
    apply final_error_few; [assumption..|lia]. }
  apply finish_cases; intros; cbn [r_trace exit_status r_fs] in *;
    match goal with Hf : failures _ = [], Hp : (packets_seen _ < 2)%nat |- _ =>
      pose proof (Hfew _ Hf Hp) as Hmsg end; try congruence.
  all: split; [reflexivity|].
  all: rewrite Htr, (diagnostics_app (tr ++ tl)), Hquiet, ?diagnostics_app,
      (silent_diagnostics _ (closes_silent (input_handle opt) wfile)); simpl; congruence.
Qed.

End Diagnostics.

Lemma not_printed tr : (∀ ls, ¬ In (c_print_comments ls) tr) → printed tr = [].
Proof.
  induction tr as [|c tr IH]; [reflexivity|]. intros Hno.
  change (c :: tr) with ([c] ++ tr). rewrite printed_app, IH.
  - destruct c; try reflexivity. destruct (Hno lines). left. reflexivity.
  - intros ls Hin. apply (Hno ls). right. exact Hin.
Qed.

Section Handles.
Context {stream : Type} `{!Libogg stream}.

(** X13: when an output is written, also to the standard output, no
    comment list is printed. *)
Theorem write_mode_never_prints e opt :
  output_path opt ≠ "" →
  printed (r_trace (run (stream := stream) e opt)) = [].
Proof.
  intros Hout. apply not_printed. intros ls. apply run_entries.
  - intros _ _ Hin. in_setup Hin.
  - intros _ _ Hin. in_setup Hin.
  - intros _ _ _ _ Hin. in_setup Hin.
  - intros _ _ _ Hin. in_setup Hin.
  - intros inp wfile fs tr st tl Hent _ _ Htr Hl.
    rewrite (entered_writing _ _ _ _ _ Hent) in Hl.
    apply String.eqb_neq in Hout. rewrite Hout in Hl.
    destruct (entered_setup _ _ _ _ _ Hent) as (Hs & _).
    rewrite forallb_forall in Hs.
    apply finish_cases; intros; cbn [r_trace]; rewrite Htr, !in_app_iff;
      intros [[Hin|Hin]|Hin];
      try (apply Hs in Hin; discriminate);
      try (apply (in_loop_call _ _ _ Hl) in Hin; discriminate);
      in_setup Hin.
Qed.

(** X14: every file that [run] has opened, for reading or for writing,
    is closed before [run] returns, on all its paths. *)
Theorem opened_files_closed e opt p mode :
  In (c_fopen p mode true) (r_trace (run (stream := stream) e opt)) →
  In (c_fclose (h_file p)) (r_trace (run (stream := stream) e opt)).
Proof.
  apply (run_entries e opt (λ r,
    In (c_fopen p mode true) (r_trace r) → In (c_fclose (h_file p)) (r_trace r))).
  - intros _ _ Hin. in_setup Hin.
  - intros _ _ Hin. in_setup Hin.
  - intros _ _ _ _ Hin. cbn [r_trace failure] in *. rewrite !in_app_iff. right. right.
    unfold input_handle. unfold input_opened, compared in Hin.
    destruct (String.eqb (path_in opt) "-"), (String.eqb (path_out opt) "");
      rewrite ?in_app_iff in Hin; simpl in Hin;
      repeat (destruct Hin as [Hin|Hin]); try discriminate; try contradiction.
    all: injection Hin as <- _; simpl; auto.
  - intros _ _ _ Hin. cbn [r_trace failure] in *. rewrite !in_app_iff. right.
    unfold input_handle. unfold prelude, checked, input_opened, compared in Hin.
    destruct (String.eqb (path_in opt) "-"), (String.eqb (path_out opt) ""),
      (guarded opt);
      rewrite ?in_app_iff in Hin; simpl in Hin;
      repeat (destruct Hin as [Hin|Hin]); try discriminate; try contradiction.
    all: injection Hin as <- _; simpl; auto.
  - intros inp wfile fs tr st tl Hent _ _ Htr Hl.
    assert (In (c_fopen p mode true) (tr ++ tl) →
            In (c_fclose (h_file p)) (closes (input_handle opt) wfile)) as Hclosed.
    { intros Hin. apply in_app_iff in Hin as [Hin|Hin];
        [|apply (in_loop_call _ _ _ Hl) in Hin; discriminate].
      unfold closes, input_handle.
      destruct Hent as [(_ & -> & _ & ->)|[(_ & -> & _ & ->)|(_ & _ & -> & _ & ->)]];
        unfold prelude, checked, input_opened, compared in Hin;
        destruct (String.eqb (path_in opt) "-"), (String.eqb (path_out opt) "");
        try destruct (guarded opt);
        rewrite ?in_app_iff in Hin; simpl in Hin;
        repeat (destruct Hin as [Hin|Hin]); try discriminate; try contradiction;
        injection Hin as <- _; simpl; auto. }
    assert (∀ tail, ¬ In (c_fopen p mode true) tail →
              In (c_fopen p mode true)
                ((tr ++ tl) ++ closes (input_handle opt) wfile ++ tail) →
              In (c_fclose (h_file p))
                ((tr ++ tl) ++ closes (input_handle opt) wfile ++ tail)) as Htail.
    { intros tail Hno Hin. rewrite !in_app_iff in *.
      destruct Hin as [Hin|[Hin|Hin]]; [auto| |contradiction].
      exfalso. unfold closes in Hin. destruct wfile; simpl in Hin;
        repeat (destruct Hin as [Hin|Hin]); discriminate || contradiction. }
    apply finish_cases; intros; cbn [r_trace] in *; rewrite Htr in *.
    5: match goal with H : In _ _ |- _ =>
         rewrite <- (app_nil_r (closes _ _)) in H |- * end.
    all: apply Htail; [|assumption].
    all: simpl; intuition discriminate.
Qed.

End Handles.

Lemma header_outer w c : header_call c = true → outer_call w c = true.
Proof. destruct c; try discriminate; reflexivity. Qed.

Lemma step_call_readless w c : step_call w c = true → readless c = true.
Proof. destruct c as [| | | |[]| | | | | | | | | | | | |]; simpl; auto; discriminate. Qed.

Lemma step_calls_readless w tr :
  forallb (step_call w) tr = true → forallb readless tr = true.
Proof.
  rewrite !forallb_forall. intros H c Hin. eapply step_call_readless, H, Hin.
Qed.

Lemma step_calls_no_read w tr r :
  forallb (step_call w) tr = true → ¬ In (c_read_page r) tr.
Proof.
  rewrite forallb_forall. intros H Hin. specialize (H _ Hin). destruct w; discriminate.
Qed.

Section Steps.
Context {stream : Type} `{!Libogg stream}.
Variable e : env.
Variable opt : options.

Local Abbreviation state := (state stream).
Implicit Types st : state.

Ltac one_more := eapply grows_by_log; [|reflexivity]; reflexivity.
Ltac two_more := eapply grows_by_log2; [| |reflexivity]; reflexivity.
Ltac no_more := apply grows_by_refl; reflexivity.

Lemma init_streams_calls wfile og st :
  grows_by header_call st (init_streams wfile og st)
  ∧ (packet_count (init_streams wfile og st) = packet_count st
     ∨ (packet_count st = -1 ∧ packet_count (init_streams wfile og st) = 0)).
Proof.
  unfold init_streams. destruct (packet_count st =? -1) eqn:Hpc;
    [|split; [no_more|auto]].
  apply Z.eqb_eq in Hpc.
  destruct (ogg_stream_init _ _) as [rs|]; [|split; [one_more|auto]].
  destruct wfile; [|split; [one_more|auto]].
  destruct (ogg_stream_init _ _) as [ws|]; (split; [two_more|auto]).
Qed.

Lemma feed_page_calls og st :
  grows_by header_call st (feed_page og st)
  ∧ packet_count (feed_page og st) = packet_count st.
Proof.
  unfold feed_page. destruct (reader_stream st) as [rs|]; [|split; [one_more|auto]].
  destruct (ogg_stream_pagein rs og); (split; [one_more|auto]).
Qed.

Lemma check_reader_calls st :
  grows_by header_call st (check_reader st)
  ∧ packet_count (check_reader st) = packet_count st.
Proof.
  unfold check_reader.
  destruct (stream_check (reader_stream st)); (split; [one_more|auto]).
Qed.

Lemma flush_page_calls st :
  grows_by (outer_call true) st (flush_page e st)
  ∧ packet_count (flush_page e st) = packet_count st.
Proof.
  unfold flush_page.
  destruct (match writer_stream st with
            | Some ws => let '(r, ws') := ogg_stream_flush ws in (r, Some ws')
            | None => (None, None)
            end) as [flushed ws'].
  set (st1 := log (c_stream_flush flushed) (set_writer ws' st)).
  assert (grows_by (outer_call true) st st1) as H1 by one_more.
  destruct (env_fwrite_ok e (length (trace st1))).
  - set (st2 := log (c_write_page _ true) st1).
    change (writer_stream st2) with ws'.
    destruct (stream_check ws');
      (split; [eapply grows_by_trans; [exact H1|]; two_more|reflexivity]).
  - split; [eapply grows_by_trans; [exact H1|]; one_more|reflexivity].
Qed.

Lemma page_step_calls wfile og st :
  grows_by (step_call (writing wfile)) st (fst (page_step e opt wfile og st)).
Proof.
  assert (∀ c, outer_call (writing wfile) c = true → step_call (writing wfile) c = true)
    as Houter by (intros c Hc; unfold step_call; rewrite Hc; reflexivity).
  assert (∀ c, header_call c = true → step_call (writing wfile) c = true)
    as Hheader by (intros c Hc; apply Houter, header_outer, Hc).
  assert (∀ c, inner_call (writing wfile) c = true → step_call (writing wfile) c = true)
    as Hinner by (intros c Hc; unfold step_call; rewrite Hc; apply orb_true_r).
  unfold page_step. rewrite writing_decide.
  destruct ((2 <=? packet_count st) && writing wfile) eqn:Hcond.
  { apply andb_prop in Hcond as [_ Hw].
    destruct (env_fwrite_ok e (length (trace st)));
      (eapply grows_by_log; [|reflexivity]; unfold step_call; simpl; rewrite Hw;
       reflexivity). }
  pose proof (grows_by_weaken _ _ _ _ Hheader
                (proj1 (init_streams_calls wfile og st))) as H1.
  destruct (error (init_streams wfile og st)); [exact H1|].
  pose proof (grows_by_weaken _ _ _ _ Hheader
                (proj1 (feed_page_calls og (init_streams wfile og st)))) as H2.
  assert (grows_by (step_call (writing wfile)) st
            (feed_page og (init_streams wfile og st))) as H12
    by (eapply grows_by_trans; eassumption).
  destruct (error (feed_page og (init_streams wfile og st))); [exact H12|].
  pose proof (grows_by_weaken _ _ _ _ Hinner
                (read_packets_grows e opt wfile
                   (fuel_of (feed_page og (init_streams wfile og st)))
                   (feed_page og (init_streams wfile og st)))) as H3.
  set (st3 := read_packets _ _ _ _ _) in *.
  assert (grows_by (step_call (writing wfile)) st st3) as H13
    by (eapply grows_by_trans; eassumption).
  destruct (error st3); [exact H13|].
  assert (grows_by (step_call (writing wfile)) st (check_reader st3)) as H14.
  { eapply grows_by_trans; [exact H13|].
    apply (grows_by_weaken _ _ _ _ Hheader), check_reader_calls. }
  clearbody st3. clear -H14 Houter. destruct wfile.
  - simpl. eapply grows_by_trans; [exact H14|].
    apply (grows_by_weaken _ _ _ _ Houter), flush_page_calls.
  - destruct (2 <=? packet_count (check_reader st3)); exact H14.
Qed.

(** A property that every part of a round keeps is kept by the round. *)
Lemma page_step_preserves wfile og (J : state → Prop) :
  (∀ st written, J st → J (log (c_write_page og written) st)) →
  (∀ st msg, J st → J (set_error msg st)) →
  (∀ st, J st → J (init_streams wfile og st)) →
  (∀ st, J st → J (feed_page og st)) →
  (∀ st n, J st → J (read_packets e opt wfile n st)) →
  (∀ st, J st → J (check_reader st)) →
  (∀ st, J st → J (flush_page e st)) →
  ∀ st, J st → J (fst (page_step e opt wfile og st)).
Proof.
  intros Hwrite Herr Hinit Hfeed Hread Hcheck Hflush st Hst. unfold page_step.
  destruct ((2 <=? packet_count st) && bool_decide (is_Some wfile)).
  { destruct (env_fwrite_ok e (length (trace st))); simpl; auto. }
  apply Hinit in Hst. destruct (error (init_streams wfile og st)); [exact Hst|].
  apply Hfeed in Hst. destruct (error (feed_page og _)); [exact Hst|].
  apply (Hread _ (fuel_of (feed_page og (init_streams wfile og st)))) in Hst.
  destruct (error (read_packets _ _ _ _ _)); [exact Hst|].
  apply Hcheck in Hst. destruct wfile; [apply Hflush, Hst|].
  destruct (2 <=? _); exact Hst.
Qed.

(** The loop of [run], by what holds between its rounds ([I]) and when it
    is left ([F]). *)
Lemma main_loop_inv wfile ending (I F : state → Prop) :
  (∀ st, I st → F st) →
  (∀ st, I st → error st = None → F (main_loop e opt wfile [] ending st)) →
  (∀ og st, I st → error st = None →
     let r := page_step e opt wfile og (log (c_read_page (page_read og)) st) in
     if snd r then I (fst r) else F (fst r)) →
  ∀ pages st, I st → F (main_loop e opt wfile pages ending st).
Proof.
  intros Hexit Hend Hstep pages. induction pages as [|og pages IH]; intros st Hst.
  - destruct (error st) eqn:Herr; [|apply Hend; assumption].
    simpl. rewrite Herr. apply Hexit, Hst.
  - simpl. destruct (error st) eqn:Herr; [apply Hexit, Hst|].
    specialize (Hstep og st Hst Herr).
    destruct (page_step e opt wfile og _) as [st' next]. simpl in Hstep.
    destruct next; [apply IH|]; exact Hstep.
Qed.

End Steps.

Section ReadEnd.
Context {stream : Type} `{!Libogg stream}.

Lemma main_loop_end e opt wfile pages ending (st : state stream) :
  (∀ en, ¬ In (c_read_page (page_end en)) (trace st)) →
  ∀ en, In (c_read_page (page_end en)) (trace (main_loop e opt wfile pages ending st)) →
        error (main_loop e opt wfile pages ending st) = end_error en.
Proof.
  revert st. apply (main_loop_inv e opt wfile ending
    (λ st, ∀ en, ¬ In (c_read_page (page_end en)) (trace st))
    (λ st, ∀ en, In (c_read_page (page_end en)) (trace st) → error st = end_error en)).
  - intros st Hno en Hin. destruct (Hno en Hin).
  - intros st Hno Herr en. simpl. rewrite Herr.
    destruct ending; simpl; rewrite in_app_iff; simpl;
      (intros [Hin|[Hin|[]]]; [destruct (Hno en Hin)|]); injection Hin as <-;
      simpl; auto.
  - intros og st Hno Herr.
    assert (∀ en, ¬ In (c_read_page (page_end en))
                     (trace (fst (page_step e opt wfile og
                                    (log (c_read_page (page_read og)) st))))) as Hstep.
    { destruct (page_step_calls e opt wfile og (log (c_read_page (page_read og)) st))
        as (ta & -> & Hta).
      intros en. simpl. rewrite !in_app_iff. simpl.
      intros [[Hin|[Hin|[]]]|Hin]; [destruct (Hno en Hin)|discriminate|].
      revert Hin. apply (step_calls_no_read _ _ _ Hta). }
    simpl. destruct (snd _); [exact Hstep|].
    intros en Hin. destruct (Hstep en Hin).
Qed.

(** X15: when reading ends with an error, the run ends with failure and
    its one diagnostic names that error: the text of [strerror(errno)] for
    [ot::status::standard_error], and [error reading the next ogg page]
    for any other status. *)
Theorem read_error_reported e opt en :
  In (c_read_page (page_end en)) (r_trace (run (stream := stream) e opt)) →
  match en with
  | at_end_of_file => True
  | at_standard_error msg =>
      exit_status (run (stream := stream) e opt) = EXIT_FAILURE
      ∧ diagnostics (r_trace (run (stream := stream) e opt)) = [msg]
  | at_error =>
      exit_status (run (stream := stream) e opt) = EXIT_FAILURE
      ∧ diagnostics (r_trace (run (stream := stream) e opt))
        = ["error reading the next ogg page"]
  end.
Proof.
  assert (∀ r, In (c_read_page (page_end en)) (r_trace r) →
               (∀ msg, end_error en = Some msg →
                       exit_status r = EXIT_FAILURE ∧ diagnostics (r_trace r) = [msg]) →
               match en with
               | at_end_of_file => True
               | at_standard_error msg =>
                   exit_status r = EXIT_FAILURE ∧ diagnostics (r_trace r) = [msg]
               | at_error =>
                   exit_status r = EXIT_FAILURE
                   ∧ diagnostics (r_trace r) = ["error reading the next ogg page"]
               end) as Hshape.
  { intros r _ Hmsg. destruct en; [exact I|apply Hmsg..]; reflexivity. }
  intros Hin. apply Hshape; [exact Hin|]. clear Hshape. revert Hin.
  apply (run_entries e opt (λ r,
    In (c_read_page (page_end en)) (r_trace r) →
    ∀ msg, end_error en = Some msg →
           exit_status r = EXIT_FAILURE ∧ diagnostics (r_trace r) = [msg])).
  1-4: intros; match goal with H : In _ _ |- _ => simpl in H; in_setup H end.
  intros inp wfile fs tr st tl Hent Hst _ Htr Hl.
  pose proof (entered_silent _ _ _ _ _ _ Hent Hl) as Hquiet.
  destruct (entered_setup _ _ _ _ _ Hent) as (Hs & _).
  assert (∀ tail, forallb finish_call tail = true →
                  In (c_read_page (page_end en)) (trace st ++ tail) →
                  ∀ msg, end_error en = Some msg → final_error st = Some msg) as Hfinal.
  { intros tail Htail Hin msg Hmsg. apply in_app_iff in Hin as [Hin|Hin].
    - unfold final_error. rewrite Hst in *.
      rewrite (main_loop_end e opt wfile _ _ _ ) with (en := en);
        [rewrite Hmsg; reflexivity| |exact Hin].
      intros en' Hin'. simpl in Hin'. rewrite forallb_forall in Hs.
      specialize (Hs _ Hin'). discriminate.
    - rewrite forallb_forall in Htail. specialize (Htail _ Hin). discriminate. }
  assert (forallb finish_call (closes (input_handle opt) wfile) = true) as Hcl
    by (destruct wfile; reflexivity).
  assert (∀ tail, forallb finish_call tail = true →
                  forallb finish_call (closes (input_handle opt) wfile ++ tail) = true)
    as Hfin by (intros tail Ht; rewrite forallb_app, Hcl; exact Ht).
  assert (∀ tail, diagnostics (trace st ++ closes (input_handle opt) wfile ++ tail)
                  = diagnostics tail) as Hdiag.
  { intros tail. rewrite Htr, (diagnostics_app (tr ++ tl)), Hquiet, diagnostics_app,
      (silent_diagnostics _ (closes_silent (input_handle opt) wfile)). reflexivity. }
  apply finish_cases; cbn [r_trace exit_status r_fs].
  - intros msg Hf _ Hin msg' Hm.
    assert (final_error st = Some msg') as Hmsg
      by (eapply Hfinal; [|exact Hin|exact Hm]; apply Hfin; reflexivity).
    rewrite Hmsg in Hf. injection Hf as <-. rewrite Hdiag. auto.
  - intros msg Hf _ Hin msg' Hm.
    assert (final_error st = Some msg') as Hmsg
      by (eapply Hfinal; [|exact Hin|exact Hm]; apply Hfin; reflexivity).
    rewrite Hmsg in Hf. injection Hf as <-. rewrite Hdiag. auto.
  - intros sfx Hf _ _ Hin msg' Hm.
    assert (final_error st = Some msg') as Hmsg
      by (eapply Hfinal; [|exact Hin|exact Hm]; apply Hfin; reflexivity).
    rewrite Hmsg in Hf. discriminate.
  - intros sfx Hf _ _ Hin msg' Hm.
    assert (final_error st = Some msg') as Hmsg
      by (eapply Hfinal; [|exact Hin|exact Hm]; apply Hfin; reflexivity).
    rewrite Hmsg in Hf. discriminate.
  - intros Hf _ Hin msg' Hm.
    rewrite (Hfinal _ Hcl Hin _ Hm) in Hf. discriminate.
Qed.

End ReadEnd.

Lemma orderly_calm w tr ta :
  forallb readless ta = true → orderly w tr → orderly w (tr ++ ta).
Proof.
  intros Hta Htr tr1 og tr2 Heq Hseen.
  destruct (calm_split _ _ _ _ _ Hta Heq) as (m & Hm & ->).
  destruct (Htr _ _ _ Hm Hseen) as (Hw & written & tr3 & ->).
  split; [exact Hw|]. exists written, (tr3 ++ ta). reflexivity.
Qed.

Lemma orderly_header w tr og ta :
  (packets_seen tr < 2)%nat → forallb readless ta = true →
  orderly w tr → orderly w (tr ++ c_read_page (page_read og) :: ta).
Proof.
  intros Hfew Hta Htr tr1 og' tr2 Heq Hseen.
  destruct (read_split _ _ _ _ _ _ Hta Heq) as [(m & Hm & ->)|(-> & _ & _)]; [|lia].
  destruct (Htr _ _ _ Hm Hseen) as (Hw & written & tr3 & ->).
  split; [exact Hw|]. exists written, (tr3 ++ c_read_page (page_read og) :: ta).
  reflexivity.
Qed.

Lemma orderly_copy tr og written :
  orderly true tr →
  orderly true (tr ++ [c_read_page (page_read og); c_write_page og written]).
Proof.
  intros Htr tr1 og' tr2 Heq Hseen.
  destruct (read_split tr og [c_write_page og written] tr1 og' tr2 eq_refl Heq)
    as [(m & Hm & ->)|(-> & -> & ->)].
  - destruct (Htr _ _ _ Hm Hseen) as (Hw & w' & tr3 & ->).
    split; [exact Hw|]. eexists w', _. reflexivity.
  - split; [reflexivity|]. exists written, []. reflexivity.
Qed.

Lemma finish_calls_readless tr : forallb finish_call tr = true → forallb readless tr = true.
Proof.
  rewrite !forallb_forall. intros H c Hin. specialize (H c Hin).
  destruct c; try discriminate; reflexivity.
Qed.

Lemma setup_calls_readless tr : forallb setup_call tr = true → forallb readless tr = true.
Proof.
  rewrite !forallb_forall. intros H c Hin. specialize (H c Hin).
  destruct c; try discriminate; reflexivity.
Qed.

Lemma readless_orderly w tr : forallb readless tr = true → orderly w tr.
Proof.
  intros Htr tr1 og tr2 Heq _. rewrite forallb_forall in Htr.
  specialize (Htr (c_read_page (page_read og))). rewrite Heq in Htr.
  specialize (Htr (in_elt _ _ _)). discriminate.
Qed.

Lemma finish_no_packets tr : forallb finish_call tr = true → packets_seen tr = 0%nat.
Proof.
  induction tr as [|c tr IH]; [reflexivity|]. intros H. simpl in H.
  apply andb_prop in H as [Hc Htr]. change (c :: tr) with ([c] ++ tr).
  rewrite packets_seen_app, (IH Htr). destruct c; try discriminate; reflexivity.
Qed.

Section Order.
Context {stream : Type} `{!Libogg stream}.
Variable e : env.
Variable opt : options.

Local Abbreviation state := (state stream).
Implicit Types st : state.

Lemma read_packets_stops n st :
  packet_count st < 2 → packet_count (read_packets e opt None n st) <= 2.
Proof.
  revert st. induction n as [|n IH]; intros st Hpc; simpl; [lia|].
  destruct (reader_stream st) as [rs|]; [|lia].
  destruct (ogg_stream_packetout rs) as [r rs'].
  destruct r as [op| |]; [|simpl; lia..].
  set (st1 := set_packet_count _ _).
  assert (packet_count st1 = packet_count st + 1) as H1 by reflexivity.
  destruct (packet_count st + 1 =? 1) eqn:Hone.
  { apply Z.eqb_eq in Hone. destruct (ot.status_eqb _ ot.ok).
    - apply IH. simpl. lia.
    - simpl. lia. }
  destruct (packet_count st + 1 =? 2) eqn:Htwo.
  { apply Z.eqb_eq in Htwo.
    destruct (process_tags_spec e opt None op st1) as (rc & tr & ws & -> & _).
    destruct (ot.status_eqb rc ot.ok); simpl; lia. }
  apply Z.eqb_neq in Hone, Htwo. apply IH. simpl. lia.
Qed.

Lemma page_step_stops og st :
  packet_count st < 2 →
  packet_count (fst (page_step e opt None og st)) <= 2
  ∧ (snd (page_step e opt None og st) = true →
     packet_count (fst (page_step e opt None og st)) < 2).
Proof.
  intros Hpc. unfold page_step. rewrite andb_false_r.
  destruct (init_streams_calls None og st) as [_ H1].
  assert (packet_count (init_streams None og st) < 2) as Hpc1 by lia.
  destruct (error (init_streams None og st)); [simpl; split; [lia|discriminate]|].
  destruct (feed_page_calls og (init_streams None og st)) as [_ H2].
  destruct (error (feed_page og _)); [simpl; split; [lia|discriminate]|].
  pose proof (read_packets_stops (fuel_of (feed_page og (init_streams None og st)))
                (feed_page og (init_streams None og st))) as H3.
  set (st3 := read_packets _ _ _ _ _) in *.
  assert (packet_count st3 <= 2) as Hpc3 by (apply H3; lia).
  destruct (error st3); [simpl; split; [lia|discriminate]|].
  destruct (check_reader_calls st3) as [_ H4].
  destruct (2 <=? packet_count (check_reader st3)) eqn:Hlast; simpl.
  - split; [lia|discriminate].
  - apply Z.leb_gt in Hlast. split; [lia|intros _; lia].
Qed.

Lemma tallied_few st : tallied st → packet_count st < 2 → (packets_seen (trace st) < 2)%nat.
Proof. intros [_ [Hc|[_ Hs]]] Hpc; [unfold counted in Hc|]; lia. Qed.

Lemma main_loop_orderly wfile pages ending st :
  tallied st → orderly (writing wfile) (trace st) →
  (wfile = None → packet_count st < 2) →
  orderly (writing wfile) (trace (main_loop e opt wfile pages ending st))
  ∧ (wfile = None → packet_count (main_loop e opt wfile pages ending st) <= 2).
Proof.
  intros Ht Ho Hpc. revert st Ht Ho Hpc.
  assert (∀ st, tallied st ∧ orderly (writing wfile) (trace st)
                ∧ (wfile = None → packet_count st < 2) →
                orderly (writing wfile) (trace (main_loop e opt wfile pages ending st))
                ∧ (wfile = None →
                   packet_count (main_loop e opt wfile pages ending st) <= 2)) as Hmain.
  2: { intros st Ht Ho Hpc. apply Hmain. auto. }
  apply (main_loop_inv e opt wfile ending
    (λ st, tallied st ∧ orderly (writing wfile) (trace st)
           ∧ (wfile = None → packet_count st < 2))
    (λ st, orderly (writing wfile) (trace st)
           ∧ (wfile = None → packet_count st <= 2))).
  - intros st (_ & Ho & Hpc). split; [exact Ho|]. intros Hw. specialize (Hpc Hw). lia.
  - intros st (_ & Ho & Hpc) Herr. simpl. rewrite Herr.
    destruct ending; simpl; (split; [apply orderly_calm; [reflexivity|exact Ho]|]);
      intros Hw; specialize (Hpc Hw); lia.
  - intros og st (Ht & Ho & Hpc) Herr.
    set (st0 := log (c_read_page (page_read og)) st).
    assert (tallied st0) as Ht0 by (apply tallied_log; auto).
    pose proof (page_step_sound e opt wfile og st0 Ht0) as Hts.
    assert (orderly (writing wfile) (trace (fst (page_step e opt wfile og st0)))) as Hos.
    { pose proof (page_step_calls e opt wfile og st0) as (ta & Hta & Hcalls).
      revert Hta. unfold page_step. rewrite writing_decide.
      destruct ((2 <=? packet_count st0) && writing wfile) eqn:Hcond.
      - apply andb_prop in Hcond as [_ Hw]. rewrite Hw in *. intros _.
        destruct (env_fwrite_ok e (length (trace st0))); simpl;
          rewrite <- app_assoc; apply orderly_copy, Ho.
      - intros ->. simpl. rewrite <- app_assoc. simpl.
        apply orderly_header; [|eapply step_calls_readless, Hcalls|exact Ho].
        apply tallied_few; [exact Ht|].
        apply andb_false_iff in Hcond as [Hlt|Hw].
        + apply Z.leb_gt in Hlt. exact Hlt.
        + apply Hpc. destruct wfile; [discriminate|reflexivity]. }
    assert (wfile = None →
            packet_count (fst (page_step e opt wfile og st0)) <= 2
            ∧ (snd (page_step e opt wfile og st0) = true →
               packet_count (fst (page_step e opt wfile og st0)) < 2)) as Hcs.
    { intros ->. apply page_step_stops. apply Hpc. reflexivity. }
    simpl. fold st0. destruct (snd (page_step e opt wfile og st0)) eqn:Hnext.
    + split; [exact Hts|]. split; [exact Hos|]. intros Hw. apply (Hcs Hw). reflexivity.
    + split; [exact Hos|]. intros Hw. apply (Hcs Hw).
Qed.

End Order.

Section AfterHeaders.
Context {stream : Type} `{!Libogg stream}.

Lemma run_orderly e opt :
  orderly (negb (String.eqb (output_path opt) ""))
    (r_trace (run (stream := stream) e opt))
  ∧ (output_path opt = "" →
     (packets_seen (r_trace (run (stream := stream) e opt)) ≤ 2)%nat).
Proof.
  destruct (compared_setup opt) as (Hc & _).
  destruct (input_opened_setup opt) as (Hi & _).
  destruct (prelude_setup opt) as (Hp & _).
  apply (run_entries e opt (λ r,
    orderly (negb (String.eqb (output_path opt) "")) (r_trace r)
    ∧ (output_path opt = "" → (packets_seen (r_trace r) ≤ 2)%nat))).
  1-4: intros;
    match goal with |- context [failure _ ?tr] =>
      assert (forallb setup_call tr = true) as Hs
        by (rewrite ?forallb_app, ?Hc, ?Hi, ?Hp; reflexivity)
    end;
    (split; [apply readless_orderly, setup_calls_readless, Hs|]);
    intros _; cbn [r_trace failure]; rewrite (setup_no_packets _ Hs); lia.
  intros inp wfile fs tr st tl Hent Hst Ht Htr Hl.
  destruct (entered_setup _ _ _ _ _ Hent) as (Hs & _ & Hcl & Hseen).
  rewrite <- (entered_writing _ _ _ _ _ Hent).
  destruct (main_loop_orderly e opt wfile (in_pages inp) (in_end inp) (init_state tr))
    as [Ho Hpc].
  { split; [split; auto|right; auto]. }
  { apply readless_orderly, setup_calls_readless, Hs. }
  { intros _. simpl. lia. }
  rewrite <- Hst in Ho, Hpc.
  destruct (finish_calls e opt (output_path opt) (input_handle opt) wfile fs st)
    as (tail & -> & Htail).
  split; [apply orderly_calm; [apply finish_calls_readless, Htail|exact Ho]|].
  intros Hout. rewrite packets_seen_app, (finish_no_packets _ Htail).
  assert (wfile = None) as Hw.
  { destruct Hent as [(_ & -> & _)|[(Hd & _)|(Hne & _)]]; congruence. }
  specialize (Hpc Hw). destruct Ht as [_ [Hcount|[_ Hzero]]]; [unfold counted in Hcount|]; lia.
Qed.

(** X16: a page that is read after two packets were seen is read only
    when an output is written, and the very next call writes that same
    page: after the headers, pages go to the output as they are, without
    passing through the decoder. *)
Theorem audio_pages_copied e opt tr1 og tr2 :
  r_trace (run (stream := stream) e opt) = tr1 ++ c_read_page (page_read og) :: tr2 →
  (2 ≤ packets_seen tr1)%nat →
  output_path opt ≠ ""
  ∧ ∃ written tr3, tr2 = c_write_page og written :: tr3.
Proof.
  intros Heq Hseen. destruct (run_orderly e opt) as [Ho _].
  destruct (Ho _ _ _ Heq Hseen) as [Hw Hcopy]. split; [|exact Hcopy].
  intros Hout. rewrite Hout in Hw. discriminate.
Qed.

(** X17: without an output, at most two packets are taken out of the
    decoder and no page is read once two packets were seen: the run stops
    at the comment header. *)
Theorem read_only_stops_at_comments e opt :
  output_path opt = "" →
  (packets_seen (r_trace (run (stream := stream) e opt)) ≤ 2)%nat
  ∧ ∀ tr1 og tr2,
      r_trace (run (stream := stream) e opt)
      = tr1 ++ c_read_page (page_read og) :: tr2 →
      (packets_seen tr1 < 2)%nat.
Proof.
  intros Hout. destruct (run_orderly e opt) as [Ho Hfew]. split; [apply Hfew, Hout|].
  intros tr1 og tr2 Heq.
  destruct (le_lt_dec 2 (packets_seen tr1)) as [Hmany|Hlt]; [|exact Hlt].
  destruct (Ho _ _ _ Heq Hmany) as [Hw _]. rewrite Hout in Hw. discriminate.
Qed.

End AfterHeaders.

Lemma validations_app tr1 tr2 : validations (tr1 ++ tr2) = validations tr1 ++ validations tr2.
Proof. apply List.filter_app. Qed.

Lemma tags_calls_app tr1 tr2 : tags_calls (tr1 ++ tr2) = tags_calls tr1 ++ tags_calls tr2.
Proof. apply List.filter_app. Qed.

Lemma plain_calls tr :
  forallb plain tr = true → validations tr = [] ∧ tags_calls tr = [].
Proof.
  induction tr as [|c tr IH]; [auto|]. intros H. simpl in H.
  apply andb_prop in H as [Hc Htr]. destruct (IH Htr) as [Hv Ht].
  change (c :: tr) with ([c] ++ tr). rewrite validations_app, tags_calls_app, Hv, Ht.
  destruct c; try discriminate; auto.
Qed.

Lemma outer_plain w c : outer_call w c = true → plain c = true.
Proof. destruct c; try discriminate; reflexivity. Qed.

Lemma header_plain c : header_call c = true → plain c = true.
Proof. destruct c; try discriminate; reflexivity. Qed.

Lemma setup_plain c : setup_call c = true → plain c = true.
Proof. destruct c; try discriminate; reflexivity. Qed.

Lemma finish_plain c : finish_call c = true → plain c = true.
Proof. destruct c; try discriminate; reflexivity. Qed.

Lemma forallb_weaken (P Q : call → bool) tr :
  (∀ c, P c = true → Q c = true) → forallb P tr = true → forallb Q tr = true.
Proof. rewrite !forallb_forall. auto. Qed.

Lemma filter_one (P : call → bool) tr :
  length (List.filter P tr) = 1%nat →
  ∃ c, List.filter P tr = [c] ∧ In c tr ∧ P c = true.
Proof.
  intros Hlen. destruct (List.filter P tr) as [|c [|c' rest]] eqn:Hf; try discriminate.
  exists c. split; [reflexivity|].
  apply List.filter_In. rewrite Hf. left. reflexivity.
Qed.

Section Headers.
Context {stream : Type} `{!Libogg stream}.
Variable e : env.
Variable opt : options.
Variable wfile : option handle.

Local Abbreviation state := (state stream).
Implicit Types st : state.

Lemma headed_grows st st' :
  grows_by plain st st' →
  packet_count st' = packet_count st
  ∨ (packet_count st = -1 ∧ packet_count st' = 0) →
  headed st → headed st'.
Proof.
  intros (ta & Hta & Hplain) Hpc [Hv Ht]. unfold headed.
  destruct (plain_calls _ Hplain) as [Hv' Ht'].
  rewrite Hta, validations_app, tags_calls_app, Hv', Ht', !app_nil_r, Hv, Ht.
  destruct Hpc as [->|[-> ->]]; auto.
Qed.

Lemma headed_log c st : plain c = true → headed st → headed (log c st).
Proof.
  intros Hc. apply headed_grows; [|left; reflexivity].
  eapply grows_by_log; [exact Hc|reflexivity].
Qed.

Lemma headed_set_error msg st : headed st → headed (set_error msg st).
Proof. intros H. exact H. Qed.

Lemma process_tags_plain op st :
  ∃ rc tr ws,
    process_tags e opt wfile op st
    = (rc, {| reader_stream := reader_stream st; writer_stream := ws;
              packet_count := packet_count st; error := error st;
              trace := trace st ++ tr |})
    ∧ forallb plain tr = true.
Proof.
  unfold process_tags. destruct (ot.parse_tags (packet op)) as [tags|].
  - destruct wfile.
    + destruct (writer_packetin_spec (render_tags (edit_tags e opt tags)) st)
        as (done & ws & ->).
      destruct done; eexists _, [_], ws; (split; [reflexivity|]); reflexivity.
    + eexists ot.ok, [_], _. split; reflexivity.
  - exists ot.bad_comment_header, [], (writer_stream st).
    rewrite app_nil_r. destruct st; simpl. split; reflexivity.
Qed.

Lemma headed_next st st' ta :
  trace st' = trace st ++ ta → packet_count st' = packet_count st + 1 →
  length (validations ta) = (if packet_count st =? 0 then 1%nat else 0%nat) →
  length (tags_calls ta) = (if packet_count st =? 1 then 1%nat else 0%nat) →
  headed st → headed st'.
Proof.
  intros Htr Hpc Hv Ht [Hv0 Ht0]. unfold headed.
  rewrite Htr, Hpc, validations_app, tags_calls_app, !length_app, Hv, Ht, Hv0, Ht0.
  destruct (1 <=? packet_count st) eqn:H1, (1 <=? packet_count st + 1) eqn:H1',
    (2 <=? packet_count st) eqn:H2, (2 <=? packet_count st + 1) eqn:H2',
    (packet_count st =? 0) eqn:E0, (packet_count st =? 1) eqn:E1;
    try (split; reflexivity); exfalso;
    rewrite ?Z.leb_le, ?Z.leb_gt, ?Z.eqb_eq, ?Z.eqb_neq in *; lia.
Qed.

Lemma read_packets_headed n st : headed st → headed (read_packets e opt wfile n st).
Proof.
  revert st. induction n as [|n IH]; intros st Hst; simpl; [assumption|].
  destruct (reader_stream st) as [rs|]; [|assumption].
  destruct (ogg_stream_packetout rs) as [r rs'].
  destruct r as [op| |]; [|apply headed_log; auto..].
  set (st1 := set_packet_count _ _).
  assert (∀ st', headed st' →
            headed
              match wfile with
              | Some _ =>
                  let '(done, st0) := writer_packetin op st' in
                  if done then read_packets e opt wfile n st0
                  else set_error "ogg_stream_packetin: internal error" st0
              | None => read_packets e opt wfile n st'
              end) as Hcopy.
  { intros st' Hst'. destruct wfile; [|apply IH; assumption].
    destruct (writer_packetin_spec op st') as (done & ws & ->).
    assert (headed (log (c_stream_packetin op done) (set_writer ws st'))) as Hin
      by (apply (headed_log _ (set_writer ws st')); auto).
    destruct done; [apply IH|]; exact Hin. }
  destruct (packet_count st + 1 =? 1) eqn:Hone.
  { apply Z.eqb_eq in Hone.
    assert (headed (log (c_validate_identification_header
                           (ot.validate_identification_header (packet op))) st1)) as H2.
    { apply (headed_next st _
               [c_stream_packetout (po_packet op);
                c_validate_identification_header
                  (ot.validate_identification_header (packet op))]);
        [unfold st1; simpl; rewrite <- app_assoc; reflexivity|reflexivity| | |exact Hst].
      all: replace (packet_count st) with 0 by lia; reflexivity. }
    destruct (ot.status_eqb _ ot.ok); [apply Hcopy|]; exact H2. }
  destruct (packet_count st + 1 =? 2) eqn:Htwo.
  { apply Z.eqb_eq in Htwo.
    destruct (process_tags_plain op st1) as (rc & tr & ws & -> & Hplain).
    destruct (plain_calls _ Hplain) as [Hv' Ht'].
    set (st2 := {| reader_stream := _ |}).
    assert (headed (log (c_process_tags rc) st2)) as H2.
    { apply (headed_next st _
               ([c_stream_packetout (po_packet op)] ++ tr ++ [c_process_tags rc]));
        [unfold st2, st1; simpl; rewrite <- !app_assoc; reflexivity|reflexivity
        | | |exact Hst].
      all: rewrite ?validations_app, ?tags_calls_app, ?Hv', ?Ht';
        replace (packet_count st) with 1 by lia; reflexivity. }
    destruct (ot.status_eqb rc ot.ok); [destruct wfile; [apply IH|]|]; exact H2. }
  apply Hcopy. apply Z.eqb_neq in Hone, Htwo.
  apply (headed_next st _ [c_stream_packetout (po_packet op)]);
    [reflexivity|reflexivity| | |exact Hst].
  - destruct (packet_count st =? 0) eqn:E0; [apply Z.eqb_eq in E0; lia|reflexivity].
  - destruct (packet_count st =? 1) eqn:E1; [apply Z.eqb_eq in E1; lia|reflexivity].
Qed.

Lemma main_loop_headed pages ending st :
  headed st → headed (main_loop e opt wfile pages ending st).
Proof.
  revert st. apply (main_loop_inv e opt wfile ending headed headed); [auto| |].
  - intros st Hst Herr. simpl. rewrite Herr.
    destruct ending; simpl; apply (headed_log _ st); auto.
  - intros og st Hst _.
    assert (headed (fst (page_step e opt wfile og (log (c_read_page (page_read og)) st))))
      as Hstep.
    { apply page_step_preserves.
      - intros st' written. apply headed_log. reflexivity.
      - intros st' msg. apply headed_set_error.
      - intros st'. destruct (init_streams_calls wfile og st') as [Hg Hpc].
        apply headed_grows; [|exact Hpc].
        eapply grows_by_weaken; [apply header_plain|exact Hg].
      - intros st'. destruct (feed_page_calls og st') as [Hg Hpc].
        apply headed_grows; [|left; exact Hpc].
        eapply grows_by_weaken; [apply header_plain|exact Hg].
      - intros st' n. apply read_packets_headed.
      - intros st'. destruct (check_reader_calls st') as [Hg Hpc].
        apply headed_grows; [|left; exact Hpc].
        eapply grows_by_weaken; [apply header_plain|exact Hg].
      - intros st'. destruct (flush_page_calls e st') as [Hg Hpc].
        apply headed_grows; [|left; exact Hpc].
        eapply grows_by_weaken; [apply outer_plain|exact Hg].
      - apply headed_log; [reflexivity|exact Hst]. }
    simpl. destruct (snd _); exact Hstep.
Qed.

End Headers.

Lemma clean_not_failed tr c : clean tr = true → In c tr → failed c = false.
Proof.
  unfold clean. rewrite forallb_forall. intros H Hin. specialize (H _ Hin).
  destruct (failed c); [discriminate|reflexivity].
Qed.

Lemma status_eqb_ok rc : ot.status_eqb rc ot.ok = true → rc = ot.ok.
Proof. destruct rc; try discriminate; reflexivity. Qed.

Section HeadersOnce.
Context {stream : Type} `{!Libogg stream}.

(** What a loop that ends well has done with the headers. *)
Lemma headed_success (st : state stream) :
  tallied st → headed st → final_error st = None →
  validations (trace st) = [c_validate_identification_header ot.ok]
  ∧ tags_calls (trace st) = [c_process_tags ot.ok]
  ∧ In (c_process_tags ot.ok) (trace st).
Proof.
  intros Htal [Hv Ht] Hf. destruct (final_error_none st Htal Hf) as [Hclean Hseen].
  assert (2 <= packet_count st) as Hpc.
  { destruct Htal as [_ [Hcnt|[_ Hz]]]; [unfold counted in Hcnt|]; lia. }
  assert ((1 <=? packet_count st) = true) as H1 by (apply Z.leb_le; lia).
  assert ((2 <=? packet_count st) = true) as H2 by (apply Z.leb_le; lia).
  rewrite H1 in Hv. rewrite H2 in Ht.
  destruct (filter_one _ _ Hv) as (cv & Hcv & Hinv & Hisv).
  destruct (filter_one _ _ Ht) as (ct & Hct & Hint & Hist).
  unfold validations, tags_calls. rewrite Hcv, Hct.
  pose proof (clean_not_failed _ _ Hclean Hinv) as Hfv.
  pose proof (clean_not_failed _ _ Hclean Hint) as Hft.
  destruct cv; try discriminate. destruct ct; try discriminate.
  simpl in Hfv, Hft. apply negb_false_iff in Hfv, Hft.
  apply status_eqb_ok in Hfv, Hft. subst. auto.
Qed.


(** X18: [ot::validate_identification_header] and [process_tags] are
    each called at most once in a run; when the run succeeds each was
    called exactly once and returned [ok]. *)
Theorem headers_checked_once e opt :
  ((length (validations (r_trace (run (stream := stream) e opt))) ≤ 1)%nat
   ∧ (length (tags_calls (r_trace (run (stream := stream) e opt))) ≤ 1)%nat)
  ∧ (exit_status (run (stream := stream) e opt) = EXIT_SUCCESS →
     validations (r_trace (run (stream := stream) e opt))
     = [c_validate_identification_header ot.ok]
     ∧ tags_calls (r_trace (run (stream := stream) e opt)) = [c_process_tags ot.ok]).
Proof.
  destruct (compared_setup opt) as (Hc & _).
  destruct (input_opened_setup opt) as (Hi & _).
  destruct (prelude_setup opt) as (Hp & _).
  apply (run_entries e opt (λ r,
    ((length (validations (r_trace r)) ≤ 1)%nat
     ∧ (length (tags_calls (r_trace r)) ≤ 1)%nat)
    ∧ (exit_status r = EXIT_SUCCESS →
       validations (r_trace r) = [c_validate_identification_header ot.ok]
       ∧ tags_calls (r_trace r) = [c_process_tags ot.ok]))).
  1-4: intros;
    match goal with |- context [failure _ ?tr] =>
      assert (forallb setup_call tr = true) as Hs
        by (rewrite ?forallb_app, ?Hc, ?Hi, ?Hp; reflexivity)
    end;
    destruct (plain_calls _ (forallb_weaken _ _ _ setup_plain Hs)) as [Hv Ht];
    cbn [r_trace failure exit_status]; rewrite Hv, Ht;
    (split; [simpl; lia|discriminate]).
  intros inp wfile fs tr st tl Hent Hst Htal Htr Hl.
  destruct (entered_setup _ _ _ _ _ Hent) as (Hs & _).
  destruct (plain_calls _ (forallb_weaken _ _ _ setup_plain Hs)) as [Hv0 Ht0].
  assert (headed st) as [Hv Ht].
  { rewrite Hst. apply main_loop_headed. unfold headed. simpl. rewrite Hv0, Ht0. auto. }
  destruct (finish_calls e opt (output_path opt) (input_handle opt) wfile fs st)
    as (tail & Htail & Hfin).
  destruct (plain_calls _ (forallb_weaken _ _ _ finish_plain Hfin)) as [Hv1 Ht1].
  rewrite Htail, validations_app, tags_calls_app, Hv1, Ht1, !app_nil_r.
  split.
  { rewrite Hv, Ht. destruct (1 <=? packet_count st), (2 <=? packet_count st); lia. }
  intros Hok.
  assert (final_error st = None) as Hf.
  { revert Hok. apply finish_cases; cbn [exit_status]; try (intros; discriminate); auto. }
  destruct (headed_success st Htal (conj Hv Ht) Hf) as (Hvs & Hts & _). auto.
Qed.

End HeadersOnce.

Lemma step_calls_unread w tr : forallb (step_call w) tr = true → forallb unread tr = true.
Proof.
  apply forallb_weaken. intros c. destruct c; try reflexivity. destruct w; discriminate.
Qed.

Lemma finish_calls_unread tr : forallb finish_call tr = true → forallb unread tr = true.
Proof. apply forallb_weaken. intros c. destruct c; try reflexivity; discriminate. Qed.

Lemma setup_calls_unread tr : forallb setup_call tr = true → forallb unread tr = true.
Proof. apply forallb_weaken. intros c. destruct c; try reflexivity; discriminate. Qed.

Lemma unread_fail_fast tr : forallb unread tr = true → fail_fast tr.
Proof.
  intros Htr tr1 c tr2 -> _. rewrite forallb_app in Htr.
  apply andb_prop in Htr as [_ Htr]. simpl in Htr.
  apply andb_prop in Htr as [_ Htr]. exact Htr.
Qed.

Lemma fail_fast_app tr ta : forallb unread ta = true → fail_fast tr → fail_fast (tr ++ ta).
Proof.
  intros Hta Htr tr1 c tr2 Heq Hc.
  apply app_eq_app in Heq as [l [[-> Heq]|[-> Heq]]].
  - destruct l as [|c' l]; simpl in Heq.
    + subst ta. simpl in Hta. apply andb_prop in Hta as [_ Hta]. exact Hta.
    + injection Heq as <- ->. rewrite forallb_app, (Htr _ _ _ eq_refl Hc), Hta.
      reflexivity.
  - rewrite Heq in Hta. rewrite forallb_app in Hta. apply andb_prop in Hta as [_ Hta].
    simpl in Hta. apply andb_prop in Hta as [_ Hta]. exact Hta.
Qed.

Lemma clean_fail_fast tr ta : clean tr = true → forallb unread (tl ta) = true →
  fail_fast (tr ++ ta).
Proof.
  intros Hclean Hta tr1 c tr2 Heq Hc.
  apply app_eq_app in Heq as [l [[-> Heq]|[-> Heq]]].
  - destruct l as [|c' l]; simpl in Heq.
    + subst ta. exact Hta.
    + injection Heq as <- ->. exfalso.
      pose proof (clean_not_failed _ c Hclean) as Hok.
      rewrite Hok in Hc; [discriminate|]. apply in_elt.
  - destruct l as [|c' l]; simpl in Heq.
    + subst ta. exact Hta.
    + subst ta. simpl in Hta. rewrite forallb_app in Hta.
      apply andb_prop in Hta as [_ Hta]. simpl in Hta.
      apply andb_prop in Hta as [_ Hta]. exact Hta.
Qed.

Section FailFast.
Context {stream : Type} `{!Libogg stream}.

Lemma main_loop_fail_fast e opt wfile pages ending (st : state stream) :
  tallied st → fail_fast (trace st) →
  fail_fast (trace (main_loop e opt wfile pages ending st)).
Proof.
  intros Ht Hf. revert st Ht Hf.
  assert (∀ st : state stream, tallied st ∧ fail_fast (trace st) →
            fail_fast (trace (main_loop e opt wfile pages ending st))) as Hmain.
  2: { intros st Ht Hf. apply Hmain. auto. }
  apply (main_loop_inv e opt wfile ending
    (λ st, tallied st ∧ fail_fast (trace st)) (λ st, fail_fast (trace st))).
  - intros st [_ Hf]. exact Hf.
  - intros st [[Ha _] _] Herr. simpl. rewrite Herr. apply Ha in Herr.
    destruct ending; simpl; apply clean_fail_fast; auto.
  - intros og st [Ht _] Herr.
    set (st0 := log (c_read_page (page_read og)) st).
    assert (tallied st0) as Ht0 by (apply tallied_log; auto).
    pose proof (page_step_sound e opt wfile og st0 Ht0) as Hts.
    assert (fail_fast (trace (fst (page_step e opt wfile og st0)))) as Hfs.
    { destruct (page_step_calls e opt wfile og st0) as (ta & -> & Hta).
      destruct Ht as [Ha _]. apply Ha in Herr. simpl. rewrite <- app_assoc.
      apply clean_fail_fast; [exact Herr|]. simpl. eapply step_calls_unread, Hta. }
    simpl. fold st0. destruct (snd _); [split|]; assumption.
Qed.

(** X19: after a call whose failure [run] tests has failed (the calls of
    [failed]), no further page is asked for: the first such failure ends
    the reading.  The -1 of [ogg_stream_packetout] is not tested by [run]
    and is none of them. *)
Theorem no_read_after_failure e opt tr1 c tr2 :
  r_trace (run (stream := stream) e opt) = tr1 ++ c :: tr2 → failed c = true →
  ∀ r, ¬ In (c_read_page r) tr2.
Proof.
  intros Heq Hc r Hin.
  assert (fail_fast (r_trace (run (stream := stream) e opt))) as Hff.
  { destruct (compared_setup opt) as (Hcm & _).
    destruct (input_opened_setup opt) as (Hi & _).
    destruct (prelude_setup opt) as (Hp & _).
    apply (run_entries e opt (λ r, fail_fast (r_trace r))).
    1-4: intros; apply unread_fail_fast, setup_calls_unread; cbn [r_trace failure];
      rewrite ?forallb_app, ?Hcm, ?Hi, ?Hp; reflexivity.
    intros inp wfile fs tr st tl Hent Hst Htal Htr Hl.
    destruct (entered_setup _ _ _ _ _ Hent) as (Hs & _ & Hcl & Hseen).
    destruct (finish_calls e opt (output_path opt) (input_handle opt) wfile fs st)
      as (tail & -> & Htail).
    apply fail_fast_app; [apply finish_calls_unread, Htail|].
    rewrite Hst. apply main_loop_fail_fast.
    - split; [split; auto|right; auto].
    - apply unread_fail_fast, setup_calls_unread, Hs. }
  pose proof (Hff _ _ _ Heq Hc) as Hun. rewrite forallb_forall in Hun.
  specialize (Hun _ Hin). discriminate.
Qed.

End FailFast.

Lemma unflushed_split tr ta tr1 r tr2 :
  forallb unflushed ta = true →
  tr ++ ta = tr1 ++ c_stream_flush r :: tr2 →
  ∃ m, tr = tr1 ++ c_stream_flush r :: m ∧ tr2 = m ++ ta.
Proof.
  intros Hta Heq. apply app_eq_app in Heq as [l [[-> Heq]|[-> Heq]]].
  - destruct l as [|c l]; simpl in Heq.
    + subst ta. simpl in Hta. discriminate.
    + injection Heq as <- ->. exists l. split; reflexivity.
  - exfalso. rewrite Heq, forallb_app in Hta. apply andb_prop in Hta as [_ Hta].
    simpl in Hta. discriminate.
Qed.

Lemma flushes_written_app e tr ta :
  forallb unflushed ta = true → flushes_written e tr → flushes_written e (tr ++ ta).
Proof.
  intros Hta Htr tr1 r tr2 Heq.
  destruct (unflushed_split _ _ _ _ _ Hta Heq) as (m & Hm & ->).
  destruct (Htr _ _ _ Hm) as (written & tr3 & ->).
  exists written, (tr3 ++ ta). reflexivity.
Qed.

Lemma flushes_written_flush e tr r written ta :
  forallb unflushed ta = true → flushes_written e tr →
  flushes_written e
    (tr ++ c_stream_flush r :: c_write_page (flushed_page e r (length tr)) written :: ta).
Proof.
  intros Hta Htr tr1 r' tr2 Heq. apply app_eq_app in Heq as [l [[Hl Heq]|[Hl Heq]]].
  - destruct l as [|c l]; simpl in Heq.
    + rewrite app_nil_r in Hl. subst tr1. injection Heq as -> ->. eauto.
    + injection Heq as <- ->. destruct (Htr _ _ _ Hl) as (w' & tr3 & ->).
      eexists w', _. reflexivity.
  - destruct l as [|c l]; simpl in Heq.
    + rewrite app_nil_r in Hl. subst tr1. injection Heq as <- <-. eauto.
    + exfalso. injection Heq as <- Heq. destruct l as [|c' l]; simpl in Heq;
        [discriminate|].
      injection Heq as <- Heq. rewrite Heq, forallb_app in Hta.
      apply andb_prop in Hta as [_ Hta]. simpl in Hta. discriminate.
Qed.

Lemma unflushed_written e tr : forallb unflushed tr = true → flushes_written e tr.
Proof.
  intros Htr tr1 r tr2 Heq. exfalso. rewrite Heq, forallb_app in Htr.
  apply andb_prop in Htr as [_ Htr]. simpl in Htr. discriminate.
Qed.

Lemma header_unflushed c : header_call c = true → unflushed c = true.
Proof. destruct c; try discriminate; reflexivity. Qed.

Lemma inner_unflushed w c : inner_call w c = true → unflushed c = true.
Proof. destruct c; try discriminate; reflexivity. Qed.

Lemma setup_unflushed c : setup_call c = true → unflushed c = true.
Proof. destruct c; try discriminate; reflexivity. Qed.

Lemma finish_unflushed c : finish_call c = true → unflushed c = true.
Proof. destruct c; try discriminate; reflexivity. Qed.

Section Flushes.
Context {stream : Type} `{!Libogg stream}.
Variable e : env.
Variable opt : options.

Local Abbreviation state := (state stream).
Implicit Types st : state.

Lemma flushes_written_grows (P : call → bool) st st' :
  (∀ c, P c = true → unflushed c = true) → grows_by P st st' →
  flushes_written e (trace st) → flushes_written e (trace st').
Proof.
  intros HP (ta & -> & Hta). apply flushes_written_app.
  eapply forallb_weaken; [exact HP|exact Hta].
Qed.

Lemma flush_page_written st :
  flushes_written e (trace st) → flushes_written e (trace (flush_page e st)).
Proof.
  intros Hst. unfold flush_page.
  destruct (match writer_stream st with
            | Some ws => let '(r, ws') := ogg_stream_flush ws in (r, Some ws')
            | None => (None, None)
            end) as [flushed ws'].
  set (st1 := log (c_stream_flush flushed) (set_writer ws' st)).
  change (match flushed with
          | Some og => og
          | None => env_indeterminate e (length (trace st))
          end) with (flushed_page e flushed (length (trace st))).
  destruct (env_fwrite_ok e (length (trace st1))).
  - set (st2 := log (c_write_page _ true) st1).
    change (writer_stream st2) with ws'.
    destruct (stream_check ws'); simpl; rewrite <- !app_assoc; simpl;
      apply flushes_written_flush; auto.
  - simpl. rewrite <- !app_assoc. simpl. apply flushes_written_flush; auto.
Qed.

Lemma main_loop_flushes wfile pages ending st :
  flushes_written e (trace st) →
  flushes_written e (trace (main_loop e opt wfile pages ending st)).
Proof.
  revert st. apply (main_loop_inv e opt wfile ending
    (λ st, flushes_written e (trace st)) (λ st, flushes_written e (trace st)));
    [auto| |].
  - intros st Hst Herr. simpl. rewrite Herr.
    destruct ending; simpl; apply flushes_written_app; auto.
  - intros og st Hst _.
    assert (flushes_written e
              (trace (fst (page_step e opt wfile og
                             (log (c_read_page (page_read og)) st))))) as Hstep.
    { apply (page_step_preserves e opt wfile og (λ st, flushes_written e (trace st))).
      - intros st' written Hst'. simpl. apply flushes_written_app; auto.
      - intros st' msg Hst'. exact Hst'.
      - intros st'. apply (flushes_written_grows _ _ _ header_unflushed),
          init_streams_calls.
      - intros st'. apply (flushes_written_grows _ _ _ header_unflushed),
          feed_page_calls.
      - intros st' n.
        apply (flushes_written_grows _ _ _ (inner_unflushed (writing wfile))),
          read_packets_grows.
      - intros st'. apply (flushes_written_grows _ _ _ header_unflushed),
          check_reader_calls.
      - apply flush_page_written.
      - simpl. apply flushes_written_app; auto. }
    simpl. destruct (snd _); exact Hstep.
Qed.

End Flushes.

Section FlushWrite.
Context {stream : Type} `{!Libogg stream}.

(** X20: every [ogg_stream_flush] is followed at once by a [write_page]
    of the local [page]: the page flushed when there was one, and
    otherwise what the uninitialised variable held. *)
Theorem flush_writes_local_page e opt tr1 r tr2 :
  r_trace (run (stream := stream) e opt) = tr1 ++ c_stream_flush r :: tr2 →
  ∃ written tr3,
    tr2 = c_write_page
            (match r with Some og => og | None => env_indeterminate e (length tr1) end)
            written :: tr3.
Proof.
  revert tr1 r tr2. change (flushes_written e (r_trace (run (stream := stream) e opt))).
  destruct (compared_setup opt) as (Hc & _).
  destruct (input_opened_setup opt) as (Hi & _).
  destruct (prelude_setup opt) as (Hp & _).
  apply (run_entries e opt (λ r, flushes_written e (r_trace r))).
  1-4: intros; apply unflushed_written, (forallb_weaken _ _ _ setup_unflushed);
    cbn [r_trace failure]; rewrite ?forallb_app, ?Hc, ?Hi, ?Hp; reflexivity.
  intros inp wfile fs tr st tl Hent Hst _ _ _.
  destruct (entered_setup _ _ _ _ _ Hent) as (Hs & _).
  destruct (finish_calls e opt (output_path opt) (input_handle opt) wfile fs st)
    as (tail & -> & Htail).
  apply flushes_written_app; [apply (forallb_weaken _ _ _ finish_unflushed), Htail|].
  rewrite Hst. apply main_loop_flushes. simpl.
  apply unflushed_written, (forallb_weaken _ _ _ setup_unflushed), Hs.
Qed.

End FlushWrite.

Lemma packets_seen_out tr : packets_seen tr = length (packets_out tr).
Proof.
  induction tr as [|c tr IH]; [reflexivity|]. change (c :: tr) with ([c] ++ tr).
  rewrite packets_seen_app, packets_out_app, length_app, IH.
  destruct c as [| | | | | | | |[]| | | | | | | | |]; reflexivity.
Qed.

Lemma unrelayed_calls tr :
  forallb unrelayed tr = true → submitted tr = [] ∧ packets_out tr = [].
Proof.
  induction tr as [|c tr IH]; [auto|]. intros H. simpl in H.
  apply andb_prop in H as [Hc Htr]. destruct (IH Htr) as [Hs Ho].
  change (c :: tr) with ([c] ++ tr). rewrite submitted_app, packets_out_app, Hs, Ho.
  destruct c as [| | | | | | | |[]| | | | | | | | |]; try discriminate; auto.
Qed.

Lemma relayed_app e opt tr ta :
  forallb unrelayed ta = true → relayed e opt tr → relayed e opt (tr ++ ta).
Proof.
  intros Hta Htr Hclean. rewrite clean_app in Hclean.
  apply andb_prop in Hclean as [Hclean _]. destruct (unrelayed_calls _ Hta) as [Hs Ho].
  rewrite submitted_app, packets_out_app, Hs, Ho, !app_nil_r. apply Htr, Hclean.
Qed.

Lemma relayed_failed e opt tr c ta : failed c = true → relayed e opt (tr ++ c :: ta).
Proof.
  intros Hc Hclean. exfalso. rewrite clean_app in Hclean.
  apply andb_prop in Hclean as [_ Hclean]. simpl in Hclean. rewrite Hc in Hclean.
  discriminate.
Qed.

Lemma relayed_unclean e opt tr : clean tr = false → relayed e opt tr.
Proof. intros H Hclean. congruence. Qed.

Lemma unrelayed_relayed e opt tr : forallb unrelayed tr = true → relayed e opt tr.
Proof.
  intros Htr _. destruct (unrelayed_calls _ Htr) as [-> ->]. reflexivity.
Qed.

Lemma header_unrelayed c : header_call c = true → unrelayed c = true.
Proof. destruct c; try discriminate; reflexivity. Qed.

Lemma outer_unrelayed w c : outer_call w c = true → unrelayed c = true.
Proof. destruct c; try discriminate; reflexivity. Qed.

Lemma setup_unrelayed c : setup_call c = true → unrelayed c = true.
Proof. destruct c; try discriminate; reflexivity. Qed.

Lemma finish_unrelayed c : finish_call c = true → unrelayed c = true.
Proof. destruct c; try discriminate; reflexivity. Qed.

Lemma relay_more e opt ops op subs :
  length ops ≠ 1%nat → relay e opt ops = Some subs →
  relay e opt (ops ++ [op]) = Some (subs ++ [op]).
Proof.
  destruct ops as [|op1 [|op2 rest]]; simpl; try lia.
  - intros _ [= <-]. reflexivity.
  - intros _. destruct (ot.parse_tags (packet op2)); [|discriminate].
    intros [= <-]. reflexivity.
Qed.

Section Relay.
Context {stream : Type} `{!Libogg stream}.
Variable e : env.
Variable opt : options.

Local Abbreviation state := (state stream).
Implicit Types st : state.

Lemma relayed_grows (P : call → bool) st st' :
  (∀ c, P c = true → unrelayed c = true) → grows_by P st st' →
  relayed e opt (trace st) → relayed e opt (trace st').
Proof.
  intros HP (ta & -> & Hta). apply relayed_app.
  eapply forallb_weaken; [exact HP|exact Hta].
Qed.

Lemma counted_out st : counted st → packet_count st = Z.of_nat (length (packets_out (trace st))).
Proof. unfold counted. rewrite packets_seen_out. auto. Qed.

Lemma read_packets_relayed h n st :
  sound_state st → relayed e opt (trace st) →
  relayed e opt (trace (read_packets e opt (Some h) n st)).
Proof.
  revert st. induction n as [|n IH]; intros st Hs Hr; simpl; [assumption|].
  destruct (reader_stream st) as [rs|]; [|assumption].
  destruct (ogg_stream_packetout rs) as [r rs'].
  destruct r as [op| |]; [|simpl; apply relayed_app; auto..].
  set (st1 := set_packet_count _ _).
  assert (trace st1 = trace st ++ [c_stream_packetout (po_packet op)]) as Htr1
    by reflexivity.
  assert (packet_count st1 = packet_count st + 1) as Hpc1 by reflexivity.
  pose proof (counted_out st (proj2 Hs)) as Hlen.
  assert (sound_state st1) as H1.
  { destruct Hs as [Ha Hc]. split.
    - apply (accounted_log (c_stream_packetout (po_packet op))
               (set_reader (Some rs') st)); auto.
    - unfold counted, st1. simpl. rewrite packets_seen_snoc. simpl.
      unfold counted in Hc. lia. }
  assert (∀ st' ta,
            trace st' = trace st ++ c_stream_packetout (po_packet op) :: ta →
            forallb unrelayed ta = true → sound_state st' →
            packet_count st ≠ 1 →
            relayed e opt
              (trace (let '(done, st0) := writer_packetin op st' in
                      if done then read_packets e opt (Some h) n st0
                      else set_error "ogg_stream_packetin: internal error" st0)))
    as Hcopy.
  { intros st' ta Htr' Hta Hs' Hpc.
    destruct (writer_packetin_spec op st') as (done & ws & ->).
    destruct done.
    - apply IH.
      + apply (sound_log _ (set_writer ws st')); auto.
      + simpl. rewrite Htr'. intros Hclean.
        assert (clean (trace st) = true) as Hcl.
        { rewrite <- app_assoc, clean_app in Hclean.
          apply andb_prop in Hclean as [Hcl _]. exact Hcl. }
        destruct (unrelayed_calls _ Hta) as [Hsub Hout].
        change (c_stream_packetout (po_packet op) :: ta)
          with ([c_stream_packetout (po_packet op)] ++ ta).
        rewrite !submitted_app, !packets_out_app, Hsub, Hout. simpl.
        rewrite !app_nil_r. apply relay_more; [lia|apply Hr, Hcl].
    - simpl. apply relayed_unclean. rewrite clean_app. simpl.
      rewrite ?andb_false_r. reflexivity. }
  destruct (packet_count st + 1 =? 1) eqn:Hone.
  { apply Z.eqb_eq in Hone.
    destruct (ot.status_eqb _ ot.ok) eqn:Hrc.
    - apply (Hcopy _ [c_validate_identification_header
                        (ot.validate_identification_header (packet op))]);
        [simpl; rewrite <- app_assoc; reflexivity|reflexivity| |lia].
      apply sound_log; simpl; auto. rewrite Hrc. reflexivity.
    - simpl. apply relayed_failed. simpl. rewrite Hrc. reflexivity. }
  destruct (packet_count st + 1 =? 2) eqn:Htwo.
  2: { apply Z.eqb_neq in Hone, Htwo.
       apply (Hcopy st1 []); [exact Htr1|reflexivity|exact H1|lia]. }
  apply Z.eqb_eq in Htwo. unfold process_tags.
  destruct (ot.parse_tags (packet op)) as [tags|] eqn:Hparse.
  2: { simpl. apply relayed_failed. reflexivity. }
  destruct (writer_packetin_spec (render_tags (edit_tags e opt tags)) st1)
    as (done & ws & ->).
  destruct done; cbn [ot.status_eqb].
  - apply IH.
    + apply sound_log; auto. apply (sound_log _ (set_writer ws st1)); auto.
    + simpl. intros Hclean.
      assert (clean (trace st) = true) as Hcl.
      { rewrite <- !app_assoc, clean_app in Hclean.
        apply andb_prop in Hclean as [Hcl _]. exact Hcl. }
      rewrite !submitted_app, !packets_out_app. simpl. rewrite !app_nil_r.
      specialize (Hr Hcl).
      destruct (packets_out (trace st)) as [|op1 [|op2 rest]]; simpl in Hlen; try lia.
      simpl in Hr. injection Hr as <-. simpl. rewrite Hparse. reflexivity.
  - simpl. apply relayed_unclean. rewrite !clean_app. simpl.
    rewrite ?andb_false_r. reflexivity.
Qed.

Lemma page_step_relayed h og st :
  tallied st → relayed e opt (trace st) →
  relayed e opt (trace (fst (page_step e opt (Some h) og st))).
Proof.
  intros Hst Hr. unfold page_step.
  destruct ((2 <=? packet_count st) && bool_decide (is_Some (Some h))).
  { destruct (env_fwrite_ok e (length (trace st))); simpl; apply relayed_app; auto. }
  destruct (init_streams_sound (Some h) og st Hst) as [_ Hs].
  pose proof (relayed_grows _ _ _ header_unrelayed
                (proj1 (init_streams_calls (Some h) og st)) Hr) as Hr1.
  destruct (error (init_streams (Some h) og st)); [exact Hr1|].
  specialize (Hs eq_refl).
  pose proof (feed_page_sound og _ Hs) as Hs2.
  pose proof (relayed_grows _ _ _ header_unrelayed
                (proj1 (feed_page_calls og (init_streams (Some h) og st))) Hr1) as Hr2.
  destruct (error (feed_page og _)); [exact Hr2|].
  pose proof (read_packets_sound e opt (Some h)
                (fuel_of (feed_page og (init_streams (Some h) og st))) _ Hs2) as Hs3.
  pose proof (read_packets_relayed h
                (fuel_of (feed_page og (init_streams (Some h) og st))) _ Hs2 Hr2) as Hr3.
  destruct (error (read_packets _ _ _ _ _)); [exact Hr3|].
  simpl.
  apply (relayed_grows _ _ _ (outer_unrelayed true) (proj1 (flush_page_calls e _))).
  apply (relayed_grows _ _ _ header_unrelayed (proj1 (check_reader_calls _))).
  exact Hr3.
Qed.

Lemma main_loop_relayed h pages ending st :
  tallied st → relayed e opt (trace st) →
  relayed e opt (trace (main_loop e opt (Some h) pages ending st)).
Proof.
  intros Ht Hr. revert st Ht Hr.
  assert (∀ st, tallied st ∧ relayed e opt (trace st) →
                relayed e opt (trace (main_loop e opt (Some h) pages ending st)))
    as Hmain.
  2: { intros st Ht Hr. apply Hmain. auto. }
  apply (main_loop_inv e opt (Some h) ending
    (λ st, tallied st ∧ relayed e opt (trace st)) (λ st, relayed e opt (trace st))).
  - intros st [_ Hr]. exact Hr.
  - intros st [_ Hr] Herr. simpl. rewrite Herr.
    destruct ending; simpl; apply relayed_app; auto.
  - intros og st [Ht Hr] Herr.
    set (st0 := log (c_read_page (page_read og)) st).
    assert (tallied st0) as Ht0 by (apply tallied_log; auto).
    assert (relayed e opt (trace st0)) as Hr0 by (simpl; apply relayed_app; auto).
    pose proof (page_step_sound e opt (Some h) og st0 Ht0) as Hts.
    pose proof (page_step_relayed h og st0 Ht0 Hr0) as Hrs.
    simpl. fold st0. destruct (snd _); [split|]; assumption.
Qed.

End Relay.

Section Relayed.
Context {stream : Type} `{!Libogg stream}.

(** X21: when a run that writes an output succeeds, the packets
    submitted to the encoder are the packets taken out of the decoder, in
    their order, with the second one replaced by the rendering of its tags
    after the edits. *)
Theorem packets_relayed e opt :
  output_path opt ≠ "" →
  exit_status (run (stream := stream) e opt) = EXIT_SUCCESS →
  ∃ op1 op2 rest tags,
    packets_out (r_trace (run (stream := stream) e opt)) = op1 :: op2 :: rest
    ∧ ot.parse_tags (packet op2) = Some tags
    ∧ submitted (r_trace (run (stream := stream) e opt))
      = op1 :: render_tags (edit_tags e opt tags) :: rest.
Proof.
  intros Hout.
  apply (run_entries e opt (λ r,
    exit_status r = EXIT_SUCCESS →
    ∃ op1 op2 rest tags,
      packets_out (r_trace r) = op1 :: op2 :: rest
      ∧ ot.parse_tags (packet op2) = Some tags
      ∧ submitted (r_trace r) = op1 :: render_tags (edit_tags e opt tags) :: rest));
    try (intros; discriminate).
  intros inp wfile fs tr st tl Hent Hst Htal Htr Hl Hok.
  destruct (entered_setup _ _ _ _ _ Hent) as (Hs & _ & Hcl & Hseen).
  assert (∃ h, wfile = Some h) as [h ->].
  { destruct Hent as [(He & _)|[(_ & -> & _)|(_ & _ & -> & _)]]; [contradiction|eauto..]. }
  assert (relayed e opt (trace st)) as Hr.
  { rewrite Hst. apply main_loop_relayed.
    - split; [split; auto|right; auto].
    - apply unrelayed_relayed, (forallb_weaken _ _ _ setup_unrelayed), Hs. }
  assert (clean (trace st) = true ∧ (2 ≤ packets_seen (trace st))%nat) as [Hclean Hmany].
  { revert Hok. apply finish_cases; cbn [exit_status]; try (intros; discriminate).
    - intros sfx Hf _ _ _. apply (final_error_none st Htal Hf).
    - intros Hf _ _. apply (final_error_none st Htal Hf). }
  destruct (finish_calls e opt (output_path opt) (input_handle opt) (Some h) fs st)
    as (tail & -> & Htail).
  destruct (unrelayed_calls _ (forallb_weaken _ _ _ finish_unrelayed Htail)) as [Hsub Hpo].
  rewrite submitted_app, packets_out_app, Hsub, Hpo, !app_nil_r.
  specialize (Hr Hclean). rewrite packets_seen_out in Hmany.
  destruct (packets_out (trace st)) as [|op1 [|op2 rest]]; simpl in Hmany; try lia.
  simpl in Hr. destruct (ot.parse_tags (packet op2)) as [tags|] eqn:Hparse; [|discriminate].
  injection Hr as <-. exists op1, op2, rest, tags. auto.
Qed.

End Relayed.

Lemma announced_app tr ta :
  forallb untagged ta = true → announced tr → announced (tr ++ ta).
Proof.
  intros Hta Htr Hin. apply in_app_iff in Hin as [Hin|Hin].
  - rewrite printed_app. intros Hnil. apply app_eq_nil in Hnil as [Hnil _].
    exact (Htr Hin Hnil).
  - rewrite forallb_forall in Hta. specialize (Hta _ Hin). discriminate.
Qed.

Lemma announced_refused tr rc :
  rc ≠ ot.ok → announced tr → announced (tr ++ [c_process_tags rc]).
Proof.
  intros Hrc Htr Hin. apply in_app_iff in Hin as [Hin|[Hin|[]]].
  - rewrite printed_app. intros Hnil. apply app_eq_nil in Hnil as [Hnil _].
    exact (Htr Hin Hnil).
  - injection Hin as ->. contradiction.
Qed.

Lemma printed_announced tr : printed tr ≠ [] → announced tr.
Proof. intros H _. exact H. Qed.

Lemma untagged_announced tr : forallb untagged tr = true → announced tr.
Proof.
  intros Htr Hin. rewrite forallb_forall in Htr. specialize (Htr _ Hin). discriminate.
Qed.

Lemma plain_untagged c : plain c = true → untagged c = true.
Proof. unfold plain, untagged. intros H. apply andb_prop in H as [_ H]. exact H. Qed.

Section Announced.
Context {stream : Type} `{!Libogg stream}.
Variable e : env.
Variable opt : options.

Local Abbreviation state := (state stream).
Implicit Types st : state.

Lemma announced_grows (P : call → bool) st st' :
  (∀ c, P c = true → untagged c = true) → grows_by P st st' →
  announced (trace st) → announced (trace st').
Proof.
  intros HP (ta & -> & Hta). apply announced_app.
  eapply forallb_weaken; [exact HP|exact Hta].
Qed.

Lemma read_packets_announced n st :
  announced (trace st) → announced (trace (read_packets e opt None n st)).
Proof.
  revert st. induction n as [|n IH]; intros st Hst; simpl; [assumption|].
  destruct (reader_stream st) as [rs|]; [|assumption].
  destruct (ogg_stream_packetout rs) as [r rs'].
  destruct r as [op| |]; [|simpl; apply announced_app; auto..].
  set (st1 := set_packet_count _ _).
  assert (announced (trace st1)) as H1 by (simpl; apply announced_app; auto).
  destruct (packet_count st + 1 =? 1).
  { destruct (ot.status_eqb _ ot.ok).
    - apply IH. simpl. apply announced_app; auto.
    - simpl. apply announced_app; auto. }
  destruct (packet_count st + 1 =? 2); [|apply IH, H1].
  unfold process_tags. destruct (ot.parse_tags (packet op)) as [tags|]; simpl.
  - apply printed_announced. rewrite !printed_app. simpl.
    intros Hnil. apply app_eq_nil in Hnil as [Hnil _].
    apply app_eq_nil in Hnil as [_ Hnil]. discriminate.
  - apply announced_refused; [discriminate|exact H1].
Qed.

Lemma main_loop_announced pages ending st :
  announced (trace st) → announced (trace (main_loop e opt None pages ending st)).
Proof.
  revert st. apply (main_loop_inv e opt None ending
    (λ st, announced (trace st)) (λ st, announced (trace st))); [auto| |].
  - intros st Hst Herr. simpl. rewrite Herr.
    destruct ending; simpl; apply announced_app; auto.
  - intros og st Hst _.
    assert (announced (trace (fst (page_step e opt None og
                                     (log (c_read_page (page_read og)) st))))) as Hstep.
    { apply (page_step_preserves e opt None og (λ st, announced (trace st))).
      - intros st' written Hst'. simpl. apply announced_app; auto.
      - intros st' msg Hst'. exact Hst'.
      - intros st'.
        apply (announced_grows _ _ _ (λ c Hc, plain_untagged c (header_plain c Hc))),
          init_streams_calls.
      - intros st'.
        apply (announced_grows _ _ _ (λ c Hc, plain_untagged c (header_plain c Hc))),
          feed_page_calls.
      - intros st' n. apply read_packets_announced.
      - intros st'.
        apply (announced_grows _ _ _ (λ c Hc, plain_untagged c (header_plain c Hc))),
          check_reader_calls.
      - intros st'.
        apply (announced_grows _ _ _ (λ c Hc, plain_untagged c (outer_plain true c Hc))),
          flush_page_calls.
      - simpl. apply announced_app; auto. }
    simpl. destruct (snd _); exact Hstep.
Qed.

End Announced.

Section Prints.
Context {stream : Type} `{!Libogg stream}.

(** X22: a run without output that succeeds has printed a comment
    list. *)
Theorem read_only_success_prints e opt :
  output_path opt = "" →
  exit_status (run (stream := stream) e opt) = EXIT_SUCCESS →
  printed (r_trace (run (stream := stream) e opt)) ≠ [].
Proof.
  intros Hout.
  apply (run_entries e opt (λ r,
    exit_status r = EXIT_SUCCESS → printed (r_trace r) ≠ []));
    try (intros; discriminate).
  intros inp wfile fs tr st tl Hent Hst Htal Htr Hl Hok.
  destruct (entered_setup _ _ _ _ _ Hent) as (Hs & _).
  assert (wfile = None) as ->.
  { destruct Hent as [(_ & -> & _)|[(Hd & _)|(Hne & _)]]; congruence. }
  destruct (plain_calls _ (forallb_weaken _ _ _ setup_plain Hs)) as [Hv0 Ht0].
  assert (headed st) as Hh.
  { rewrite Hst. apply main_loop_headed. unfold headed. simpl. rewrite Hv0, Ht0. auto. }
  assert (announced (trace st)) as Ha.
  { rewrite Hst. apply main_loop_announced. simpl.
    apply untagged_announced,
      (forallb_weaken _ _ _ (λ c Hc, plain_untagged c (setup_plain c Hc))), Hs. }
  assert (final_error st = None) as Hf.
  { revert Hok. apply finish_cases; cbn [exit_status]; try (intros; discriminate); auto. }
  destruct (headed_success st Htal Hh Hf) as (_ & _ & Hin).
  destruct (finish_calls e opt (output_path opt) (input_handle opt) None fs st)
    as (tail & -> & Htail).
  rewrite printed_app. intros Hnil. apply app_eq_nil in Hnil as [Hnil _].
  exact (Ha Hin Hnil).
Qed.

End Prints.

Ltac in_list := repeat (first [left; reflexivity | right]).

Lemma missing_input_fails_witness :
  path_in (ex_options "missing.opus" "out.opus" None true) ≠ "-"
  ∧ env_fopen_r (ex_world ∅ ex_stream at_end_of_file true true) "missing.opus" = None
  ∧ run (stream := framing.ogg_stream_state)
      (ex_world ∅ ex_stream at_end_of_file true true)
      (ex_options "missing.opus" "out.opus" None true)
    = failure ({["in.opus"]} ∪ ∅)
        [c_same_file "missing.opus" "out.opus" false;
         c_fopen "missing.opus" "r" false; c_stderr "fopen"].
Proof.
  assert (path_in (ex_options "missing.opus" "out.opus" None true) ≠ "-") as H1
    by (simpl; discriminate).
  split; [exact H1|]. split; [reflexivity|].
  apply (missing_input_fails (stream := framing.ogg_stream_state)
           (ex_world ∅ ex_stream at_end_of_file true true)
           (ex_options "missing.opus" "out.opus" None true) H1 eq_refl).
  intros _. reflexivity.
Defined.

Lemma existing_output_kept_witness :
  "out.opus" ∈ env_fs (ex_world {["out.opus"]} ex_stream at_end_of_file true true)
  ∧ r_fs (run (stream := framing.ogg_stream_state)
            (ex_world {["out.opus"]} ex_stream at_end_of_file true true)
            (ex_options "in.opus" "out.opus" None false))
    = {["in.opus"]} ∪ {["out.opus"]}
  ∧ exit_status (run (stream := framing.ogg_stream_state)
                   (ex_world {["out.opus"]} ex_stream at_end_of_file true true)
                   (ex_options "in.opus" "out.opus" None false))
    = EXIT_FAILURE.
Proof.
  assert ("out.opus" ∈ env_fs (ex_world {["out.opus"]} ex_stream at_end_of_file true true))
    as Hfound by (apply elem_of_union; right; apply elem_of_singleton; reflexivity).
  split; [exact Hfound|].
  assert (path_out (ex_options "in.opus" "out.opus" None false) ≠ "") as H1
    by (simpl; discriminate).
  assert (path_out (ex_options "in.opus" "out.opus" None false) ≠ "-") as H2
    by (simpl; discriminate).
  rewrite (existing_output_kept (stream := framing.ogg_stream_state)
             (ex_world {["out.opus"]} ex_stream at_end_of_file true true)
             (ex_options "in.opus" "out.opus" None false)
             {| in_pages := ex_stream; in_end := at_end_of_file |}
             eq_refl eq_refl H1 H2 Hfound eq_refl eq_refl).
  split; reflexivity.
Defined.

Lemma unwritable_output_fails_witness :
  env_fopen_w (ex_world ∅ ex_stream at_end_of_file false true) "out.opus" = false
  ∧ run (stream := framing.ogg_stream_state)
      (ex_world ∅ ex_stream at_end_of_file false true)
      (ex_options "in.opus" "out.opus" None true)
    = failure ({["in.opus"]} ∪ ∅)
        [c_same_file "in.opus" "out.opus" false; c_fopen "in.opus" "r" true;
         c_fopen "out.opus" "w" false; c_stderr "fopen"; c_fclose (h_file "in.opus")].
Proof.
  split; [reflexivity|].
  apply (unwritable_output_fails (stream := framing.ogg_stream_state)
           (ex_world ∅ ex_stream at_end_of_file false true)
           (ex_options "in.opus" "out.opus" None true)
           {| in_pages := ex_stream; in_end := at_end_of_file |} eq_refl).
  - simpl. discriminate.
  - simpl. discriminate.
  - intros _. reflexivity.
  - intros Hg. discriminate Hg.
  - reflexivity.
Defined.

Lemma other_files_untouched_witness :
  "notes.txt" ≠ output_path (ex_options "in.opus" "out.opus" None true)
  ∧ "notes.txt" ∈ r_fs (run (stream := framing.ogg_stream_state)
                          (ex_world {["notes.txt"]} ex_stream at_end_of_file true true)
                          (ex_options "in.opus" "out.opus" None true)).
Proof.
  assert ("notes.txt" ≠ output_path (ex_options "in.opus" "out.opus" None true)) as H1
    by (simpl; discriminate).
  split; [exact H1|].
  apply (other_files_untouched (stream := framing.ogg_stream_state)
           (ex_world {["notes.txt"]} ex_stream at_end_of_file true true)
           (ex_options "in.opus" "out.opus" None true) "notes.txt" H1
           (or_introl eq_refl)).
  apply elem_of_union. right. apply elem_of_singleton. reflexivity.
Defined.

Lemma success_keeps_output_witness :
  exit_status (ex_run ex_stream (ex_audio 0) "out.opus" []) = EXIT_SUCCESS
  ∧ r_fs (ex_run ex_stream (ex_audio 0) "out.opus" []) = {["in.opus"]} ∪ {["out.opus"]}.
Proof.
  unfold ex_run.
  assert (exit_status (run (stream := framing.ogg_stream_state)
                         (ex_env ex_stream (ex_audio 0)) (ex_opt "out.opus" []))
          = EXIT_SUCCESS) as Hexit by (vm_compute; reflexivity).
  split; [exact Hexit|].
  destruct (success_keeps_output (stream := framing.ogg_stream_state)
              (ex_env ex_stream (ex_audio 0)) (ex_opt "out.opus" []) eq_refl)
    as (Hfs & _); [simpl; discriminate|simpl; discriminate|exact Hexit|].
  exact Hfs.
Defined.

Lemma inplace_success_renames_witness :
  exit_status (run (stream := framing.ogg_stream_state)
                 (ex_world ∅ ex_stream at_end_of_file true true)
                 (ex_options "in.opus" "" (Some ".tmp") false))
  = EXIT_SUCCESS
  ∧ last (r_trace (run (stream := framing.ogg_stream_state)
                     (ex_world ∅ ex_stream at_end_of_file true true)
                     (ex_options "in.opus" "" (Some ".tmp") false)))
    = Some (c_rename "in.opus.tmp" "in.opus" true).
Proof.
  assert (exit_status (run (stream := framing.ogg_stream_state)
                         (ex_world ∅ ex_stream at_end_of_file true true)
                         (ex_options "in.opus" "" (Some ".tmp") false))
          = EXIT_SUCCESS) as Hexit by (vm_compute; reflexivity).
  split; [exact Hexit|].
  destruct (inplace_success_renames (stream := framing.ogg_stream_state)
              (ex_world ∅ ex_stream at_end_of_file true true)
              (ex_options "in.opus" "" (Some ".tmp") false) ".tmp" eq_refl)
    as (Hlast & _); [simpl; discriminate|simpl; discriminate|exact Hexit|].
  exact Hlast.
Defined.

Lemma failed_rename_keeps_temporary_witness :
  In (c_rename "in.opus.tmp" "in.opus" false)
    (r_trace (run (stream := framing.ogg_stream_state)
                (ex_world ∅ ex_stream at_end_of_file true false)
                (ex_options "in.opus" "" (Some ".tmp") false)))
  ∧ exit_status (run (stream := framing.ogg_stream_state)
                   (ex_world ∅ ex_stream at_end_of_file true false)
                   (ex_options "in.opus" "" (Some ".tmp") false))
    = EXIT_FAILURE
  ∧ r_fs (run (stream := framing.ogg_stream_state)
            (ex_world ∅ ex_stream at_end_of_file true false)
            (ex_options "in.opus" "" (Some ".tmp") false))
    = ({["in.opus"]} ∪ ∅) ∪ {["in.opus.tmp"]}.
Proof.
  assert (In (c_rename "in.opus.tmp" "in.opus" false)
            (r_trace (run (stream := framing.ogg_stream_state)
                        (ex_world ∅ ex_stream at_end_of_file true false)
                        (ex_options "in.opus" "" (Some ".tmp") false)))) as Hin
    by (vm_compute; in_list).
  split; [exact Hin|].
  destruct (failed_rename_keeps_temporary (stream := framing.ogg_stream_state)
              (ex_world ∅ ex_stream at_end_of_file true false)
              (ex_options "in.opus" "" (Some ".tmp") false) _ _ Hin)
    as (_ & _ & _ & Hexit & _ & _ & Hfs).
  split; [exact Hexit|]. apply Hfs; simpl; discriminate.
Defined.

Lemma stdout_output_keeps_files_witness :
  path_out (ex_opt "-" []) = "-" ∧ inplace (ex_opt "-" []) = None
  ∧ r_fs (ex_run ex_stream (ex_audio 0) "-" []) = {["in.opus"]}.
Proof.
  unfold ex_run. split; [reflexivity|]. split; [reflexivity|].
  destruct (stdout_output_keeps_files (stream := framing.ogg_stream_state)
              (ex_env ex_stream (ex_audio 0)) (ex_opt "-" []) eq_refl eq_refl)
    as (Hfs & _).
  exact Hfs.
Defined.

Lemma overwrite_skips_access_witness :
  overwrite (ex_opt "out.opus" []) = true
  ∧ ¬ In (c_access "out.opus" false) (r_trace (ex_run ex_stream (ex_audio 0) "out.opus" [])).
Proof.
  unfold ex_run. split; [reflexivity|].
  apply (overwrite_skips_access (stream := framing.ogg_stream_state)
           (ex_env ex_stream (ex_audio 0)) (ex_opt "out.opus" []) (or_introl eq_refl)).
Defined.

Lemma too_few_packets_invalid_file_witness :
  failures (r_trace (ex_run ex_short_stream (ex_audio 0) "" [])) = []
  ∧ (packets_seen (r_trace (ex_run ex_short_stream (ex_audio 0) "" [])) < 2)%nat
  ∧ diagnostics (r_trace (ex_run ex_short_stream (ex_audio 0) "" []))
    = ["opustags: invalid file"].
Proof.
  unfold ex_run.
  assert (failures (r_trace (run (stream := framing.ogg_stream_state)
                               (ex_env ex_short_stream (ex_audio 0)) (ex_opt "" [])))
          = []) as Hclean by (vm_compute; reflexivity).
  assert (packets_seen (r_trace (run (stream := framing.ogg_stream_state)
                                   (ex_env ex_short_stream (ex_audio 0)) (ex_opt "" [])))
          < 2)%nat as Hfew by (vm_compute; lia).
  split; [exact Hclean|]. split; [exact Hfew|].
  apply (too_few_packets_invalid_file (stream := framing.ogg_stream_state)
           (ex_env ex_short_stream (ex_audio 0)) (ex_opt "" []) Hclean Hfew).
Defined.

Lemma write_mode_never_prints_witness :
  output_path (ex_opt "-" []) ≠ ""
  ∧ printed (r_trace (ex_run ex_stream (ex_audio 0) "-" [])) = [].
Proof.
  unfold ex_run.
  assert (output_path (ex_opt "-" []) ≠ "") as Hout by (simpl; discriminate).
  split; [exact Hout|].
  apply (write_mode_never_prints (stream := framing.ogg_stream_state)
           (ex_env ex_stream (ex_audio 0)) (ex_opt "-" []) Hout).
Defined.

Lemma opened_files_closed_witness :
  In (c_fopen "out.opus" "w" true) (r_trace (ex_run ex_stream (ex_audio 0) "out.opus" []))
  ∧ In (c_fclose (h_file "out.opus"))
      (r_trace (ex_run ex_stream (ex_audio 0) "out.opus" [])).
Proof.
  unfold ex_run.
  assert (In (c_fopen "out.opus" "w" true)
            (r_trace (run (stream := framing.ogg_stream_state)
                        (ex_env ex_stream (ex_audio 0)) (ex_opt "out.opus" []))))
    as Hopen by (vm_compute; in_list).
  split; [exact Hopen|].
  apply (opened_files_closed (stream := framing.ogg_stream_state)
           (ex_env ex_stream (ex_audio 0)) (ex_opt "out.opus" []) _ _ Hopen).
Defined.

Lemma read_error_reported_witness :
  In (c_read_page (page_end (at_standard_error "Input/output error")))
    (r_trace (run (stream := framing.ogg_stream_state)
                (ex_world ∅ [ex_first] (at_standard_error "Input/output error") true true)
                (ex_options "in.opus" "" None false)))
  ∧ diagnostics
      (r_trace (run (stream := framing.ogg_stream_state)
                  (ex_world ∅ [ex_first] (at_standard_error "Input/output error")
                     true true)
                  (ex_options "in.opus" "" None false)))
    = ["Input/output error"].
Proof.
  assert (In (c_read_page (page_end (at_standard_error "Input/output error")))
            (r_trace (run (stream := framing.ogg_stream_state)
                        (ex_world ∅ [ex_first] (at_standard_error "Input/output error")
                           true true)
                        (ex_options "in.opus" "" None false)))) as Hin
    by (vm_compute; in_list).
  split; [exact Hin|].
  apply (read_error_reported (stream := framing.ogg_stream_state)
           (ex_world ∅ [ex_first] (at_standard_error "Input/output error") true true)
           (ex_options "in.opus" "" None false) _ Hin).
Defined.

Lemma audio_pages_copied_witness :
  (2 ≤ packets_seen (take 25 (r_trace (ex_run ex_stream (ex_audio 0) "out.opus" []))))%nat
  ∧ ∃ written tr3,
      drop 26 (r_trace (ex_run ex_stream (ex_audio 0) "out.opus" []))
      = c_write_page (ex_audio 2) written :: tr3.
Proof.
  unfold ex_run.
  assert (2 ≤ packets_seen
                (take 25 (r_trace (run (stream := framing.ogg_stream_state)
                                     (ex_env ex_stream (ex_audio 0))
                                     (ex_opt "out.opus" []))))
         )%nat as Hseen by (vm_compute; lia).
  split; [exact Hseen|].
  eapply (audio_pages_copied (stream := framing.ogg_stream_state)
            (ex_env ex_stream (ex_audio 0)) (ex_opt "out.opus" [])); [|exact Hseen].
  vm_compute. reflexivity.
Defined.

Lemma read_only_stops_at_comments_witness :
  output_path (ex_opt "" []) = ""
  ∧ (packets_seen (r_trace (ex_run ex_stream (ex_audio 0) "" [])) ≤ 2)%nat.
Proof.
  unfold ex_run. split; [reflexivity|].
  apply (read_only_stops_at_comments (stream := framing.ogg_stream_state)
           (ex_env ex_stream (ex_audio 0)) (ex_opt "" []) eq_refl).
Defined.

Lemma no_read_after_failure_witness :
  failed (c_stream_pagein ex_foreign false) = true
  ∧ ¬ In (c_read_page (page_end at_end_of_file))
        (drop 17 (r_trace (ex_run ex_mixed_stream (ex_audio 0) "out.opus" []))).
Proof.
  unfold ex_run. split; [reflexivity|].
  apply (no_read_after_failure (stream := framing.ogg_stream_state)
           (ex_env ex_mixed_stream (ex_audio 0)) (ex_opt "out.opus" [])
           (take 16 (r_trace (run (stream := framing.ogg_stream_state)
                                (ex_env ex_mixed_stream (ex_audio 0))
                                (ex_opt "out.opus" []))))
           (c_stream_pagein ex_foreign false)); [|reflexivity].
  vm_compute. reflexivity.
Defined.

Lemma flush_writes_local_page_witness :
  ∃ written tr3,
    drop 20 (r_trace (ex_run ex_split_stream (ex_audio 0) "out.opus" []))
    = c_write_page (ex_audio 0) written :: tr3.
Proof.
  unfold ex_run.
  apply (flush_writes_local_page (stream := framing.ogg_stream_state)
           (ex_env ex_split_stream (ex_audio 0)) (ex_opt "out.opus" [])
           (take 19 (r_trace (run (stream := framing.ogg_stream_state)
                                (ex_env ex_split_stream (ex_audio 0))
                                (ex_opt "out.opus" []))))
           None).
  vm_compute. reflexivity.
Defined.

Lemma packets_relayed_witness :
  output_path (ex_opt "out.opus" ["GENRE=G"]) ≠ ""
  ∧ exit_status (ex_run ex_stream (ex_audio 0) "out.opus" ["GENRE=G"]) = EXIT_SUCCESS
  ∧ ∃ op1 op2 rest tags,
      packets_out (r_trace (ex_run ex_stream (ex_audio 0) "out.opus" ["GENRE=G"]))
      = op1 :: op2 :: rest
      ∧ ot.parse_tags (packet op2) = Some tags
      ∧ submitted (r_trace (ex_run ex_stream (ex_audio 0) "out.opus" ["GENRE=G"]))
        = op1 :: render_tags
                   (edit_tags (ex_env ex_stream (ex_audio 0))
                      (ex_opt "out.opus" ["GENRE=G"]) tags) :: rest.
Proof.
  unfold ex_run.
  assert (output_path (ex_opt "out.opus" ["GENRE=G"]) ≠ "") as Hout
    by (simpl; discriminate).
  assert (exit_status (run (stream := framing.ogg_stream_state)
                         (ex_env ex_stream (ex_audio 0))
                         (ex_opt "out.opus" ["GENRE=G"]))
          = EXIT_SUCCESS) as Hexit by (vm_compute; reflexivity).
  split; [exact Hout|]. split; [exact Hexit|].
  apply (packets_relayed (stream := framing.ogg_stream_state)
           (ex_env ex_stream (ex_audio 0)) (ex_opt "out.opus" ["GENRE=G"]) Hout Hexit).
Defined.

Lemma read_only_success_prints_witness :
  output_path (ex_opt "" []) = ""
  ∧ exit_status (ex_run ex_stream (ex_audio 0) "" []) = EXIT_SUCCESS
  ∧ printed (r_trace (ex_run ex_stream (ex_audio 0) "" [])) ≠ [].
Proof.
  unfold ex_run.
  assert (exit_status (run (stream := framing.ogg_stream_state)
                         (ex_env ex_stream (ex_audio 0)) (ex_opt "" []))
          = EXIT_SUCCESS) as Hexit by (vm_compute; reflexivity).
  split; [reflexivity|]. split; [exact Hexit|].
  apply (read_only_success_prints (stream := framing.ogg_stream_state)
           (ex_env ex_stream (ex_audio 0)) (ex_opt "" []) eq_refl Hexit).
Defined.
